(** * Network-policy default-deny port groups: a shallow embedding

    The controller code under verification is the network-policy part of the
    OVN controller (package [ovn]).  Go maps are finite maps ([gmap]), Go
    string sets ([sets.Set[string]]) are finite sets ([gset]), slices are
    lists, and a [nil] slice or map is the empty one.  Functions that mutate
    an object through a pointer take the object and return the updated one. *)

From stdpp Require Import base gmap sets list strings.

Open Scope string_scope.
Open Scope list_scope.
Open Scope nat_scope.

(** ** Shared default-deny reference maps *)

(** [defaultDenyPortGroups]: the per-namespace record shared by every policy
    of the namespace.  [policies] is a Go [map[string]bool]. *)
Record defaultDenyPortGroups := DefaultDenyPortGroups {
  ingressPortToPolicies : gmap string (gset string);
  egressPortToPolicies : gmap string (gset string);
  policies : gmap string bool
}.

(** The record stored by [LoadOrStore] on the first join. *)
Definition newDefaultDenyPortGroups : defaultDenyPortGroups :=
  {| ingressPortToPolicies := ∅; egressPortToPolicies := ∅; policies := ∅ |}.

(** [m[portName]] on a Go map of sets: a missing key reads as the nil set,
    on which [Len] is 0 and [Delete] does nothing. *)
Definition refs (m : gmap string (gset string)) (portName : string) : gset string :=
  default ∅ (m !! portName).

(** One iteration of the loop body of [addPortsForPolicy] for one direction. *)
Definition addPort (key : string)
    (acc : gmap string (gset string) * list string) (port : string * string)
    : gmap string (gset string) * list string :=
  let '(m, denyPorts) := acc in
  let '(portName, portUUID) := port in
  let '(m, denyPorts) :=
    if decide (size (refs m portName) = 0)
    then (<[portName := ∅]> m, denyPorts ++ [portUUID])
    else (m, denyPorts) in
  (alter (λ s, {[key]} ∪ s) portName m, denyPorts).

(** One iteration of the loop body of [deletePortsForPolicy]. *)
Definition deletePort (key : string)
    (acc : gmap string (gset string) * list string) (port : string * string)
    : gmap string (gset string) * list string :=
  let '(m, denyPorts) := acc in
  let '(portName, portUUID) := port in
  let m := alter (λ s, s ∖ {[key]}) portName m in
  if decide (size (refs m portName) = 0)
  then (delete portName m, denyPorts ++ [portUUID])
  else (m, denyPorts).

Definition addPorts (key : string) (range : list (string * string))
    (m : gmap string (gset string)) : gmap string (gset string) * list string :=
  foldl (addPort key) (m, []) range.

Definition deletePorts (key : string) (range : list (string * string))
    (m : gmap string (gset string)) : gmap string (gset string) * list string :=
  foldl (deletePort key) (m, []) range.

(** The part of a compiled policy that the default-deny store reads. *)
Record networkPolicy := NetworkPolicy {
  name : string;
  namespace : string;
  isIngress : bool;
  isEgress : bool;
  peerAddressSets : list string;
  localPods : gmap string string;
  portGroupName : string;
  localPodHandler : option nat;
  nsHandlerList : list nat;
  deleted : bool
}.

Definition getKey (np : networkPolicy) : string :=
  namespace np +:+ "/" +:+ name np.

Definition getKeyWithKind (np : networkPolicy) : string :=
  "NetworkPolicy" +:+ "/" +:+ namespace np +:+ "/" +:+ name np.

(** [addPortsForPolicyIn]: [addPortsForPolicy] with the two sequences in which
    the ingress and the egress [range] loops enumerate [portNamesToUUIDs]
    (Go leaves the order of a map range unspecified, and the two loops need
    not agree). *)
Definition addPortsForPolicyIn (np : networkPolicy)
    (ingressRange egressRange : list (string * string))
    (sharedPGs : defaultDenyPortGroups)
    : defaultDenyPortGroups * list string * list string :=
  let '(ing, ingressDenyPorts) :=
    if isIngress np
    then addPorts (getKey np) ingressRange (ingressPortToPolicies sharedPGs)
    else (ingressPortToPolicies sharedPGs, []) in
  let '(eg, egressDenyPorts) :=
    if isEgress np
    then addPorts (getKey np) egressRange (egressPortToPolicies sharedPGs)
    else (egressPortToPolicies sharedPGs, []) in
  ({| ingressPortToPolicies := ing; egressPortToPolicies := eg;
      policies := policies sharedPGs |}, ingressDenyPorts, egressDenyPorts).

Definition deletePortsForPolicyIn (np : networkPolicy)
    (ingressRange egressRange : list (string * string))
    (sharedPGs : defaultDenyPortGroups)
    : defaultDenyPortGroups * list string * list string :=
  let '(ing, ingressDenyPorts) :=
    if isIngress np
    then deletePorts (getKey np) ingressRange (ingressPortToPolicies sharedPGs)
    else (ingressPortToPolicies sharedPGs, []) in
  let '(eg, egressDenyPorts) :=
    if isEgress np
    then deletePorts (getKey np) egressRange (egressPortToPolicies sharedPGs)
    else (egressPortToPolicies sharedPGs, []) in
  ({| ingressPortToPolicies := ing; egressPortToPolicies := eg;
      policies := policies sharedPGs |}, ingressDenyPorts, egressDenyPorts).

(** [addPortsForPolicy] and [deletePortsForPolicy] on the map itself, both
    loops enumerating it as [map_to_list] does. *)
Definition addPortsForPolicy (np : networkPolicy)
    (portNamesToUUIDs : gmap string string) (sharedPGs : defaultDenyPortGroups)
    : defaultDenyPortGroups * list string * list string :=
  addPortsForPolicyIn np (map_to_list portNamesToUUIDs)
    (map_to_list portNamesToUUIDs) sharedPGs.

Definition deletePortsForPolicy (np : networkPolicy)
    (portNamesToUUIDs : gmap string string) (sharedPGs : defaultDenyPortGroups)
    : defaultDenyPortGroups * list string * list string :=
  deletePortsForPolicyIn np (map_to_list portNamesToUUIDs)
    (map_to_list portNamesToUUIDs) sharedPGs.

(** No port name is mapped to an empty reference set: the shape every record
    has that was built from [newDefaultDenyPortGroups] by the two operations
    above. *)
Definition noEmptyRefs (m : gmap string (gset string)) : Prop :=
  ∀ p s, m !! p = Some s → s ≠ ∅.

Definition wfDefaultDeny (sharedPGs : defaultDenyPortGroups) : Prop :=
  noEmptyRefs (ingressPortToPolicies sharedPGs) ∧
  noEmptyRefs (egressPortToPolicies sharedPGs).

(** ** External collaborators *)

Inductive aclDirection := aclIngress | aclEgress.

(** A pod as the policy code reads it. *)
Record Pod := MkPod {
  podNamespace : string;
  podName : string;
  podNodeName : string
}.

(** [Externals]: the functions, constants and types of this repository that
    the policy code calls and whose source is in other packages ([util],
    [types], [libovsdbops], the gress-policy compiler). They are taken as
    parameters. *)
Class Externals := {
  controllerName : string;
  hashedPortGroup : string → string;
  aclDirectionString : aclDirection → string;
  getACLMatch : string → string → aclDirection → string;
  aclDirectionToACLPipeline : aclDirection → string;
  lportIngress : string;
  lportEgressAfterLB : string;
  DefaultDenyPriority : Z;
  DefaultAllowPriority : Z;
  ClusterPortGroupName : string;
  V4OVNServiceHairpinMasqueradeIP : string;
  V6OVNServiceHairpinMasqueradeIP : string;
  parseACLPolicyKey : string → option (string * string);
  GetLogicalPortName : string → string → string;
  podExpectedInLogicalCache : Pod → bool;
  getACLPolicyKey : string → string → string;
  IPv4Mode : bool;
  IPv6Mode : bool;
  gressPolicy : Type;
  addNamespaceAddressSet : string → gressPolicy → gressPolicy * bool * option string;
  delNamespaceAddressSet : string → gressPolicy → gressPolicy * bool
}.

Definition ingressDefaultDenySuffix : string := "ingressDefaultDeny".
Definition egressDefaultDenySuffix : string := "egressDefaultDeny".
Definition arpAllowPolicyMatch : string := "(arp || nd)".
Definition allowHairpinningACLID : string := "allow-hairpinning".

Inductive netpolDefaultDenyACLType := defaultDenyACL | arpAllowACL.

Definition netpolDefaultDenyACLType_string (t : netpolDefaultDenyACLType) : string :=
  match t with defaultDenyACL => "defaultDeny" | arpAllowACL => "arpAllow" end.

Definition defaultDenyPortGroupName `{Externals} (namespace gressSuffix : string) : string :=
  hashedPortGroup namespace +:+ "_" +:+ gressSuffix.

Definition getNetworkPolicyPGName `{Externals} (namespace name : string) : string * string :=
  let readableGroupName := namespace +:+ "_" +:+ name in
  (hashedPortGroup readableGroupName, readableGroupName).

(** ** The northbound database *)

Inductive ObjectIDsType :=
  ACLNetworkPolicy | ACLNetpolNamespace | ACLNetpolNode | ACLNetpolDefault.

Inductive ExternalIDKey :=
  ObjectNameKey | PolicyDirectionKey | TypeKey | IpKey | GressIdxKey.

Global Instance ObjectIDsType_eq_dec : EqDecision ObjectIDsType.
Proof. solve_decision. Defined.

Global Instance ExternalIDKey_eq_dec : EqDecision ExternalIDKey.
Proof. solve_decision. Defined.

(** Modelled from the spec: the structured external identifiers of a database
    object ([libovsdbops.DbObjectIDs]): owner kind, owning controller and the
    key-value pairs given to [NewDbObjectIDs]. *)
Record DbObjectIDs := NewDbObjectIDs {
  idsType : ObjectIDsType;
  idsController : string;
  objectIDs : list (ExternalIDKey * string)
}.

(** [ExternalIDs[key]]: a Go map read, the empty string when [key] is unset. *)
Fixpoint getExternalID (ids : list (ExternalIDKey * string)) (key : ExternalIDKey) : string :=
  match ids with
  | [] => ""
  | (k, v) :: ids => if decide (k = key) then v else getExternalID ids key
  end.

Record ACLLoggingLevels := MkACLLoggingLevels {
  Allow : string;
  Deny : string
}.

Global Instance DbObjectIDs_eq_dec : EqDecision DbObjectIDs.
Proof. solve_decision. Defined.

Global Instance ACLLoggingLevels_eq_dec : EqDecision ACLLoggingLevels.
Proof. solve_decision. Defined.

(** Modelled from the spec: an ACL row as [BuildACL] fills it: external
    identifiers, priority, match, action, optional log levels, pipeline. *)
Record ACL := BuildACL {
  aclIDs : DbObjectIDs;
  aclPriority : Z;
  aclMatch : string;
  aclAction : string;
  aclLogging : option ACLLoggingLevels;
  aclPipeline : string
}.

Global Instance ACL_eq_dec : EqDecision ACL.
Proof. solve_decision. Defined.

Definition ACLActionDrop : string := "drop".
Definition ACLActionAllow : string := "allow".
Definition ACLActionAllowRelated : string := "allow-related".

(** Modelled from the spec: a port-group row, a named container of port UUIDs
    and ACLs ([libovsdbops.BuildPortGroup]). *)
Record PortGroup := BuildPortGroup {
  pgName : string;
  pgReadableName : string;
  pgPorts : gset string;
  pgACLs : list ACL
}.

(** Modelled from the spec: the deferred operations that the database client
    builds and [TransactAndCheck] submits as one atomic transaction. *)
Inductive Operation :=
  | OpCreateOrUpdateACLs (acls : list ACL)
  | OpCreateOrUpdatePortGroups (pgs : list PortGroup)
  | OpDeletePortGroups (names : list string)
  | OpAddPortsToPortGroup (name : string) (ports : list string)
  | OpDeletePortsFromPortGroup (name : string) (ports : list string)
  | OpAddACLsToPortGroup (name : string) (acls : list ACL)
  | OpDeleteACLsFromPortGroup (name : string) (acls : list ACL)
  | OpConfigDurationRecord (kind namespace name : string).

(** Modelled from the spec: the port-group table and the ACL table of the
    database. *)
Record NBDB := MkNBDB {
  nbPortGroups : gmap string PortGroup;
  nbACLs : list ACL
}.

Definition setPorts (f : gset string → gset string) (pg : PortGroup) : PortGroup :=
  {| pgName := pgName pg; pgReadableName := pgReadableName pg;
     pgPorts := f (pgPorts pg); pgACLs := pgACLs pg |}.

Definition setACLs (f : list ACL → list ACL) (pg : PortGroup) : PortGroup :=
  {| pgName := pgName pg; pgReadableName := pgReadableName pg;
     pgPorts := pgPorts pg; pgACLs := f (pgACLs pg) |}.

(** Modelled from the spec: create-or-update of an ACL row.  The external
    identifiers are the key of a row: the row that carries the identifiers of
    [acl] is replaced by [acl], and [acl] is a new row when there is none. *)
Fixpoint upsertACL (acl : ACL) (rows : list ACL) : list ACL :=
  match rows with
  | [] => [acl]
  | row :: rows =>
      if decide (aclIDs row = aclIDs acl) then acl :: rows
      else row :: upsertACL acl rows
  end.

(** A port group of [pgs] contains the ACL with the identifiers [ids]. *)
Definition aclBound (pgs : gmap string PortGroup) (ids : DbObjectIDs) : Prop :=
  map_Exists (λ _ pg, ids ∈ aclIDs <$> pgACLs pg) pgs.

(** Modelled from the spec: the ACL rows that are left when the port groups
    [pgs] become [pgs']: an ACL is garbage-collected with its containing port
    group, that is when a port group contained it and none does any more. *)
Definition collectACLs (pgs pgs' : gmap string PortGroup) (rows : list ACL) : list ACL :=
  filter (λ row, aclBound pgs (aclIDs row) → aclBound pgs' (aclIDs row)) rows.

(** Modelled from the spec: the effect of one operation on the database.
    Create-or-update writes the row as given, an ACL row under its external
    identifiers and a port-group row under its name; deleting port groups
    collects their ACLs; the port and ACL mutations change the named row when
    it exists, and a mutation that matches no row changes nothing (the client
    looks the row up when it builds the operation: a row it misses there is
    a failure of the builder, [buildOps]). *)
Definition applyOp (nb : NBDB) (op : Operation) : NBDB :=
  match op with
  | OpCreateOrUpdateACLs acls =>
      {| nbPortGroups := nbPortGroups nb;
         nbACLs := foldl (λ rows acl, upsertACL acl rows) (nbACLs nb) acls |}
  | OpCreateOrUpdatePortGroups pgs =>
      {| nbPortGroups := foldl (λ t pg, <[pgName pg := pg]> t) (nbPortGroups nb) pgs;
         nbACLs := nbACLs nb |}
  | OpDeletePortGroups names =>
      let pgs' := foldl (λ t n, delete n t) (nbPortGroups nb) names in
      {| nbPortGroups := pgs';
         nbACLs := collectACLs (nbPortGroups nb) pgs' (nbACLs nb) |}
  | OpAddPortsToPortGroup name ports =>
      {| nbPortGroups := alter (setPorts (λ s, s ∪ list_to_set ports)) name (nbPortGroups nb);
         nbACLs := nbACLs nb |}
  | OpDeletePortsFromPortGroup name ports =>
      {| nbPortGroups := alter (setPorts (λ s, s ∖ list_to_set ports)) name (nbPortGroups nb);
         nbACLs := nbACLs nb |}
  | OpAddACLsToPortGroup name acls =>
      {| nbPortGroups := alter (setACLs (λ l, l ++ acls)) name (nbPortGroups nb);
         nbACLs := nbACLs nb |}
  | OpDeleteACLsFromPortGroup name acls =>
      {| nbPortGroups := alter (setACLs (λ l, list_difference l acls)) name (nbPortGroups nb);
         nbACLs := nbACLs nb |}
  | OpConfigDurationRecord _ _ _ => nb
  end.

(** The members of a port group, none when the group does not exist. *)
Definition portGroupPorts (nb : NBDB) (name : string) : gset string :=
  from_option pgPorts ∅ (nbPortGroups nb !! name).

(** ** The controller state and what a run does *)

(** What a run does to the outside and to the shared store, in order: the key
    lock of the shared default-deny store, writes to the reference maps of a
    namespace (by the forward call or by the deferred inverse call), and the
    calls to the database client. *)
Inductive Event :=
  | EvLockKey (pgKey : string)
  | EvUnlockKey (pgKey : string)
  | EvCounters (pgKey : string) (inverse : bool)
  | EvTransact (ops : list Operation) (ok : bool)
  | EvFindACLs (t : ObjectIDsType) (ok : bool)
  | EvDeletePortGroups (names : list string) (ok : bool)
  | EvGetPortGroup (name : string)
  | EvDeleteAddressSet (asKey owner : string) (ok : bool)
  | EvRemoveHandler (h : nat)
  | EvUpdateACLLogging (ids : DbObjectIDs) (ok : bool)
  | EvPolicyLock (npKey : string) (write : bool)
  | EvPolicyUnlock (npKey : string) (write : bool).

Record World := MkWorld {
  sharedNetpolPortGroups : gmap string defaultDenyPortGroups;
  networkPolicies : gmap string networkPolicy;
  nbClient : NBDB;
  trace : list Event
}.

(** Go's [error], [None] for [nil]. *)
Definition error := option string.

Definition emit (e : Event) (w : World) : World :=
  {| sharedNetpolPortGroups := sharedNetpolPortGroups w;
     networkPolicies := networkPolicies w;
     nbClient := nbClient w; trace := trace w ++ [e] |}.

Definition LockKey (pgKey : string) : World → World := emit (EvLockKey pgKey).
Definition UnlockKey (pgKey : string) : World → World := emit (EvUnlockKey pgKey).

Definition setShared (f : gmap string defaultDenyPortGroups → gmap string defaultDenyPortGroups)
    (w : World) : World :=
  {| sharedNetpolPortGroups := f (sharedNetpolPortGroups w);
     networkPolicies := networkPolicies w;
     nbClient := nbClient w; trace := trace w |}.

Definition setNB (nb : NBDB) (w : World) : World :=
  {| sharedNetpolPortGroups := sharedNetpolPortGroups w;
     networkPolicies := networkPolicies w;
     nbClient := nb; trace := trace w |}.

Definition setNetworkPolicies (f : gmap string networkPolicy → gmap string networkPolicy)
    (w : World) : World :=
  {| sharedNetpolPortGroups := sharedNetpolPortGroups w;
     networkPolicies := f (networkPolicies w);
     nbClient := nbClient w; trace := trace w |}.

(** A write to the reference maps of the record of [pgKey]. *)
Definition writeCounters (pgKey : string) (inverse : bool)
    (sharedPGs : defaultDenyPortGroups) (w : World) : World :=
  emit (EvCounters pgKey inverse) (setShared <[pgKey := sharedPGs]> w).

(** Modelled from the spec: [TransactAndCheck] is atomic: all operations are
    applied, or on failure ([fails]) none. *)
Definition TransactAndCheck (fails : bool) (ops : list Operation) (w : World) : error * World :=
  if fails
  then (Some "transaction failed", emit (EvTransact ops false) w)
  else (None, emit (EvTransact ops true) (setNB (foldl applyOp (nbClient w) ops) w)).

(** Modelled from the spec: an operation builder of the database client: it
    appends its operation to the pending ones, or fails. *)
Definition buildOps (fails : bool) (ops : list Operation) (op : Operation)
    : string + list Operation :=
  if fails then inl "cannot build operations" else inr (ops ++ [op]).

(** Which of the calls to the database client made by one run fail: the
    [n]-th operation builder of the run ([opsFail n], counted from 0 in the
    order of the source text) and the transaction. *)
Record Faults := MkFaults {
  opsFail : nat → bool;
  transactFails : bool
}.

Definition noFaults : Faults := {| opsFail := λ _, false; transactFails := false |}.

(** [fmt.Errorf(msg + ": %v", err)] *)
Definition wrapErr (msg err : string) : string := msg +:+ ": " +:+ err.

(** ** Default-deny port groups: join and leave *)

Definition getDefaultDenyPolicyACLIDs `{Externals} (ns : string) (aclDir : aclDirection)
    (defaultACLType : netpolDefaultDenyACLType) : DbObjectIDs :=
  NewDbObjectIDs ACLNetpolNamespace controllerName
    [(ObjectNameKey, ns);
     (PolicyDirectionKey, aclDirectionString aclDir);
     (TypeKey, netpolDefaultDenyACLType_string defaultACLType)].

Definition buildDenyACLs `{Externals} (namespace pg : string) (aclLogging : ACLLoggingLevels)
    (aclDir : aclDirection) : ACL * ACL :=
  let denyMatch := getACLMatch pg "" aclDir in
  let allowMatch := getACLMatch pg arpAllowPolicyMatch aclDir in
  let aclPipeline := aclDirectionToACLPipeline aclDir in
  let denyACL := BuildACL (getDefaultDenyPolicyACLIDs namespace aclDir defaultDenyACL)
    DefaultDenyPriority denyMatch ACLActionDrop (Some aclLogging) aclPipeline in
  let allowACL := BuildACL (getDefaultDenyPolicyACLIDs namespace aclDir arpAllowACL)
    DefaultAllowPriority allowMatch ACLActionAllow None aclPipeline in
  (denyACL, allowACL).

(** [AddConfigDurationRecord]: the record operations, none when it fails (the
    error is only logged). *)
Definition AddConfigDurationRecord (fails : bool) (kind namespace name : string)
    : list Operation :=
  if fails then [] else [OpConfigDurationRecord kind namespace name].

Definition createDefaultDenyPGAndACLs `{Externals} (namespace policy : string)
    (aclLogging : ACLLoggingLevels) (f : Faults) (w : World) : error * World :=
  let ingressPGName := defaultDenyPortGroupName namespace ingressDefaultDenySuffix in
  let '(ingressDenyACL, ingressAllowACL) :=
    buildDenyACLs namespace ingressPGName aclLogging aclIngress in
  let egressPGName := defaultDenyPortGroupName namespace egressDefaultDenySuffix in
  let '(egressDenyACL, egressAllowACL) :=
    buildDenyACLs namespace egressPGName aclLogging aclEgress in
  match buildOps (opsFail f 0) []
          (OpCreateOrUpdateACLs [ingressDenyACL; ingressAllowACL; egressDenyACL; egressAllowACL]) with
  | inl err => (Some err, w)
  | inr ops =>
    let ingressPG := BuildPortGroup ingressPGName ingressPGName ∅ [ingressDenyACL; ingressAllowACL] in
    let egressPG := BuildPortGroup egressPGName egressPGName ∅ [egressDenyACL; egressAllowACL] in
    match buildOps (opsFail f 1) ops (OpCreateOrUpdatePortGroups [ingressPG; egressPG]) with
    | inl err => (Some err, w)
    | inr ops =>
      let recordOps := AddConfigDurationRecord (opsFail f 2) "networkpolicy" namespace policy in
      let ops := ops ++ recordOps in
      TransactAndCheck (transactFails f) ops w
    end
  end.

Definition deleteDefaultDenyPGAndACLs `{Externals} (namespace : string)
    (f : Faults) (w : World) : error * World :=
  let ingressPGName := defaultDenyPortGroupName namespace ingressDefaultDenySuffix in
  let egressPGName := defaultDenyPortGroupName namespace egressDefaultDenySuffix in
  match buildOps (opsFail f 0) [] (OpDeletePortGroups [ingressPGName; egressPGName]) with
  | inl err => (Some err, w)
  | inr ops =>
    match TransactAndCheck (transactFails f) ops w with
    | (Some err, w) => (Some (wrapErr "failed to transact deleteDefaultDenyPGAndACLs" err), w)
    | (None, w) => (None, w)
    end
  end.

Definition setPolicies (f : gmap string bool → gmap string bool)
    (sharedPGs : defaultDenyPortGroups) : defaultDenyPortGroups :=
  {| ingressPortToPolicies := ingressPortToPolicies sharedPGs;
     egressPortToPolicies := egressPortToPolicies sharedPGs;
     policies := f (policies sharedPGs) |}.

(** Join.  [DoWithLock] takes the namespace key for the whole body;
    [LoadOrStore] stores the fresh record when the key has none. *)
Definition addPolicyToDefaultPortGroups `{Externals} (np : networkPolicy)
    (aclLogging : ACLLoggingLevels) (f : Faults) (w : World) : error * World :=
  let pgKey := namespace np in
  let w := LockKey pgKey w in
  let loaded := bool_decide (is_Some (sharedNetpolPortGroups w !! pgKey)) in
  let w := if loaded then w else setShared <[pgKey := newDefaultDenyPortGroups]> w in
  let '(err, w) :=
    if loaded then (None, w)
    else createDefaultDenyPGAndACLs (namespace np) (name np) aclLogging f w in
  match err with
  | Some err =>
      (Some (wrapErr "failed to create default deny port groups" err),
       UnlockKey pgKey (setShared (delete pgKey) w))
  | None =>
      (None, UnlockKey pgKey
               (setShared (alter (setPolicies <[getKey np := true]>) pgKey) w))
  end.

(** Leave. *)
Definition delPolicyFromDefaultPortGroups `{Externals} (np : networkPolicy)
    (f : Faults) (w : World) : error * World :=
  let pgKey := namespace np in
  let w := LockKey pgKey w in
  match sharedNetpolPortGroups w !! pgKey with
  | None => (None, UnlockKey pgKey w)
  | Some sharedPGs =>
    let sharedPGs := setPolicies (delete (getKey np)) sharedPGs in
    let w := setShared <[pgKey := sharedPGs]> w in
    if decide (size (policies sharedPGs) = 0)
    then
      match deleteDefaultDenyPGAndACLs (namespace np) f w with
      | (Some err, w) =>
          (Some (wrapErr "failed to delete defaul deny port group" err), UnlockKey pgKey w)
      | (None, w) => (None, UnlockKey pgKey (setShared (delete pgKey) w))
      end
    else (None, UnlockKey pgKey w)
  end.

(** ** Ports in the default-deny port groups *)

(** The two deferred calls of [denyPGAddPorts], in the order Go runs them:
    the inverse call when [err] is set, then the unlock unless the key was
    released early. *)
Definition denyPGAddPorts_deferred (np : networkPolicy)
    (portNamesToUUIDs : gmap string string) (sharedPGs : defaultDenyPortGroups)
    (pgLocked : bool) (err : error) (w : World) : World :=
  let pgKey := namespace np in
  let w := match err with
           | Some _ => writeCounters pgKey true
                         (deletePortsForPolicy np portNamesToUUIDs sharedPGs).1.1 w
           | None => w
           end in
  if pgLocked then UnlockKey pgKey w else w.

Definition denyPGAddPorts `{Externals} (np : networkPolicy)
    (portNamesToUUIDs : gmap string string) (ops : list Operation)
    (f : Faults) (w : World) : error * World :=
  let ingressDenyPGName := defaultDenyPortGroupName (namespace np) ingressDefaultDenySuffix in
  let egressDenyPGName := defaultDenyPortGroupName (namespace np) egressDefaultDenySuffix in
  let pgKey := namespace np in
  let w := LockKey pgKey w in
  match sharedNetpolPortGroups w !! pgKey with
  | None => (Some "port groups for ns don't exist", UnlockKey pgKey w)
  | Some sharedPGs =>
    let '(sharedPGs, ingressDenyPorts, egressDenyPorts) :=
      addPortsForPolicy np portNamesToUUIDs sharedPGs in
    let w := writeCounters pgKey false sharedPGs w in
    let deferred := denyPGAddPorts_deferred np portNamesToUUIDs sharedPGs in
    if bool_decide (length ingressDenyPorts ≠ 0 ∨ length egressDenyPorts ≠ 0)
    then
      match buildOps (opsFail f 0) ops (OpAddPortsToPortGroup ingressDenyPGName ingressDenyPorts) with
      | inl err => (Some (wrapErr "unable to get add ports to port group ops" err),
                    deferred true (Some err) w)
      | inr ops =>
        match buildOps (opsFail f 1) ops (OpAddPortsToPortGroup egressDenyPGName egressDenyPorts) with
        | inl err => (Some (wrapErr "unable to get add ports to port group ops" err),
                      deferred true (Some err) w)
        | inr ops =>
          match TransactAndCheck (transactFails f) ops w with
          | (Some err, w) =>
              (Some (wrapErr "unable to transact add ports to default deny port groups" err),
               deferred true (Some err) w)
          | (None, w) => (None, deferred true None w)
          end
        end
      end
    else
      let w := UnlockKey pgKey w in
      match TransactAndCheck (transactFails f) ops w with
      | (Some err, w) =>
          (Some (wrapErr "unable to transact add ports to default deny port groups" err),
           deferred false (Some err) w)
      | (None, w) => (None, deferred false None w)
      end
  end.

Definition denyPGDeletePorts_deferred (np : networkPolicy)
    (portNamesToUUIDs : gmap string string) (sharedPGs : defaultDenyPortGroups)
    (pgLocked : bool) (err : error) (w : World) : World :=
  let pgKey := namespace np in
  let w := match err with
           | Some _ => writeCounters pgKey true
                         (addPortsForPolicy np portNamesToUUIDs sharedPGs).1.1 w
           | None => w
           end in
  if pgLocked then UnlockKey pgKey w else w.

Definition denyPGDeletePorts `{Externals} (np : networkPolicy)
    (portNamesToUUIDs : gmap string string) (useLocalPods : bool)
    (ops : list Operation) (f : Faults) (w : World) : error * World :=
  let portNamesToUUIDs := if useLocalPods then localPods np else portNamesToUUIDs in
  let transact (w : World) (deferred : error → World → World) : error * World :=
    match TransactAndCheck (transactFails f) ops w with
    | (Some err, w) =>
        (Some (wrapErr "unable to transact del ports from default deny port groups" err),
         deferred (Some err) w)
    | (None, w) => (None, deferred None w)
    end in
  if decide (size portNamesToUUIDs ≠ 0)
  then
    let ingressDenyPGName := defaultDenyPortGroupName (namespace np) ingressDefaultDenySuffix in
    let egressDenyPGName := defaultDenyPortGroupName (namespace np) egressDefaultDenySuffix in
    let pgKey := namespace np in
    let w := LockKey pgKey w in
    match sharedNetpolPortGroups w !! pgKey with
    | None => transact w (λ _ w, UnlockKey pgKey w)
    | Some sharedPGs =>
      let '(sharedPGs, ingressDenyPorts, egressDenyPorts) :=
        deletePortsForPolicy np portNamesToUUIDs sharedPGs in
      let w := writeCounters pgKey false sharedPGs w in
      let deferred := denyPGDeletePorts_deferred np portNamesToUUIDs sharedPGs in
      if bool_decide (length ingressDenyPorts ≠ 0 ∨ length egressDenyPorts ≠ 0)
      then
        match buildOps (opsFail f 0) ops
                (OpDeletePortsFromPortGroup ingressDenyPGName ingressDenyPorts) with
        | inl err => (Some (wrapErr "unable to get del ports from port group ops" err),
                      deferred true (Some err) w)
        | inr ops =>
          match buildOps (opsFail f 1) ops
                  (OpDeletePortsFromPortGroup egressDenyPGName egressDenyPorts) with
          | inl err => (Some (wrapErr "unable to get del ports from port group ops" err),
                        deferred true (Some err) w)
          | inr ops =>
            match TransactAndCheck (transactFails f) ops w with
            | (Some err, w) =>
                (Some (wrapErr "unable to transact del ports from default deny port groups" err),
                 deferred true (Some err) w)
            | (None, w) => (None, deferred true None w)
            end
          end
        end
      else
        let w := UnlockKey pgKey w in
        transact w (deferred false)
    end
  else transact w (λ _ w, w).

(** What the callers of the two functions guarantee about the ports they
    pass.  [freshFor]: no port of the map holds the key of the policy, in the
    directions the policy has.  [heldBy]: every port of the map holds it. *)
Definition freshFor (np : networkPolicy) (portNamesToUUIDs : gmap string string)
    (sharedPGs : defaultDenyPortGroups) : Prop :=
  ∀ portName, portName ∈ dom portNamesToUUIDs →
    (isIngress np = true → getKey np ∉ refs (ingressPortToPolicies sharedPGs) portName) ∧
    (isEgress np = true → getKey np ∉ refs (egressPortToPolicies sharedPGs) portName).

Definition heldBy (np : networkPolicy) (portNamesToUUIDs : gmap string string)
    (sharedPGs : defaultDenyPortGroups) : Prop :=
  ∀ portName, portName ∈ dom portNamesToUUIDs →
    (isIngress np = true → getKey np ∈ refs (ingressPortToPolicies sharedPGs) portName) ∧
    (isEgress np = true → getKey np ∈ refs (egressPortToPolicies sharedPGs) portName).

(** Whether a run of [denyPGAddPorts] or [denyPGDeletePorts] that found the
    record fails: with ports to move ([dbChange]), on any of its three calls
    to the database client; without, on the transaction. *)
Definition runFails (dbChange : bool) (f : Faults) : bool :=
  if dbChange then opsFail f 0 || opsFail f 1 || transactFails f else transactFails f.

(** ** Event handlers of a policy *)

(** The handlers take the read lock of the policy for their whole run.  The
    duration metric that a handler records when scale metrics are enabled is
    not part of the model. *)

(** Modelled from the spec: what the logical-port cache returns for a pod:
    port name, port UUID and the pending-deletion time ([None] for the zero
    time, that is, not scheduled for deletion). *)
Record lpInfo := MkLpInfo {
  lpName : string;
  lpUUID : string;
  lpExpires : option Z
}.

Definition setLocalPods (g : gmap string string → gmap string string)
    (np : networkPolicy) : networkPolicy :=
  {| name := name np; namespace := namespace np; isIngress := isIngress np;
     isEgress := isEgress np; peerAddressSets := peerAddressSets np;
     localPods := g (localPods np); portGroupName := portGroupName np;
     localPodHandler := localPodHandler np; nsHandlerList := nsHandlerList np;
     deleted := deleted np |}.

Definition setPeerAddressSets (l : list string) (np : networkPolicy) : networkPolicy :=
  {| name := name np; namespace := namespace np; isIngress := isIngress np;
     isEgress := isEgress np; peerAddressSets := l;
     localPods := localPods np; portGroupName := portGroupName np;
     localPodHandler := localPodHandler np; nsHandlerList := nsHandlerList np;
     deleted := deleted np |}.

Definition setDeleted (b : bool) (np : networkPolicy) : networkPolicy :=
  {| name := name np; namespace := namespace np; isIngress := isIngress np;
     isEgress := isEgress np; peerAddressSets := peerAddressSets np;
     localPods := localPods np; portGroupName := portGroupName np;
     localPodHandler := localPodHandler np; nsHandlerList := nsHandlerList np;
     deleted := b |}.

Definition clearHandlers (np : networkPolicy) : networkPolicy :=
  {| name := name np; namespace := namespace np; isIngress := isIngress np;
     isEgress := isEgress np; peerAddressSets := peerAddressSets np;
     localPods := localPods np; portGroupName := portGroupName np;
     localPodHandler := None; nsHandlerList := [];
     deleted := deleted np |}.

(** The body of the loop of [getNewLocalPolicyPorts] for one pod;
    [logicalPortCache] is [oc.logicalPortCache.get] on the default network,
    [None] for its error. *)
Definition newLocalPolicyPort `{Externals} (logicalPortCache : Pod → option lpInfo)
    (np : networkPolicy) (acc : gmap string string * list string * list Pod) (pod : Pod)
    : gmap string string * list string * list Pod :=
  let '(policyPortsToUUIDs, policyPortUUIDs, errObjs) := acc in
  let logicalPortName := GetLogicalPortName (podNamespace pod) (podName pod) in
  if bool_decide (is_Some (localPods np !! logicalPortName)) then acc
  else if bool_decide (podNodeName pod = "") then acc
  else if negb (podExpectedInLogicalCache pod) then acc
  else
    match logicalPortCache pod with
    | None => (policyPortsToUUIDs, policyPortUUIDs, errObjs ++ [pod])
    | Some portInfo =>
        if bool_decide (is_Some (lpExpires portInfo))
        then (policyPortsToUUIDs, policyPortUUIDs, errObjs ++ [pod])
        else (<[lpName portInfo := lpUUID portInfo]> policyPortsToUUIDs,
              policyPortUUIDs ++ [lpUUID portInfo], errObjs)
    end.

(** [getNewLocalPolicyPorts]: the ports of the given pods that are not in
    [np.localPods] yet. *)
Definition getNewLocalPolicyPorts `{Externals} (logicalPortCache : Pod → option lpInfo)
    (np : networkPolicy) (objs : list Pod) : gmap string string * list string * list Pod :=
  foldl (newLocalPolicyPort logicalPortCache np) (∅, [], []) objs.

(** A pod that [getNewLocalPolicyPorts] passes over: its port is in
    [np.localPods] already, it is not scheduled, or it is never expected in
    the logical-port cache. *)
Definition passedOver `{Externals} (np : networkPolicy) (pod : Pod) : bool :=
  bool_decide (is_Some (localPods np !! GetLogicalPortName (podNamespace pod) (podName pod)))
  || bool_decide (podNodeName pod = "")
  || negb (podExpectedInLogicalCache pod).

(** The port of a pod whose cache entry exists and is not pending deletion. *)
Definition freshPort (logicalPortCache : Pod → option lpInfo) (pod : Pod)
    : option (string * string) :=
  match logicalPortCache pod with
  | Some portInfo =>
      match lpExpires portInfo with
      | Some _ => None
      | None => Some (lpName portInfo, lpUUID portInfo)
      end
  | None => None
  end.

(** [getExistingLocalPolicyPorts]: the ports of the given pods that are in
    [np.localPods]; its [errObjs] stay empty. *)
Definition getExistingLocalPolicyPorts `{Externals} (np : networkPolicy) (objs : list Pod)
    : gmap string string * list string * list Pod :=
  foldl (λ acc pod,
    let '(policyPortsToUUIDs, policyPortUUIDs, errObjs) := acc in
    let logicalPortName := GetLogicalPortName (podNamespace pod) (podName pod) in
    match localPods np !! logicalPortName with
    | None => acc
    | Some portUUID =>
        (<[logicalPortName := portUUID]> policyPortsToUUIDs,
         policyPortUUIDs ++ [portUUID], errObjs)
    end) (∅, [], []) objs.

(** [PortGroupHasPorts]: the port group exists and contains all given ports. *)
Definition PortGroupHasPorts (pgName : string) (portUUIDs : list string) (w : World)
    : bool * World :=
  (match nbPortGroups (nbClient w) !! pgName with
   | None => false
   | Some pg => bool_decide (list_to_set portUUIDs ⊆ pgPorts pg)
   end, emit (EvGetPortGroup pgName) w).

(** [kerrorsutil.NewAggregate]: [nil] for no errors. *)
Definition NewAggregate (errs : list string) : error :=
  match errs with
  | [] => None
  | _ => Some (foldr (λ e acc, e +:+ "; " +:+ acc) "" errs)
  end.

Definition podError (pod : Pod) : string :=
  "unable to get port info for pod " +:+ podNamespace pod +:+ "/" +:+ podName pod.

(** The faults of a local-pod handler: the operation builder for the port
    group of the policy, and those of the default-deny call. *)
Record HandlerFaults := MkHandlerFaults {
  policyOpsFail : bool;
  denyFaults : Faults
}.

Definition RLock (np : networkPolicy) : World → World := emit (EvPolicyLock (getKey np) false).
Definition RUnlock (np : networkPolicy) : World → World := emit (EvPolicyUnlock (getKey np) false).

Definition handleLocalPodSelectorAddFunc `{Externals} (logicalPortCache : Pod → option lpInfo)
    (np : networkPolicy) (objs : list Pod) (f : HandlerFaults) (w : World)
    : error * networkPolicy * World :=
  let w := RLock np w in
  if deleted np then (None, np, RUnlock np w)
  else
    let '(portNamesToUUIDs, policyPortUUIDs, errPods) :=
      getNewLocalPolicyPorts logicalPortCache np objs in
    let '(err, np, w) :=
      if decide (0 < size portNamesToUUIDs)
      then
        let '(hasPorts, w) := PortGroupHasPorts (portGroupName np) policyPortUUIDs w in
        match (if hasPorts then (inr [] : string + list Operation)
               else buildOps (policyOpsFail f) []
                      (OpAddPortsToPortGroup (portGroupName np) policyPortUUIDs)) with
        | inl err =>
            (Some (wrapErr "unable to get ops to add new pod to policy port group" err), np, w)
        | inr ops =>
            match denyPGAddPorts np portNamesToUUIDs ops (denyFaults f) w with
            | (Some err, w) =>
                (Some (wrapErr "unable to add new pod to default deny port group" err), np, w)
            | (None, w) => (None, setLocalPods (λ pods, portNamesToUUIDs ∪ pods) np, w)
            end
        end
      else (None, np, w) in
    match err with
    | Some err => (Some err, np, RUnlock np w)
    | None => (NewAggregate (podError <$> errPods), np, RUnlock np w)
    end.

Definition handleLocalPodSelectorDelFunc `{Externals}
    (np : networkPolicy) (objs : list Pod) (f : HandlerFaults) (w : World)
    : error * networkPolicy * World :=
  let w := RLock np w in
  if deleted np then (None, np, RUnlock np w)
  else
    let '(portNamesToUUIDs, policyPortUUIDs, errPods) :=
      getExistingLocalPolicyPorts np objs in
    let '(err, np, w) :=
      if decide (0 < size portNamesToUUIDs)
      then
        match buildOps (policyOpsFail f) []
                (OpDeletePortsFromPortGroup (portGroupName np) policyPortUUIDs) with
        | inl err =>
            (Some (wrapErr "unable to get ops to add new pod to policy port group" err), np, w)
        | inr ops =>
            match denyPGDeletePorts np portNamesToUUIDs false ops (denyFaults f) w with
            | (Some err, w) =>
                (Some (wrapErr "unable to add new pod to default deny port group" err), np, w)
            | (None, w) => (None, setLocalPods (λ pods, pods ∖ portNamesToUUIDs) np, w)
            end
        end
      else (None, np, w) in
    match err with
    | Some err => (Some err, np, RUnlock np w)
    | None =>
        match errPods with
        | [] => (None, np, RUnlock np w)
        | pod :: _ => (Some (podError pod), np, RUnlock np w)
        end
    end.

(** [updateACLLoggingForPolicy]; [updateLogging] is
    [UpdateACLLoggingWithPredicate] on the rows of the database, which this
    repository defines in another package. *)
Definition updateACLLoggingForPolicy `{Externals} (updateLogging : DbObjectIDs → ACLLoggingLevels → NBDB → NBDB)
    (np : networkPolicy) (aclLogging : ACLLoggingLevels) (fails : bool) (w : World)
    : error * World :=
  let w := RLock np w in
  if deleted np then (None, RUnlock np w)
  else
    let predicateIDs := NewDbObjectIDs ACLNetworkPolicy controllerName
      [(ObjectNameKey, getACLPolicyKey (namespace np) (name np))] in
    if fails
    then (Some "cannot update ACL logging",
          RUnlock np (emit (EvUpdateACLLogging predicateIDs false) w))
    else (None,
          RUnlock np (emit (EvUpdateACLLogging predicateIDs true)
                        (setNB (updateLogging predicateIDs aclLogging (nbClient w)) w))).

(** [peerNamespaceUpdate]; [nsInfo] is what [getNamespaceLocked] returns for
    the namespace of the policy ([None] for nil), [buildLocalPodACLs] the
    method of the gress policy.  Operation builders 0, 1 and 3 and the search
    2 of [f] are the calls in the order of the source. *)
Definition peerNamespaceUpdate `{Externals}
    (buildLocalPodACLs : gressPolicy → string → ACLLoggingLevels → list ACL * list ACL)
    (np : networkPolicy) (gp : gressPolicy) (nsInfo : option ACLLoggingLevels)
    (f : Faults) (w : World) : error * World :=
  let aclLogging := default (MkACLLoggingLevels "" "") nsInfo in
  let w := RLock np w in
  if deleted np then (None, RUnlock np w)
  else
    let '(acls, deletedACLs) := buildLocalPodACLs gp (portGroupName np) aclLogging in
    match buildOps (opsFail f 0) [] (OpCreateOrUpdateACLs acls) with
    | inl err => (Some err, RUnlock np w)
    | inr ops =>
      match buildOps (opsFail f 1) ops (OpAddACLsToPortGroup (portGroupName np) acls) with
      | inl err => (Some err, RUnlock np w)
      | inr ops =>
        let transact ops w :=
          let '(err, w) := TransactAndCheck (transactFails f) ops w in (err, RUnlock np w) in
        if decide (0 < length deletedACLs)
        then
          if opsFail f 2
          then (Some "failed to find deleted acls", RUnlock np (emit (EvFindACLs ACLNetworkPolicy false) w))
          else
            let w := emit (EvFindACLs ACLNetworkPolicy true) w in
            match buildOps (opsFail f 3) ops
                    (OpDeleteACLsFromPortGroup (portGroupName np) deletedACLs) with
            | inl err => (Some err, RUnlock np w)
            | inr ops => transact ops w
            end
        else transact ops w
      end
    end.

Definition handlePeerNamespaceSelectorAdd `{Externals}
    (buildLocalPodACLs : gressPolicy → string → ACLLoggingLevels → list ACL * list ACL)
    (np : networkPolicy) (gp : gressPolicy) (objs : list string)
    (nsInfo : option ACLLoggingLevels) (f : Faults) (w : World)
    : error * gressPolicy * World :=
  let w := RLock np w in
  if deleted np then (None, gp, RUnlock np w)
  else
    let '(gp, updated, errors) :=
      foldl (λ acc namespace,
        let '(gp, updated, errors) := acc in
        match addNamespaceAddressSet namespace gp with
        | (gp, _, Some err) => (gp, updated, errors ++ [err])
        | (gp, nsUpdated, None) => (gp, updated || nsUpdated, errors)
        end) (gp, false, []) objs in
    let w := RUnlock np w in
    if updated
    then
      match peerNamespaceUpdate buildLocalPodACLs np gp nsInfo f w with
      | (Some err, w) => (NewAggregate (errors ++ [err]), gp, w)
      | (None, w) => (NewAggregate errors, gp, w)
      end
    else (NewAggregate errors, gp, w).

Definition handlePeerNamespaceSelectorDel `{Externals}
    (buildLocalPodACLs : gressPolicy → string → ACLLoggingLevels → list ACL * list ACL)
    (np : networkPolicy) (gp : gressPolicy) (objs : list string)
    (nsInfo : option ACLLoggingLevels) (f : Faults) (w : World)
    : error * gressPolicy * World :=
  let w := RLock np w in
  if deleted np then (None, gp, RUnlock np w)
  else
    let '(gp, updated) :=
      foldl (λ acc namespace,
        let '(gp, updated) := acc in
        let '(gp, nsUpdated) := delNamespaceAddressSet namespace gp in
        (gp, updated || nsUpdated)) (gp, false) objs in
    let w := RUnlock np w in
    if updated
    then
      let '(err, w) := peerNamespaceUpdate buildLocalPodACLs np gp nsInfo f w in
      (err, gp, w)
    else (None, gp, w).

(** ** Cleanup of a policy *)

Definition shutdownHandlers (np : networkPolicy) (w : World) : networkPolicy * World :=
  let w := match localPodHandler np with
           | Some handler => emit (EvRemoveHandler handler) w
           | None => w
           end in
  let w := foldl (λ w handler, emit (EvRemoveHandler handler) w) w (nsHandlerList np) in
  (clearHandlers np, w).

(** The loop of [cleanupNetworkPolicy] over [np.peerAddressSets], at index [i]
    with the keys from [i] on: [DeletePodSelectorAddressSet] is called key by
    key; the result is the index at which it failed, if it did.  Whether the
    release of the key at an index fails is given by [fails]. *)
Fixpoint releaseAddressSets (owner : string) (fails : nat → bool) (i : nat)
    (asKeys : list string) (w : World) : option nat * World :=
  match asKeys with
  | [] => (None, w)
  | asKey :: asKeys =>
      if fails i
      then (Some i, emit (EvDeleteAddressSet asKey owner false) w)
      else releaseAddressSets owner fails (S i) asKeys
             (emit (EvDeleteAddressSet asKey owner true) w)
  end.

Record CleanupFaults := MkCleanupFaults {
  releaseFails : nat → bool;
  deletePGOpsFail : bool;
  configDurationFails : bool;
  cleanupDenyFaults : Faults;
  leaveFaults : Faults
}.

(** The way out of [cleanupNetworkPolicy] on an error.  [np] is the object
    that the registry holds under its key, so the registry shows the fields
    as cleanup left them. *)
Definition cleanupReturn (err : string) (np : networkPolicy) (w : World)
    : error * networkPolicy * World :=
  (Some err, np,
   emit (EvPolicyUnlock (getKey np) true)
     (setNetworkPolicies (alter (λ _, np) (getKey np)) w)).

Definition cleanupNetworkPolicy `{Externals} (np : networkPolicy) (f : CleanupFaults)
    (w : World) : error * networkPolicy * World :=
  let npKey := getKey np in
  let w := emit (EvPolicyLock npKey true) w in
  let np := setDeleted true np in
  let '(np, w) := shutdownHandlers np w in
  match releaseAddressSets (getKeyWithKind np) (releaseFails f) 0 (peerAddressSets np) w with
  | (Some i, w) =>
      cleanupReturn "failed to delete network policy from peer address set"
        (setPeerAddressSets (drop i (peerAddressSets np)) np) w
  | (None, w) =>
    let np := setPeerAddressSets [] np in
    match buildOps (deletePGOpsFail f) [] (OpDeletePortGroups [portGroupName np]) with
    | inl err =>
        cleanupReturn (wrapErr "failed to get delete network policy port group ops" err) np w
    | inr ops =>
      let recordOps :=
        AddConfigDurationRecord (configDurationFails f) "networkpolicy" (namespace np) (name np) in
      let ops := ops ++ recordOps in
      match denyPGDeletePorts np ∅ true ops (cleanupDenyFaults f) w with
      | (Some err, w) =>
          cleanupReturn (wrapErr "unable to delete ports from defaultDeny port group" err) np w
      | (None, w) =>
        let np := setLocalPods (λ _, ∅) np in
        match delPolicyFromDefaultPortGroups np (leaveFaults f) w with
        | (Some err, w) =>
            cleanupReturn
              (wrapErr "unable to delete policy from default deny port groups" err) np w
        | (None, w) =>
            (None, np,
             emit (EvPolicyUnlock npKey true) (setNetworkPolicies (delete npKey) w))
        end
      end
    end
  end.

(** The first index from [i], among [n], at which a release fails. *)
Fixpoint firstFailure (fails : nat → bool) (i n : nat) : option nat :=
  match n with
  | 0 => None
  | S n => if fails i then Some i else firstFailure fails (S i) n
  end.

(** The releases of address sets in a run, in order: key and success. *)
Definition releases (t : list Event) : list (string * bool) :=
  omap (λ e, match e with
             | EvDeleteAddressSet asKey _ ok => Some (asKey, ok)
             | _ => None
             end) t.

(** [released w w' rs]: the run from [w] to [w'] only added events, and its
    releases of address sets are [rs]. *)
Definition released (w w' : World) (rs : list (string * bool)) : Prop :=
  ∃ events, trace w' = trace w ++ events ∧ releases events = rs.

(** What the releases of a run of the loop from index [i] are, given the
    index at which it failed: the keys before that index succeed, the key at
    that index fails, later keys are not tried. *)
Definition releasesUpTo (failure : option nat) (i : nat) (asKeys : list string)
    : list (string * bool) :=
  match failure with
  | Some j => ((λ k, (k, true)) <$> take (j - i) asKeys) ++
              from_option (λ k, [(k, false)]) [] (asKeys !! (j - i))
  | None => (λ k, (k, true)) <$> asKeys
  end.

(** ** Sync at start *)

(** An element of the list given to [syncNetworkPolicies]: a
    [*knet.NetworkPolicy], of which the namespace and the name are read, or
    an object of another type. *)
Inductive SyncObject :=
  | SyncPolicy (namespace name : string)
  | SyncOther.

Global Instance SyncObject_eq_dec : EqDecision SyncObject.
Proof. solve_decision. Defined.

(** The first loop: [expectedPolicies], or [None] at a spurious object. *)
Definition expectPolicy (acc : option (gmap string (gmap string bool))) (obj : SyncObject)
    : option (gmap string (gmap string bool)) :=
  expectedPolicies ← acc;
  match obj with
  | SyncOther => None
  | SyncPolicy namespace name =>
      match expectedPolicies !! namespace with
      | Some nsMap => Some (<[namespace := <[name := true]> nsMap]> expectedPolicies)
      | None => Some (<[namespace := {[name := true]}]> expectedPolicies)
      end
  end.

Definition buildExpectedPolicies (networkPolicies : list SyncObject)
    : option (gmap string (gmap string bool)) :=
  foldl expectPolicy (Some ∅) networkPolicies.

(** [expectedPolicies[namespace][policyName]], [false] when either key is
    missing. *)
Definition isExpected (expectedPolicies : gmap string (gmap string bool))
    (namespace policyName : string) : bool :=
  default false (expectedPolicies !! namespace ≫= (.!! policyName)).

(** Modelled from the spec: the predicate search for the ACLs of one owner
    kind that this controller owns. *)
Definition ownedACLs `{Externals} (t : ObjectIDsType) (nb : NBDB) : list ACL :=
  filter (λ acl, idsType (aclIDs acl) = t ∧ idsController (aclIDs acl) = controllerName)
    (nbACLs nb).

Definition FindACLsWithPredicate `{Externals} (fails : bool) (t : ObjectIDsType) (w : World)
    : option (list ACL) * World :=
  if fails then (None, emit (EvFindACLs t false) w)
  else (Some (ownedACLs t (nbClient w)), emit (EvFindACLs t true) w).

Definition aclObjectName (acl : ACL) : string :=
  getExternalID (objectIDs (aclIDs acl)) ObjectNameKey.

(** The loop over the policy-owned ACLs: [None] when a key does not parse. *)
Fixpoint stalePolicyPGs `{Externals} (expectedPolicies : gmap string (gmap string bool))
    (netpolACLs : list ACL) (stalePGs : gset string) : option (gset string) :=
  match netpolACLs with
  | [] => Some stalePGs
  | netpolACL :: netpolACLs =>
      match parseACLPolicyKey (aclObjectName netpolACL) with
      | None => None
      | Some (namespace, policyName) =>
          if isExpected expectedPolicies namespace policyName
          then stalePolicyPGs expectedPolicies netpolACLs stalePGs
          else stalePolicyPGs expectedPolicies netpolACLs
                 ({[ (getNetworkPolicyPGName namespace policyName).1 ]} ∪ stalePGs)
      end
  end.

(** The loop over the namespace default-deny ACLs. *)
Definition staleDefaultDenyPGs `{Externals} (expectedPolicies : gmap string (gmap string bool))
    (netpolACLs : list ACL) (stalePGs : gset string) : gset string :=
  foldl (λ stalePGs netpolACL,
    let namespace := aclObjectName netpolACL in
    match expectedPolicies !! namespace with
    | Some _ => stalePGs
    | None =>
        {[ defaultDenyPortGroupName namespace egressDefaultDenySuffix ]} ∪
        ({[ defaultDenyPortGroupName namespace ingressDefaultDenySuffix ]} ∪ stalePGs)
    end) stalePGs netpolACLs.

(** Modelled from the spec: [libovsdbops.DeletePortGroups], one transaction
    that deletes the named port groups. *)
Definition DeletePortGroups (fails : bool) (names : list string) (w : World) : error * World :=
  if fails
  then (Some "cannot delete port groups", emit (EvDeletePortGroups names false) w)
  else (None, emit (EvDeletePortGroups names true)
                (setNB (applyOp (nbClient w) (OpDeletePortGroups names)) w)).

Definition getNetpolDefaultACLDbIDs `{Externals} (direction : string) : DbObjectIDs :=
  NewDbObjectIDs ACLNetpolDefault controllerName
    [(ObjectNameKey, allowHairpinningACLID); (PolicyDirectionKey, direction)].

Definition hairpinMatch `{Externals} : string :=
  let v4Match := if IPv4Mode then "ip4.src == " +:+ V4OVNServiceHairpinMasqueradeIP else "" in
  let match_ := if IPv4Mode then v4Match else "" in
  let v6Match := if IPv6Mode then "ip6.src == " +:+ V6OVNServiceHairpinMasqueradeIP else "" in
  let match_ := if IPv6Mode then v6Match else match_ in
  if IPv4Mode && IPv6Mode then "(" +:+ v4Match +:+ " || " +:+ v6Match +:+ ")" else match_.

Definition hairpinIngressACL `{Externals} : ACL :=
  BuildACL (getNetpolDefaultACLDbIDs "Ingress") DefaultAllowPriority hairpinMatch
    ACLActionAllowRelated None lportIngress.

Definition hairpinEgressACL `{Externals} : ACL :=
  BuildACL (getNetpolDefaultACLDbIDs "Egress") DefaultAllowPriority hairpinMatch
    ACLActionAllowRelated None lportEgressAfterLB.

Definition addHairpinAllowACL `{Externals} (f : Faults) (w : World) : error * World :=
  let ingressACL := hairpinIngressACL in
  let egressACL := hairpinEgressACL in
  match buildOps (opsFail f 0) [] (OpCreateOrUpdateACLs [ingressACL; egressACL]) with
  | inl err => (Some (wrapErr "failed to create or update hairpin allow ACL" err), w)
  | inr ops =>
    match buildOps (opsFail f 1) ops
            (OpAddACLsToPortGroup ClusterPortGroupName [ingressACL; egressACL]) with
    | inl err => (Some (wrapErr "failed to add ACL hairpin allow acl to port group" err), w)
    | inr ops => TransactAndCheck (transactFails f) ops w
    end
  end.

Record SyncFaults := MkSyncFaults {
  findPolicyACLsFails : bool;
  findDefaultDenyACLsFails : bool;
  deletePortGroupsFails : bool;
  hairpinFaults : Faults
}.

(** [syncNetworkPolicies].  [sets.List] gives the names of the stale port
    groups as a sorted list; the list here is [elements], the same names in
    the order of the set. *)
Definition syncNetworkPolicies `{Externals} (networkPolicies : list SyncObject)
    (f : SyncFaults) (w : World) : error * World :=
  match buildExpectedPolicies networkPolicies with
  | None => (Some "spurious object in syncNetworkPolicies", w)
  | Some expectedPolicies =>
    match FindACLsWithPredicate (findPolicyACLsFails f) ACLNetworkPolicy w with
    | (None, w) => (Some "cannot find NetworkPolicy ACLs", w)
    | (Some netpolACLs, w) =>
      match stalePolicyPGs expectedPolicies netpolACLs ∅ with
      | None =>
          (Some "failed to sync stale network policies: acl IDs parsing failed", w)
      | Some stalePGs =>
        match FindACLsWithPredicate (findDefaultDenyACLsFails f) ACLNetpolNamespace w with
        | (None, w) => (Some "cannot find default deny NetworkPolicy ACLs", w)
        | (Some netpolACLs, w) =>
          let stalePGs := staleDefaultDenyPGs expectedPolicies netpolACLs stalePGs in
          let '(err, w) :=
            if decide (0 < size stalePGs)
            then DeletePortGroups (deletePortGroupsFails f) (elements stalePGs) w
            else (None, w) in
          match err with
          | Some err => (Some (wrapErr "error removing stale port groups" err), w)
          | None =>
            match addHairpinAllowACL (hairpinFaults f) w with
            | (Some err, w) => (Some (wrapErr "failed to create allow hairping acl" err), w)
            | (None, w) => (None, w)
            end
          end
        end
      end
    end
  end.

(** ** What sync has to leave behind *)

(** The owner name among the external identifiers of an ACL: the value of
    the first pair under [ObjectNameKey], the empty string without one. *)
Definition ownerName (acl : ACL) : string :=
  from_option (λ found : nat * (ExternalIDKey * string), found.2.2) ""
    (list_find (λ kv : ExternalIDKey * string, kv.1 = ObjectNameKey)
       (objectIDs (aclIDs acl))).

(** [acl] is a row of the database tagged with the owner kind [t] and owned
    by this controller. *)
Definition taggedAs `{Externals} (t : ObjectIDsType) (nb : NBDB) (acl : ACL) : Prop :=
  acl ∈ nbACLs nb ∧ idsType (aclIDs acl) = t ∧ idsController (aclIDs acl) = controllerName.

(** A port group that sync has to delete: the port group
    [hash(namespace_name)] of a policy that a policy-owned ACL names and that
    is not in the list given to sync, or one of the two default-deny port
    groups [hash(namespace)_ingressDefaultDeny] and
    [hash(namespace)_egressDefaultDeny] of a namespace that a default-deny ACL
    names and that has no policy in that list. *)
Definition stalePortGroup `{Externals} (networkPolicies : list SyncObject) (nb : NBDB)
    (pg : string) : Prop :=
  (∃ acl namespace name,
     taggedAs ACLNetworkPolicy nb acl ∧
     parseACLPolicyKey (ownerName acl) = Some (namespace, name) ∧
     (SyncPolicy namespace name ∉ networkPolicies) ∧
     pg = hashedPortGroup (namespace +:+ "_" +:+ name)) ∨
  (∃ acl,
     taggedAs ACLNetpolNamespace nb acl ∧
     (∀ name, SyncPolicy (ownerName acl) name ∉ networkPolicies) ∧
     (pg = hashedPortGroup (ownerName acl) +:+ "_ingressDefaultDeny" ∨
      pg = hashedPortGroup (ownerName acl) +:+ "_egressDefaultDeny")).

(** The match of the hairpin-allow ACL: the reserved hairpin source address
    of each IP family in use. *)
Definition hairpinSourceMatch `{Externals} : string :=
  match IPv4Mode, IPv6Mode with
  | true, true =>
      "(ip4.src == " +:+ V4OVNServiceHairpinMasqueradeIP +:+
      " || ip6.src == " +:+ V6OVNServiceHairpinMasqueradeIP +:+ ")"
  | true, false => "ip4.src == " +:+ V4OVNServiceHairpinMasqueradeIP
  | false, true => "ip6.src == " +:+ V6OVNServiceHairpinMasqueradeIP
  | false, false => ""
  end.

(** The hairpin-allow ACL of a direction: owned by the controller under the
    name [allow-hairpinning], with the priority of the allow ACLs, the action
    [allow-related] and no logging. *)
Definition hairpinAllowACL `{Externals} (direction pipeline : string) : ACL :=
  {| aclIDs := {| idsType := ACLNetpolDefault;
                  idsController := controllerName;
                  objectIDs := [(ObjectNameKey, "allow-hairpinning");
                                (PolicyDirectionKey, direction)] |};
     aclPriority := DefaultAllowPriority;
     aclMatch := hairpinSourceMatch;
     aclAction := "allow-related";
     aclLogging := None;
     aclPipeline := pipeline |}.

(** The two hairpin-allow ACLs, of the ingress and of the egress pipeline. *)
Definition hairpinAllowACLs `{Externals} : list ACL :=
  [hairpinAllowACL "Ingress" lportIngress; hairpinAllowACL "Egress" lportEgressAfterLB].

(** The last step of sync, from the world [w]: it fails while an operation is
    built and leaves [w], or the two hairpin-allow ACLs are written and bound
    to the cluster port group in one transaction, on whose success sync
    returns [nil]. *)
Definition hairpinInstalled `{Externals} (f : Faults) (w : World) (err : error) (w' : World)
    : Prop :=
  if opsFail f 0 || opsFail f 1
  then is_Some err ∧ w' = w
  else w' = (TransactAndCheck (transactFails f)
               [OpCreateOrUpdateACLs hairpinAllowACLs;
                OpAddACLsToPortGroup ClusterPortGroupName hairpinAllowACLs] w).2 ∧
       (err = None ↔ transactFails f = false).

(** The database [nb'] that a successful sync leaves of [nb]: the stale port
    groups are gone and every other port group is as before, but for the
    cluster port group, which has the two hairpin-allow ACLs added.  Both
    hairpin-allow ACLs are rows of the ACL table; every other row was there
    before, and if it was contained in a port group it still is (an ACL is
    collected with its containing port group); and when no two rows had the
    same external identifiers before, no two have afterwards. *)
Definition synced `{Externals} (stalePGs : gset string) (nb nb' : NBDB) : Prop :=
  (∀ pg, pg ∈ stalePGs → nbPortGroups nb' !! pg = None) ∧
  (∀ pg, pg ∉ stalePGs → pg ≠ ClusterPortGroupName →
         nbPortGroups nb' !! pg = nbPortGroups nb !! pg) ∧
  (ClusterPortGroupName ∉ stalePGs →
     nbPortGroups nb' !! ClusterPortGroupName =
       setACLs (λ acls, acls ++ hairpinAllowACLs) <$>
         nbPortGroups nb !! ClusterPortGroupName) ∧
  (∀ acl, acl ∈ hairpinAllowACLs → acl ∈ nbACLs nb') ∧
  (∀ acl, acl ∈ nbACLs nb' → acl ∉ hairpinAllowACLs →
          acl ∈ nbACLs nb ∧
          (aclBound (nbPortGroups nb) (aclIDs acl) →
           aclBound (nbPortGroups nb') (aclIDs acl))) ∧
  (NoDup (aclIDs <$> nbACLs nb) → NoDup (aclIDs <$> nbACLs nb')).

(** ** Membership of policies in the shared record *)

(** A call of join or leave, with the outcome of its database calls. *)
Inductive MembershipCall :=
  | Join (np : networkPolicy) (aclLogging : ACLLoggingLevels) (f : Faults)
  | Leave (np : networkPolicy) (f : Faults).

Definition runMembership `{Externals} (c : MembershipCall) (w : World) : error * World :=
  match c with
  | Join np aclLogging f => addPolicyToDefaultPortGroups np aclLogging f w
  | Leave np f => delPolicyFromDefaultPortGroups np f w
  end.

(** The policies, as (namespace, name), that have joined and not left: a join
    that returns [nil] adds its policy, a call of leave removes it. *)
Definition joinedAfter (c : MembershipCall) (err : error)
    (joined : gset (string * string)) : gset (string * string) :=
  match c, err with
  | Join np _ _, None => {[ (namespace np, name np) ]} ∪ joined
  | Join _ _ _, Some _ => joined
  | Leave np _, _ => joined ∖ {[ (namespace np, name np) ]}
  end.

(** A leave whose deletion of the port groups failed. *)
Definition failedLeave (c : MembershipCall) (err : error) : bool :=
  match c, err with
  | Leave _ _, Some _ => true
  | _, _ => false
  end.

(** The namespace of the policy of a call. *)
Definition callNamespace (c : MembershipCall) : string :=
  match c with
  | Join np _ _ => namespace np
  | Leave np _ => namespace np
  end.

(** The namespaces that a failed leave has left behind: a leave whose
    deletion of the port groups failed adds its namespace, and the namespace
    stays until a later leave in it succeeds or a policy joins in it. *)
Definition pendingAfter (c : MembershipCall) (err : error) (pending : gset string)
    : gset string :=
  match c, err with
  | Leave np _, Some _ => {[ namespace np ]} ∪ pending
  | Leave np _, None => pending ∖ {[ namespace np ]}
  | Join np _ _, None => pending ∖ {[ namespace np ]}
  | Join _ _ _, Some _ => pending
  end.

(** A sequence of joins and leaves, one after the other, with the joined
    policies and the namespaces left behind by a failed leave. *)
Fixpoint runMemberships `{Externals} (cs : list MembershipCall) (w : World)
    (joined : gset (string * string)) (pending : gset string)
    : World * gset (string * string) * gset string :=
  match cs with
  | [] => (w, joined, pending)
  | c :: cs =>
      let '(err, w') := runMembership c w in
      runMemberships cs w' (joinedAfter c err joined) (pendingAfter c err pending)
  end.

Definition policyKey (namespace name : string) : string := namespace +:+ "/" +:+ name.

(** I2 for one namespace.  With a record: its [policies] are exactly the keys
    of the joined policies of the namespace, both port groups exist, and (when
    [tight]) some policy of the namespace has joined.  Without: no policy of
    the namespace has joined and neither port group exists. *)
Definition I2in `{Externals} (tight : bool) (w : World) (joined : gset (string * string))
    (ns : string) : Prop :=
  let ingressPG := nbPortGroups (nbClient w) !! defaultDenyPortGroupName ns ingressDefaultDenySuffix in
  let egressPG := nbPortGroups (nbClient w) !! defaultDenyPortGroupName ns egressDefaultDenySuffix in
  match sharedNetpolPortGroups w !! ns with
  | Some sharedPGs =>
      (∀ key, key ∈ dom (policies sharedPGs) ↔ ∃ n, (ns, n) ∈ joined ∧ key = policyKey ns n) ∧
      (tight = true → ∃ n, (ns, n) ∈ joined) ∧
      is_Some ingressPG ∧ is_Some egressPG
  | None =>
      (∀ n, (ns, n) ∉ joined) ∧ ingressPG = None ∧ egressPG = None
  end.

(** I2: for every namespace in its tight form, except for the namespaces of
    [pending], where a record may exist without a joined policy. *)
Definition I2 `{Externals} (pending : gset string) (w : World)
    (joined : gset (string * string)) : Prop :=
  ∀ ns, I2in (bool_decide (ns ∉ pending)) w joined ns.

(** ** I1: ports in the database and ports in the reference maps *)

(** Whether an operation names the port group [pg]. *)
Definition opTouches (op : Operation) (pg : string) : bool :=
  match op with
  | OpCreateOrUpdateACLs _ => false
  | OpCreateOrUpdatePortGroups pgs => bool_decide (pg ∈ pgName <$> pgs)
  | OpDeletePortGroups names => bool_decide (pg ∈ names)
  | OpAddPortsToPortGroup name _ => bool_decide (pg = name)
  | OpDeletePortsFromPortGroup name _ => bool_decide (pg = name)
  | OpAddACLsToPortGroup name _ => bool_decide (pg = name)
  | OpDeleteACLsFromPortGroup name _ => bool_decide (pg = name)
  | OpConfigDurationRecord _ _ _ => false
  end.

Definition touchesDenyPGs `{Externals} (ns : string) (ops : list Operation) : bool :=
  existsb (λ op, opTouches op (defaultDenyPortGroupName ns ingressDefaultDenySuffix) ||
                 opTouches op (defaultDenyPortGroupName ns egressDefaultDenySuffix)) ops.

(** The pending operations that a caller hands over name no default-deny
    port group. *)
Definition avoidDenyPGs `{Externals} (ops : list Operation) : Prop :=
  ∀ ns, touchesDenyPGs ns ops = false.

(** I1 for one namespace, [uuidOf] giving the UUID of the port of each name.
    With a record: it has the shape the operations maintain, both port groups
    exist, and the port is in the ingress (egress) group exactly when its
    ingress (egress) entry is non-empty.  Without: no port is in either
    group. *)
Definition I1in `{Externals} (uuidOf : string → string) (w : World) (ns : string) : Prop :=
  let ingressPG := defaultDenyPortGroupName ns ingressDefaultDenySuffix in
  let egressPG := defaultDenyPortGroupName ns egressDefaultDenySuffix in
  match sharedNetpolPortGroups w !! ns with
  | Some sharedPGs =>
      wfDefaultDeny sharedPGs ∧
      is_Some (nbPortGroups (nbClient w) !! ingressPG) ∧
      is_Some (nbPortGroups (nbClient w) !! egressPG) ∧
      ∀ portName,
        (uuidOf portName ∈ portGroupPorts (nbClient w) ingressPG ↔
           refs (ingressPortToPolicies sharedPGs) portName ≠ ∅) ∧
        (uuidOf portName ∈ portGroupPorts (nbClient w) egressPG ↔
           refs (egressPortToPolicies sharedPGs) portName ≠ ∅)
  | None =>
      ∀ portName,
        (uuidOf portName ∉ portGroupPorts (nbClient w) ingressPG) ∧
        (uuidOf portName ∉ portGroupPorts (nbClient w) egressPG)
  end.

Definition I1 `{Externals} (uuidOf : string → string) (w : World) : Prop :=
  ∀ ns, I1in uuidOf w ns.

(** The port map carries the UUID of each of its ports. *)
Definition carriesUUIDs (uuidOf : string → string) (portNamesToUUIDs : gmap string string) : Prop :=
  ∀ portName portUUID,
    portNamesToUUIDs !! portName = Some portUUID → portUUID = uuidOf portName.

Definition faultFree (f : Faults) : Prop :=
  opsFail f 0 = false ∧ opsFail f 1 = false ∧ transactFails f = false.

(** The operation by which [denyPGAddPorts] ([add]) or [denyPGDeletePorts]
    moves ports, and what it does to the members of the group. *)
Definition portsOp (add : bool) (name : string) (ports : list string) : Operation :=
  if add then OpAddPortsToPortGroup name ports else OpDeletePortsFromPortGroup name ports.

Definition portsEffect (add : bool) (members : gset string) (ports : list string) : gset string :=
  if add then members ∪ list_to_set ports else members ∖ list_to_set ports.

(** ** The key lock during a run *)

(** The events of a run that started in [w] and ended in [w']. *)
Definition eventsOf (w w' : World) : list Event := drop (length (trace w)) (trace w').

(** [underLock pgKey protected held t]: every event of [t] that is
    [protected] happens while the key [pgKey] is held; [held] tells whether
    it is held at the start. *)
Fixpoint underLock (pgKey : string) (protected : Event → bool) (held : bool)
    (t : list Event) : bool :=
  match t with
  | [] => true
  | EvLockKey k :: t =>
      underLock pgKey protected (if decide (k = pgKey) then true else held) t
  | EvUnlockKey k :: t =>
      underLock pgKey protected (if decide (k = pgKey) then false else held) t
  | e :: t => implb (protected e) held && underLock pgKey protected held t
  end.

(** Every write to the reference maps of [pgKey] and every transaction. *)
Definition allWrites (pgKey : string) (e : Event) : bool :=
  match e with
  | EvCounters k _ => bool_decide (k = pgKey)
  | EvTransact _ _ => true
  | _ => false
  end.

(** The writes of the forward call to the reference maps of [pgKey], and the
    transactions that carry an operation on a default-deny port group of the
    namespace. *)
Definition forwardWrites `{Externals} (pgKey : string) (e : Event) : bool :=
  match e with
  | EvCounters k inverse => bool_decide (k = pgKey) && negb inverse
  | EvTransact ops _ => touchesDenyPGs pgKey ops
  | _ => false
  end.

(** ** Concrete inputs *)

(** A key [namespace:name] cut at its first colon. *)
Fixpoint splitAtColon (s : string) : option (string * string) :=
  match s with
  | EmptyString => None
  | String c rest =>
      if Ascii.eqb c (Ascii.ascii_of_nat 58)
      then Some (EmptyString, rest)
      else match splitAtColon rest with
           | Some (namespace, name) => Some (String c namespace, name)
           | None => None
           end
  end.

(** An instance of [parseACLPolicyKey]: the key has exactly two parts. *)
Definition exampleParseACLPolicyKey (aclPolicyKey : string) : option (string * string) :=
  match splitAtColon aclPolicyKey with
  | Some (namespace, name) =>
      match splitAtColon name with
      | None => Some (namespace, name)
      | Some _ => None
      end
  | None => None
  end.

(** An instance of the external functions, to run the model on examples. *)
Definition exampleExternals : Externals := {|
  controllerName := "default-network-controller";
  hashedPortGroup := λ s, "a" +:+ s;
  aclDirectionString := λ d, match d with aclIngress => "Ingress" | aclEgress => "Egress" end;
  getACLMatch := λ pg m d,
    match d with aclIngress => "outport == @" | aclEgress => "inport == @" end +:+ pg +:+ m;
  aclDirectionToACLPipeline := λ d,
    match d with aclIngress => "to-lport" | aclEgress => "from-lport" end;
  lportIngress := "to-lport";
  lportEgressAfterLB := "to-lport-after-lb";
  DefaultDenyPriority := 1000;
  DefaultAllowPriority := 1001;
  ClusterPortGroupName := "clusterPortGroup";
  V4OVNServiceHairpinMasqueradeIP := "169.254.169.5";
  V6OVNServiceHairpinMasqueradeIP := "fd69::5";
  parseACLPolicyKey := exampleParseACLPolicyKey;
  GetLogicalPortName := λ ns n, ns +:+ "_" +:+ n;
  podExpectedInLogicalCache := λ _, true;
  getACLPolicyKey := λ ns n, ns +:+ ":" +:+ n;
  IPv4Mode := true;
  IPv6Mode := false;
  gressPolicy := list string;
  addNamespaceAddressSet := λ ns gp,
    if bool_decide (ns ∈ gp) then (gp, false, None) else (ns :: gp, true, None);
  delNamespaceAddressSet := λ ns gp,
    if bool_decide (ns ∈ gp) then (filter (λ x, x ≠ ns) gp, true) else (gp, false)
|}.

(** Policy [ns1/p1], ingress only. *)
Definition policyP1 : networkPolicy := {|
  name := "p1"; namespace := "ns1"; isIngress := true; isEgress := false;
  peerAddressSets := []; localPods := ∅; portGroupName := "ans1_p1";
  localPodHandler := None; nsHandlerList := []; deleted := false
|}.

(** Policy [ns1/p2], ingress only, of the same namespace. *)
Definition policyP2 : networkPolicy := {|
  name := "p2"; namespace := "ns1"; isIngress := true; isEgress := false;
  peerAddressSets := []; localPods := ∅; portGroupName := "ans1_p2";
  localPodHandler := None; nsHandlerList := []; deleted := false
|}.

(** Policy [ns1/p3], ingress and egress. *)
Definition policyP3 : networkPolicy := {|
  name := "p3"; namespace := "ns1"; isIngress := true; isEgress := true;
  peerAddressSets := []; localPods := ∅; portGroupName := "ans1_p3";
  localPodHandler := None; nsHandlerList := []; deleted := false
|}.

(** The record of [ns1] in [worldP1]. *)
Definition recordP1 : defaultDenyPortGroups :=
  {| ingressPortToPolicies := {[ "port-A" := {[ "ns1/p1" ]} ]};
     egressPortToPolicies := ∅;
     policies := {[ "ns1/p1" := true ]} |}.

Definition portA : gmap string string := {[ "port-A" := "uuid-port-A" ]}.
Definition portB : gmap string string := {[ "port-B" := "uuid-port-B" ]}.

(** Policy [ns1/p1] once its cleanup has begun. *)
Definition policyP1Deleted : networkPolicy := setDeleted true policyP1.

(** A scheduled pod of [ns1], and a logical-port cache without entries. *)
Definition pod1 : Pod := {| podNamespace := "ns1"; podName := "pod1"; podNodeName := "node1" |}.
Definition emptyCache : Pod → option lpInfo := λ _, None.

Definition emptyNB : NBDB := {| nbPortGroups := ∅; nbACLs := [] |}.

Definition emptyWorld : World :=
  {| sharedNetpolPortGroups := ∅; networkPolicies := ∅; nbClient := emptyNB; trace := [] |}.

(** Namespace [ns1] with its two default-deny port groups, port [port-A]
    ([uuid-port-A]) referenced by policy [ns1/p1] for ingress. *)
Definition worldP1 : World := {|
  sharedNetpolPortGroups := {[ "ns1" := recordP1 ]};
  networkPolicies := ∅;
  nbClient :=
    {| nbPortGroups :=
         {[ "ans1_ingressDefaultDeny" :=
              BuildPortGroup "ans1_ingressDefaultDeny" "ans1_ingressDefaultDeny" {[ "uuid-port-A" ]} [];
            "ans1_egressDefaultDeny" :=
              BuildPortGroup "ans1_egressDefaultDeny" "ans1_egressDefaultDeny" ∅ [] ]};
       nbACLs := [] |};
  trace := []
|}.

Definition transactionFails : Faults := {| opsFail := λ _, false; transactFails := true |}.

(** A database left by an earlier run: policy [ns1/p1] and policy
    [ns2/p-gone] each have an ACL and a port group, and namespace [ns2] has its
    default-deny ACL and port groups. *)
Definition examplePolicyACL (aclPolicyKey : string) : ACL :=
  BuildACL (NewDbObjectIDs ACLNetworkPolicy "default-network-controller"
              [(ObjectNameKey, aclPolicyKey)])
    1001 "" ACLActionAllowRelated None "to-lport".

Definition exampleDefaultDenyACL (namespace : string) : ACL :=
  BuildACL (NewDbObjectIDs ACLNetpolNamespace "default-network-controller"
              [(ObjectNameKey, namespace)])
    1000 "" ACLActionDrop None "to-lport".

Definition staleNB : NBDB := {|
  nbPortGroups :=
    {[ "ans1_p1" := BuildPortGroup "ans1_p1" "ns1_p1" ∅ [examplePolicyACL "ns1:p1"];
       "ans2_p-gone" := BuildPortGroup "ans2_p-gone" "ns2_p-gone" ∅ [examplePolicyACL "ns2:p-gone"];
       "ans2_ingressDefaultDeny" :=
         BuildPortGroup "ans2_ingressDefaultDeny" "ans2_ingressDefaultDeny" ∅
           [exampleDefaultDenyACL "ns2"];
       "ans2_egressDefaultDeny" :=
         BuildPortGroup "ans2_egressDefaultDeny" "ans2_egressDefaultDeny" ∅ [] ]};
  nbACLs := [examplePolicyACL "ns1:p1"; examplePolicyACL "ns2:p-gone";
             exampleDefaultDenyACL "ns2"]
|}.

Definition staleWorld : World :=
  {| sharedNetpolPortGroups := ∅; networkPolicies := ∅; nbClient := staleNB; trace := [] |}.

(** The same database with one ACL whose key has no colon. *)
Definition undecodableWorld : World :=
  {| sharedNetpolPortGroups := ∅; networkPolicies := ∅;
     nbClient := {| nbPortGroups := nbPortGroups staleNB;
                    nbACLs := nbACLs staleNB ++ [examplePolicyACL "ns2-p-gone"] |};
     trace := [] |}.

(** * Further functions of the package, and what a run leaves in the trace *)

(** ** The shared store as a whole *)

(** Every record of the store has the shape that [addPortsForPolicy] and
    [deletePortsForPolicy] maintain. *)
Definition storeWf (w : World) : Prop :=
  ∀ ns sharedPGs, sharedNetpolPortGroups w !! ns = Some sharedPGs → wfDefaultDeny sharedPGs.

(** ** Projections of the trace of a run *)

(** The takes ([true]) and releases ([false]) of keys of the shared store. *)
Definition keyLocks (t : list Event) : list (string * bool) :=
  omap (λ e, match e with
             | EvLockKey pgKey => Some (pgKey, true)
             | EvUnlockKey pgKey => Some (pgKey, false)
             | _ => None
             end) t.

(** The transactions submitted, each with its operations and whether it was
    committed. *)
Definition transactions (t : list Event) : list (list Operation * bool) :=
  omap (λ e, match e with
             | EvTransact ops ok => Some (ops, ok)
             | _ => None
             end) t.

(** The takes ([true]) and releases ([false]) of the lock of a policy, each
    with the key of the policy and whether it is the write lock. *)
Definition policyLocks (t : list Event) : list (string * bool * bool) :=
  omap (λ e, match e with
             | EvPolicyLock npKey write => Some (npKey, write, true)
             | EvPolicyUnlock npKey write => Some (npKey, write, false)
             | _ => None
             end) t.

(** Whether an event is a call to the database client. *)
Definition isDatabaseCall (e : Event) : bool :=
  match e with
  | EvTransact _ _ | EvFindACLs _ _ | EvDeletePortGroups _ _
  | EvGetPortGroup _ | EvUpdateACLLogging _ _ => true
  | _ => false
  end.

(** The operations by which [denyPGAddPorts] ([add]) or [denyPGDeletePorts]
    moves the ports of the two directions in the default-deny port groups of
    a namespace. *)
Definition denyPortsOps `{Externals} (add : bool) (namespace : string)
    (ingressDenyPorts egressDenyPorts : list string) : list Operation :=
  [portsOp add (defaultDenyPortGroupName namespace ingressDefaultDenySuffix) ingressDenyPorts;
   portsOp add (defaultDenyPortGroupName namespace egressDefaultDenySuffix) egressDenyPorts].

(** A run from [w] with result [r] that was handed the pending operations
    [ops]: when it returns [nil] it has submitted one transaction,
    [ops ++ denyOps], which was committed; when it returns an error it has
    submitted nothing or that transaction, which failed, and the database is
    as before. *)
Definition committedOnce (ops denyOps : list Operation) (w : World) (r : error * World)
    : Prop :=
  (r.1 = None →
     transactions (eventsOf w r.2) = [(ops ++ denyOps, true)] ∧
     nbClient r.2 = foldl applyOp (nbClient w) (ops ++ denyOps)) ∧
  (is_Some r.1 →
     nbClient r.2 = nbClient w ∧
     (transactions (eventsOf w r.2) = [] ∨
      transactions (eventsOf w r.2) = [(ops ++ denyOps, false)])).

(** ** Local pods of a policy *)

(** The logical port of a pod. *)
Definition podPort `{Externals} (pod : Pod) : string :=
  GetLogicalPortName (podNamespace pod) (podName pod).

(** What a run of a local-pod handler from [w] leaves, given the ports that
    it found for its pods and the pods it could not resolve.  Either no
    transaction was committed: then the policy object and the database are as
    they were, and the handler has returned an error unless there was no
    port and no unresolved pod.  Or one transaction was committed, the only
    one submitted: then [localPods] has been updated by [update], and the
    handler returns an error exactly when a pod was not resolved. *)
Definition followsTheDatabase (np : networkPolicy) (ports : gmap string string)
    (errPods : list Pod) (update : gmap string string → gmap string string)
    (w : World) (r : error * networkPolicy * World) : Prop :=
  let '(err, np', w') := r in
  ((transactions (eventsOf w w') = [] ∨
    ∃ ops, transactions (eventsOf w w') = [(ops, false)]) ∧
   np' = np ∧ nbClient w' = nbClient w ∧
   (err = None → size ports = 0 ∧ errPods = []))
  ∨
  ((∃ ops, transactions (eventsOf w w') = [(ops, true)]) ∧
   np' = setLocalPods update np ∧ size ports ≠ 0 ∧
   (err = None ↔ errPods = [])).

(** The policy holds references only for ports of its [localPods]: the
    relation between the policy object and the record of its namespace that
    the local-pod handlers maintain. *)
Definition refsWithinLocalPods (np : networkPolicy) (sharedPGs : defaultDenyPortGroups)
    : Prop :=
  ∀ portName,
    (isIngress np = true →
     getKey np ∈ refs (ingressPortToPolicies sharedPGs) portName →
     portName ∈ dom (localPods np)) ∧
    (isEgress np = true →
     getKey np ∈ refs (egressPortToPolicies sharedPGs) portName →
     portName ∈ dom (localPods np)).

(** The faults of a handler run in which no call to the database fails. *)
Definition noHandlerFaults : HandlerFaults :=
  {| policyOpsFail := false; denyFaults := noFaults |}.

(** ** Kinds of events *)

(** [extendsBy P w w']: the run from [w] to [w'] only added events, all of
    kind [P]. *)
Definition extendsBy (P : Event → bool) (w w' : World) : Prop :=
  ∃ events, trace w' = trace w ++ events ∧ forallb P events = true.

(** The events of the shared store and of the transactions that go with its
    updates. *)
Definition isStoreEvent (e : Event) : bool :=
  match e with
  | EvLockKey _ | EvUnlockKey _ | EvCounters _ _ | EvTransact _ _ => true
  | _ => false
  end.

Definition isPolicyLockEvent (e : Event) : bool :=
  match e with
  | EvPolicyLock _ _ | EvPolicyUnlock _ _ => true
  | _ => false
  end.

(** The handlers removed from the watch factory, in order. *)
Definition removedHandlers (t : list Event) : list nat :=
  omap (λ e, match e with EvRemoveHandler h => Some h | _ => None end) t.

(** A cleanup in which no call fails. *)
Definition noCleanupFaults : CleanupFaults :=
  {| releaseFails := λ _, false; deletePGOpsFail := false; configDurationFails := false;
     cleanupDenyFaults := noFaults; leaveFaults := noFaults |}.

(** The fields of [np] that cleanup does not write. *)
Definition sameIdentity (np np' : networkPolicy) : Prop :=
  name np' = name np ∧ namespace np' = namespace np ∧
  isIngress np' = isIngress np ∧ isEgress np' = isEgress np ∧
  portGroupName np' = portGroupName np.

(** ** Further concrete inputs *)

(** A pod of [ns1] that is not scheduled yet. *)
Definition podUnscheduled : Pod :=
  {| podNamespace := "ns1"; podName := "pod2"; podNodeName := "" |}.

(** A logical-port cache that knows every pod: the port is named by the
    logical port name of the pod and is not pending deletion. *)
Definition exampleCache : Pod → option lpInfo :=
  λ pod, Some {| lpName := podNamespace pod +:+ "_" +:+ podName pod;
                 lpUUID := "uuid-" +:+ podNamespace pod +:+ "_" +:+ podName pod;
                 lpExpires := None |}.

(** * Properties *)

(** ** The reference maps *)

Section reference_maps.
Implicit Types (m : gmap string (gset string)) (key p : string)
  (l : list (string * string)) (acc : list string).

Lemma size_0_empty (X : gset string) : size X = 0 → X = ∅.
Proof. intros E. apply leibniz_equiv. by apply size_empty_inv. Qed.

Lemma filter_ext_in {A} (P1 P2 : A → Prop)
    `{!∀ x, Decision (P1 x), !∀ x, Decision (P2 x)} (xs : list A) :
  (∀ x, x ∈ xs → P1 x ↔ P2 x) → filter P1 xs = filter P2 xs.
Proof.
  induction xs as [|a xs IH]; intros Hiff; [done|].
  rewrite !filter_cons, IH by (intros; apply Hiff; by right).
  apply decide_ext, Hiff. by left.
Qed.

Lemma refs_None m p : m !! p = None → refs m p = ∅.
Proof. unfold refs. by intros ->. Qed.

Lemma refs_Some m p s : m !! p = Some s → refs m p = s.
Proof. unfold refs. by intros ->. Qed.

Lemma refs_noEmpty m p : noEmptyRefs m → refs m p = ∅ → m !! p = None.
Proof.
  intros Hwf. unfold refs. destruct (m !! p) as [s|] eqn:E; [|done].
  simpl. intros ->. by destruct (Hwf p ∅ E).
Qed.

Lemma size_refs_0 m p : size (refs m p) = 0 ↔ refs m p = ∅.
Proof. split; [apply size_0_empty | intros ->; apply size_empty]. Qed.

Lemma addPort_lookup key m acc q u p :
  (addPort key (m, acc) (q, u)).1 !! p =
    if decide (p = q) then Some ({[key]} ∪ refs m q) else m !! p.
Proof.
  unfold addPort. destruct (decide (size (refs m q) = 0)) as [E|E]; simpl.
  - apply size_refs_0 in E. rewrite E.
    destruct (decide (p = q)) as [->|].
    + by rewrite lookup_alter_eq, lookup_insert_eq.
    + by rewrite lookup_alter_ne, lookup_insert_ne.
  - destruct (decide (p = q)) as [->|].
    + rewrite lookup_alter_eq. destruct (m !! q) as [s|] eqn:Eq.
      * by rewrite (refs_Some _ _ _ Eq).
      * destruct E. rewrite (refs_None _ _ Eq). apply size_empty.
    + by rewrite lookup_alter_ne.
Qed.

Lemma addPort_emitted key m acc q u :
  (addPort key (m, acc) (q, u)).2 =
    acc ++ (if decide (refs m q = ∅) then [u] else []).
Proof.
  unfold addPort. destruct (decide (size (refs m q) = 0)) as [E|E]; simpl.
  - apply size_refs_0 in E. by rewrite decide_True.
  - rewrite decide_False; [by rewrite app_nil_r|]. by rewrite <-size_refs_0.
Qed.

Lemma deletePort_lookup key m acc q u p :
  (deletePort key (m, acc) (q, u)).1 !! p =
    if decide (p = q)
    then (if decide (refs m q ∖ {[key]} = ∅) then None else Some (refs m q ∖ {[key]}))
    else m !! p.
Proof.
  unfold deletePort.
  assert (refs (alter (λ s, s ∖ {[key]}) q m) q = refs m q ∖ {[key]}) as Hr.
  { unfold refs. rewrite lookup_alter_eq. destruct (m !! q); simpl; set_solver. }
  rewrite Hr.
  destruct (decide (size (refs m q ∖ {[key]}) = 0)) as [E|E]; simpl.
  - apply size_0_empty in E. rewrite (decide_True _ _ E).
    destruct (decide (p = q)) as [->|].
    + by rewrite lookup_delete_eq.
    + by rewrite lookup_delete_ne, lookup_alter_ne.
  - assert (refs m q ∖ {[key]} ≠ ∅) as E' by (intros E'; by rewrite E', size_empty in E).
    rewrite (decide_False _ _ E').
    destruct (decide (p = q)) as [->|].
    + rewrite lookup_alter_eq. destruct (m !! q) as [s|] eqn:Eq.
      * by rewrite (refs_Some _ _ _ Eq).
      * destruct E'. rewrite (refs_None _ _ Eq). set_solver.
    + by rewrite lookup_alter_ne.
Qed.

Lemma deletePort_emitted key m acc q u :
  (deletePort key (m, acc) (q, u)).2 =
    acc ++ (if decide (refs m q ∖ {[key]} = ∅) then [u] else []).
Proof.
  unfold deletePort.
  assert (refs (alter (λ s, s ∖ {[key]}) q m) q = refs m q ∖ {[key]}) as Hr.
  { unfold refs. rewrite lookup_alter_eq. destruct (m !! q); simpl; set_solver. }
  rewrite Hr.
  destruct (decide (size (refs m q ∖ {[key]}) = 0)) as [E|E]; simpl.
  - apply size_0_empty in E. by rewrite decide_True.
  - rewrite decide_False; [by rewrite app_nil_r|].
    intros E'. by rewrite E', size_empty in E.
Qed.

(** The reference map after the add loop, whatever the order of the range. *)
Lemma addPorts_lookup key l m p :
  (addPorts key l m).1 !! p =
    if decide (p ∈ l.*1) then Some ({[key]} ∪ refs m p) else m !! p.
Proof.
  unfold addPorts. generalize (@nil string) as acc. revert m.
  induction l as [|[q u] l IH]; intros m acc; cbn [foldl]; [done|].
  destruct (addPort key (m, acc) (q, u)) as [m1 acc1] eqn:E1.
  rewrite IH, fmap_cons. cbn [fst].
  pose proof (addPort_lookup key m acc q u) as H1. rewrite E1 in H1. simpl in H1.
  assert (refs m1 p = if decide (p = q) then {[key]} ∪ refs m q else refs m p) as Hr.
  { unfold refs at 1. rewrite H1. by destruct (decide (p = q)). }
  destruct (decide (p = q)) as [->|Hne].
  - rewrite (decide_True (P := q ∈ q :: l.*1)) by set_solver.
    destruct (decide (q ∈ l.*1)).
    + rewrite Hr. f_equal. set_solver.
    + by rewrite H1, decide_True.
  - destruct (decide (p ∈ l.*1)).
    + rewrite (decide_True (P := p ∈ q :: l.*1)) by set_solver. by rewrite Hr.
    + rewrite (decide_False (P := p ∈ q :: l.*1)) by set_solver.
      by rewrite H1, decide_False.
Qed.

Lemma deletePorts_lookup key l m p :
  (deletePorts key l m).1 !! p =
    if decide (p ∈ l.*1)
    then (if decide (refs m p ∖ {[key]} = ∅) then None else Some (refs m p ∖ {[key]}))
    else m !! p.
Proof.
  unfold deletePorts. generalize (@nil string) as acc. revert m.
  induction l as [|[q u] l IH]; intros m acc; cbn [foldl]; [done|].
  destruct (deletePort key (m, acc) (q, u)) as [m1 acc1] eqn:E1.
  rewrite IH, fmap_cons. cbn [fst].
  pose proof (deletePort_lookup key m acc q u) as H1. rewrite E1 in H1. simpl in H1.
  assert (refs m1 p = if decide (p = q) then refs m q ∖ {[key]} else refs m p) as Hr.
  { unfold refs at 1. rewrite H1. destruct (decide (p = q)); [|done].
    by destruct (decide (refs m q ∖ {[key]} = ∅)) as [->|]. }
  destruct (decide (p = q)) as [->|Hne].
  - rewrite (decide_True (P := q ∈ q :: l.*1)) by set_solver.
    destruct (decide (q ∈ l.*1)).
    + rewrite Hr.
      replace (refs m q ∖ {[key]} ∖ {[key]}) with (refs m q ∖ {[key]}) by set_solver.
      done.
    + by rewrite H1, decide_True.
  - destruct (decide (p ∈ l.*1)).
    + rewrite (decide_True (P := p ∈ q :: l.*1)) by set_solver. by rewrite Hr.
    + rewrite (decide_False (P := p ∈ q :: l.*1)) by set_solver.
      by rewrite H1, decide_False.
Qed.

(** The ports emitted by the add loop: those whose reference set was empty
    at the start (each port name occurs once in a map range). *)
Lemma addPorts_emitted key l m :
  NoDup l.*1 →
  (addPorts key l m).2 = (filter (λ pu, refs m pu.1 = ∅) l).*2.
Proof.
  unfold addPorts.
  enough (∀ acc, NoDup l.*1 →
    (foldl (addPort key) (m, acc) l).2 = acc ++ (filter (λ pu, refs m pu.1 = ∅) l).*2)
    as Hgen by (intros Hnd; by rewrite Hgen).
  revert m. induction l as [|[q u] l IH]; intros m acc Hnd; cbn [foldl].
  { simpl. by rewrite app_nil_r. }
  apply NoDup_cons in Hnd as [Hq Hnd].
  destruct (addPort key (m, acc) (q, u)) as [m1 acc1] eqn:E1.
  pose proof (addPort_lookup key m acc q u) as H1. rewrite E1 in H1. simpl in H1.
  pose proof (addPort_emitted key m acc q u) as H2. rewrite E1 in H2. simpl in H2.
  rewrite IH by done. subst acc1.
  assert (filter (λ pu, refs m1 pu.1 = ∅) l = filter (λ pu, refs m pu.1 = ∅) l) as ->.
  { apply filter_ext_in. intros [p v] Hin. simpl.
    assert (p ≠ q) by (intros ->; apply Hq; by apply (list_elem_of_fmap_2 fst) in Hin).
    unfold refs. by rewrite H1, decide_False. }
  rewrite filter_cons. simpl.
  destruct (decide (refs m q = ∅)); simpl; by rewrite <-?app_assoc.
Qed.

Lemma deletePorts_emitted key l m :
  NoDup l.*1 →
  (deletePorts key l m).2 = (filter (λ pu, refs m pu.1 ∖ {[key]} = ∅) l).*2.
Proof.
  unfold deletePorts.
  enough (∀ acc, NoDup l.*1 →
    (foldl (deletePort key) (m, acc) l).2 =
      acc ++ (filter (λ pu, refs m pu.1 ∖ {[key]} = ∅) l).*2)
    as Hgen by (intros Hnd; by rewrite Hgen).
  revert m. induction l as [|[q u] l IH]; intros m acc Hnd; cbn [foldl].
  { simpl. by rewrite app_nil_r. }
  apply NoDup_cons in Hnd as [Hq Hnd].
  destruct (deletePort key (m, acc) (q, u)) as [m1 acc1] eqn:E1.
  pose proof (deletePort_lookup key m acc q u) as H1. rewrite E1 in H1. simpl in H1.
  pose proof (deletePort_emitted key m acc q u) as H2. rewrite E1 in H2. simpl in H2.
  rewrite IH by done. subst acc1.
  assert (filter (λ pu, refs m1 pu.1 ∖ {[key]} = ∅) l =
          filter (λ pu, refs m pu.1 ∖ {[key]} = ∅) l) as ->.
  { apply filter_ext_in. intros [p v] Hin. simpl.
    assert (p ≠ q) by (intros ->; apply Hq; by apply (list_elem_of_fmap_2 fst) in Hin).
    unfold refs. by rewrite H1, decide_False. }
  rewrite filter_cons. simpl.
  destruct (decide (refs m q ∖ {[key]} = ∅)); simpl; by rewrite <-?app_assoc.
Qed.
End reference_maps.

(** ** Adding then deleting the ports of a policy *)

Section add_then_delete.
Implicit Types (m : gmap string (gset string)) (ports : gmap string string)
  (key p : string) (l : list (string * string)).

(** A range of the map [ports]: its entries in some order. *)
Lemma range_NoDup ports l : l ≡ₚ map_to_list ports → NoDup l.*1.
Proof. intros ->. apply NoDup_fst_map_to_list. Qed.

Lemma range_elem_of ports l p : l ≡ₚ map_to_list ports → p ∈ l.*1 ↔ p ∈ dom ports.
Proof.
  intros ->. rewrite elem_of_dom, list_elem_of_fmap. split.
  - intros [[q u] [-> Hin]]. apply elem_of_map_to_list in Hin. by exists u.
  - intros [u Hu]. exists (p, u). split; [done|]. by apply elem_of_map_to_list.
Qed.

Lemma refs_addPorts key l m p :
  refs (addPorts key l m).1 p =
    if decide (p ∈ l.*1) then {[key]} ∪ refs m p else refs m p.
Proof. unfold refs at 1. rewrite addPorts_lookup. by destruct (decide (p ∈ l.*1)). Qed.

Lemma refs_deletePorts key l m p :
  refs (deletePorts key l m).1 p =
    if decide (p ∈ l.*1) then refs m p ∖ {[key]} else refs m p.
Proof.
  unfold refs at 1. rewrite deletePorts_lookup.
  destruct (decide (p ∈ l.*1)); [|done].
  by destruct (decide (refs m p ∖ {[key]} = ∅)) as [->|].
Qed.

(** Both loops keep the reference maps free of empty sets. *)
Lemma addPorts_noEmptyRefs key l m : noEmptyRefs m → noEmptyRefs (addPorts key l m).1.
Proof.
  intros Hwf p s. rewrite addPorts_lookup.
  destruct (decide (p ∈ l.*1)); [|by apply Hwf].
  intros [= <-]. set_solver.
Qed.

Lemma deletePorts_noEmptyRefs key l m : noEmptyRefs m → noEmptyRefs (deletePorts key l m).1.
Proof.
  intros Hwf p s. rewrite deletePorts_lookup.
  destruct (decide (p ∈ l.*1)); [|by apply Hwf].
  destruct (decide (refs m p ∖ {[key]} = ∅)); [done|]. by intros [= <-].
Qed.

(** One direction: deleting after adding gives the map back and frees the
    ports that the add reported as new. *)
Lemma addPorts_deletePorts key ports la ld m :
  la ≡ₚ map_to_list ports → ld ≡ₚ map_to_list ports →
  noEmptyRefs m → (∀ p, p ∈ dom ports → key ∉ refs m p) →
  (deletePorts key ld (addPorts key la m).1).1 = m ∧
  (deletePorts key ld (addPorts key la m).1).2 ≡ₚ (addPorts key la m).2.
Proof.
  intros Ha Hd Hwf Hfresh. split.
  - apply map_eq. intros p. rewrite deletePorts_lookup, refs_addPorts.
    pose proof (range_elem_of ports la p Ha) as Hra.
    pose proof (range_elem_of ports ld p Hd) as Hrd.
    destruct (decide (p ∈ ld.*1)) as [Hin|Hin].
    + apply Hrd in Hin. rewrite (decide_True (P := p ∈ la.*1)) by (by apply Hra).
      specialize (Hfresh p Hin).
      replace (({[key]} ∪ refs m p) ∖ {[key]}) with (refs m p) by set_solver.
      destruct (decide (refs m p = ∅)) as [E|E].
      * symmetry. by apply refs_noEmpty.
      * unfold refs in *. destruct (m !! p); [done|]. by destruct E.
    + rewrite addPorts_lookup, decide_False; [done|]. tauto.
  - rewrite deletePorts_emitted, addPorts_emitted by eauto using range_NoDup.
    apply fmap_Permutation. rewrite Ha, Hd.
    erewrite filter_ext_in; [done|]. intros [p u] Hin. simpl.
    apply elem_of_map_to_list in Hin.
    assert (p ∈ dom ports) as Hp by (apply elem_of_dom; eauto).
    rewrite refs_addPorts, (decide_True (P := p ∈ la.*1))
      by (by apply (range_elem_of ports la p Ha)).
    specialize (Hfresh p Hp). set_solver.
Qed.

(** The other direction: adding after deleting gives the map back when
    every port of the map holds the key. *)
Lemma deletePorts_addPorts key ports la ld m :
  la ≡ₚ map_to_list ports → ld ≡ₚ map_to_list ports →
  (∀ p, p ∈ dom ports → key ∈ refs m p) →
  (addPorts key la (deletePorts key ld m).1).1 = m.
Proof.
  intros Ha Hd Hheld. apply map_eq. intros p.
  rewrite addPorts_lookup, refs_deletePorts.
  pose proof (range_elem_of ports la p Ha) as Hra.
  pose proof (range_elem_of ports ld p Hd) as Hrd.
  destruct (decide (p ∈ la.*1)) as [Hin|Hin].
  - apply Hra in Hin. rewrite (decide_True (P := p ∈ ld.*1)) by (by apply Hrd).
    specialize (Hheld p Hin). unfold refs in *.
    destruct (m !! p) as [s|]; simpl in *; [|set_solver].
    f_equal. apply leibniz_equiv. intros x. rewrite elem_of_union, elem_of_difference,
      elem_of_singleton. destruct (decide (x = key)) as [->|]; naive_solver.
  - rewrite deletePorts_lookup, decide_False; [done|]. tauto.
Qed.

Lemma addPortsForPolicyIn_wf np la la' sharedPGs :
  wfDefaultDeny sharedPGs → wfDefaultDeny (addPortsForPolicyIn np la la' sharedPGs).1.1.
Proof.
  intros [Hi He]. unfold addPortsForPolicyIn.
  destruct (isIngress np), (isEgress np);
    repeat match goal with |- context [addPorts ?k ?l ?m] =>
      let E := fresh in
      pose proof (addPorts_noEmptyRefs k l m) as E; destruct (addPorts k l m); simpl in E
    end; split; simpl; auto.
Qed.

Lemma deletePortsForPolicyIn_wf np ld ld' sharedPGs :
  wfDefaultDeny sharedPGs → wfDefaultDeny (deletePortsForPolicyIn np ld ld' sharedPGs).1.1.
Proof.
  intros [Hi He]. unfold deletePortsForPolicyIn.
  destruct (isIngress np), (isEgress np);
    repeat match goal with |- context [deletePorts ?k ?l ?m] =>
      let E := fresh in
      pose proof (deletePorts_noEmptyRefs k l m) as E; destruct (deletePorts k l m); simpl in E
    end; split; simpl; auto.
Qed.

Lemma newDefaultDenyPortGroups_wf : wfDefaultDeny newDefaultDenyPortGroups.
Proof. split; intros p s; simpl; by rewrite lookup_empty. Qed.
End add_then_delete.

(** C3. For every policy and every port map none of whose ports holds the
    policy's key in the record, [addPortsForPolicy] followed by
    [deletePortsForPolicy] on the same map gives back the initial record, hence
    [ingressPortToPolicies] and [egressPortToPolicies], and the freed lists
    hold the same port UUIDs as the new lists of the add.  This holds for
    whatever orders the four map ranges have; the record has the shape the
    two operations maintain (no port with an empty reference set). *)
Theorem addPortsForPolicy_deletePortsForPolicy_identity
    (np : networkPolicy) (portNamesToUUIDs : gmap string string)
    (sharedPGs : defaultDenyPortGroups)
    (addIngressRange addEgressRange delIngressRange delEgressRange : list (string * string)) :
  addIngressRange ≡ₚ map_to_list portNamesToUUIDs →
  addEgressRange ≡ₚ map_to_list portNamesToUUIDs →
  delIngressRange ≡ₚ map_to_list portNamesToUUIDs →
  delEgressRange ≡ₚ map_to_list portNamesToUUIDs →
  wfDefaultDeny sharedPGs →
  (∀ portName, portName ∈ dom portNamesToUUIDs →
     (getKey np ∉ refs (ingressPortToPolicies sharedPGs) portName) ∧
     (getKey np ∉ refs (egressPortToPolicies sharedPGs) portName)) →
  let '(added, newIngressPorts, newEgressPorts) :=
    addPortsForPolicyIn np addIngressRange addEgressRange sharedPGs in
  let '(removed, freedIngressPorts, freedEgressPorts) :=
    deletePortsForPolicyIn np delIngressRange delEgressRange added in
  removed = sharedPGs ∧
  freedIngressPorts ≡ₚ newIngressPorts ∧
  freedEgressPorts ≡ₚ newEgressPorts.
Proof.
  intros Hai Hae Hdi Hde [Hwi Hwe] Hfresh.
  destruct sharedPGs as [ing eg pol]. simpl in *.
  unfold addPortsForPolicyIn, deletePortsForPolicyIn. simpl.
  pose proof (addPorts_deletePorts (getKey np) portNamesToUUIDs
                addIngressRange delIngressRange ing Hai Hdi Hwi
                (λ p Hp, proj1 (Hfresh p Hp))) as [Hi1 Hi2].
  pose proof (addPorts_deletePorts (getKey np) portNamesToUUIDs
                addEgressRange delEgressRange eg Hae Hde Hwe
                (λ p Hp, proj2 (Hfresh p Hp))) as [He1 He2].
  destruct (isIngress np), (isEgress np);
    repeat match goal with
    | |- context [addPorts ?k ?l ?m] => destruct (addPorts k l m); simpl in *
    | |- context [deletePorts ?k ?l ?m] => destruct (deletePorts k l m); simpl in *
    end; subst; done.
Qed.

(** ** Join: a failed creation leaves no record *)

Section join_leave_basics.
Context `{Externals}.

(** The creation of the two port groups and four ACLs fails exactly when
    one of its two operation builders or its transaction fails; the
    database is then as it was. *)
Lemma createDefaultDenyPGAndACLs_fails namespace policy aclLogging f w :
  let r := createDefaultDenyPGAndACLs namespace policy aclLogging f w in
  (is_Some r.1 ↔ opsFail f 0 = true ∨ opsFail f 1 = true ∨ transactFails f = true) ∧
  (is_Some r.1 → nbClient r.2 = nbClient w) ∧
  sharedNetpolPortGroups r.2 = sharedNetpolPortGroups w ∧
  networkPolicies r.2 = networkPolicies w.
Proof.
  unfold createDefaultDenyPGAndACLs, buildDenyACLs, buildOps, TransactAndCheck. simpl.
  destruct (opsFail f 0), (opsFail f 1), (transactFails f); simpl;
    (split; [split; [intros [? ?]; try discriminate; tauto | intros; eauto; naive_solver]|]);
    (split; [intros [? ?]; try done; discriminate | done]).
Qed.
End join_leave_basics.

(** C7. A policy joins a namespace that has no shared default-deny record
    and the creation of the two port groups and four ACLs fails: the fresh
    record is removed again and an error is returned; the store is the one
    from before the call (no record for the namespace, the policy key
    registered nowhere), and so are the database and the policy registry. *)
Theorem addPolicyToDefaultPortGroups_creation_fails `{Externals}
    (np : networkPolicy) (aclLogging : ACLLoggingLevels) (f : Faults) (w : World) :
  sharedNetpolPortGroups w !! namespace np = None →
  opsFail f 0 = true ∨ opsFail f 1 = true ∨ transactFails f = true →
  let '(err, w') := addPolicyToDefaultPortGroups np aclLogging f w in
  is_Some err ∧
  sharedNetpolPortGroups w' !! namespace np = None ∧
  sharedNetpolPortGroups w' = sharedNetpolPortGroups w ∧
  nbClient w' = nbClient w ∧
  networkPolicies w' = networkPolicies w.
Proof.
  intros Hnone Hfail. unfold addPolicyToDefaultPortGroups. simpl.
  rewrite Hnone. rewrite bool_decide_eq_false_2 by (by intros [? ?]).
  set (w1 := setShared _ _).
  destruct (createDefaultDenyPGAndACLs_fails (namespace np) (name np) aclLogging f w1)
    as (Hiff & Hnb & Hst & Hnp).
  destruct (createDefaultDenyPGAndACLs _ _ _ _ _) as [[err|] w2]; simpl in *.
  - assert (sharedNetpolPortGroups w2 = <[namespace np := newDefaultDenyPortGroups]>
                                          (sharedNetpolPortGroups w)) as Hw2 by done.
    repeat split; [by eexists | by rewrite lookup_delete_eq | | by rewrite Hnb | done].
    rewrite Hw2. by apply delete_insert_id.
  - destruct (proj2 Hiff Hfail) as [? ?]. discriminate.
Qed.

(** ** The record of the namespace is absent *)

(** C10. With a non-empty port map and no shared default-deny record for the
    namespace, [denyPGDeletePorts] does not fail on that account: the store is
    left as it is, the pending operations of the caller are submitted in one
    transaction under the key lock, and the result is [nil] unless that
    transaction fails.  [denyPGAddPorts] in the same state returns an error
    and submits nothing. *)
Theorem denyPGDeletePorts_record_absent `{Externals}
    (np : networkPolicy) (portNamesToUUIDs : gmap string string) (useLocalPods : bool)
    (ops : list Operation) (f : Faults) (w : World) :
  sharedNetpolPortGroups w !! namespace np = None →
  size (if useLocalPods then localPods np else portNamesToUUIDs) ≠ 0 →
  let '(err, w') := denyPGDeletePorts np portNamesToUUIDs useLocalPods ops f w in
  let '(errAdd, wAdd) := denyPGAddPorts np portNamesToUUIDs ops f w in
  (sharedNetpolPortGroups w' = sharedNetpolPortGroups w ∧
   trace w' = trace w ++ [EvLockKey (namespace np);
                          EvTransact ops (negb (transactFails f));
                          EvUnlockKey (namespace np)] ∧
   nbClient w' = (if transactFails f then nbClient w else foldl applyOp (nbClient w) ops) ∧
   (err = None ↔ transactFails f = false)) ∧
  (is_Some errAdd ∧
   sharedNetpolPortGroups wAdd = sharedNetpolPortGroups w ∧
   nbClient wAdd = nbClient w ∧
   trace wAdd = trace w ++ [EvLockKey (namespace np); EvUnlockKey (namespace np)]).
Proof.
  intros Hnone Hsize. unfold denyPGDeletePorts, denyPGAddPorts.
  rewrite decide_True by done. simpl. rewrite Hnone.
  unfold TransactAndCheck. destruct (transactFails f); simpl;
    rewrite <-?app_assoc; simpl; repeat split; eauto; try done.
Qed.

(** ** The deferred inverse call *)

Section inverse_call.
Implicit Types (np : networkPolicy) (ports : gmap string string)
  (s : defaultDenyPortGroups).

Lemma addPortsForPolicy_wf np ports s :
  wfDefaultDeny s → wfDefaultDeny (addPortsForPolicy np ports s).1.1.
Proof. apply addPortsForPolicyIn_wf. Qed.

Lemma deletePortsForPolicy_wf np ports s :
  wfDefaultDeny s → wfDefaultDeny (deletePortsForPolicy np ports s).1.1.
Proof. apply deletePortsForPolicyIn_wf. Qed.

(** The inverse call of [denyPGAddPorts] undoes the add on fresh ports. *)
Lemma deletePortsForPolicy_undoes_add np ports s :
  wfDefaultDeny s → freshFor np ports s →
  (deletePortsForPolicy np ports (addPortsForPolicy np ports s).1.1).1.1 = s.
Proof.
  intros [Hwi Hwe] Hfresh. destruct s as [ing eg pol].
  unfold deletePortsForPolicy, addPortsForPolicy, deletePortsForPolicyIn,
    addPortsForPolicyIn. simpl in *.
  assert (isIngress np = true →
    (deletePorts (getKey np) (map_to_list ports)
       (addPorts (getKey np) (map_to_list ports) ing).1).1 = ing) as Hi.
  { intros E. eapply addPorts_deletePorts; eauto. intros p Hp. by apply Hfresh. }
  assert (isEgress np = true →
    (deletePorts (getKey np) (map_to_list ports)
       (addPorts (getKey np) (map_to_list ports) eg).1).1 = eg) as He.
  { intros E. eapply addPorts_deletePorts; eauto. intros p Hp. by apply Hfresh. }
  destruct (isIngress np), (isEgress np);
    repeat match goal with
    | |- context [addPorts ?k ?l ?m] => destruct (addPorts k l m); simpl in *
    | |- context [deletePorts ?k ?l ?m] => destruct (deletePorts k l m); simpl in *
    end; rewrite ?Hi, ?He by done; done.
Qed.

(** The inverse call of [denyPGDeletePorts] undoes the delete on held ports. *)
Lemma addPortsForPolicy_undoes_delete np ports s :
  heldBy np ports s →
  (addPortsForPolicy np ports (deletePortsForPolicy np ports s).1.1).1.1 = s.
Proof.
  intros Hheld. destruct s as [ing eg pol].
  unfold deletePortsForPolicy, addPortsForPolicy, deletePortsForPolicyIn,
    addPortsForPolicyIn. simpl in *.
  assert (isIngress np = true →
    (addPorts (getKey np) (map_to_list ports)
       (deletePorts (getKey np) (map_to_list ports) ing).1).1 = ing) as Hi.
  { intros E. eapply deletePorts_addPorts; eauto. intros p Hp. by apply Hheld. }
  assert (isEgress np = true →
    (addPorts (getKey np) (map_to_list ports)
       (deletePorts (getKey np) (map_to_list ports) eg).1).1 = eg) as He.
  { intros E. eapply deletePorts_addPorts; eauto. intros p Hp. by apply Hheld. }
  destruct (isIngress np), (isEgress np);
    repeat match goal with
    | |- context [deletePorts ?k ?l ?m] => destruct (deletePorts k l m); simpl in *
    | |- context [addPorts ?k ?l ?m] => destruct (addPorts k l m); simpl in *
    end; rewrite ?Hi, ?He by done; done.
Qed.

Lemma deletePortsForPolicy_empty np s : (deletePortsForPolicy np ∅ s).1.1 = s.
Proof.
  unfold deletePortsForPolicy, deletePortsForPolicyIn. rewrite map_to_list_empty.
  destruct s; by destruct (isIngress np), (isEgress np).
Qed.
End inverse_call.

Section deny_runs.
Context `{Externals}.
Implicit Types (np : networkPolicy) (ports : gmap string string)
  (s : defaultDenyPortGroups) (ops : list Operation) (f : Faults) (w : World).

(** What [denyPGAddPorts] returns and leaves behind when the record exists. *)
Lemma denyPGAddPorts_run np ports ops f w s s' newIngress newEgress :
  sharedNetpolPortGroups w !! namespace np = Some s →
  addPortsForPolicy np ports s = (s', newIngress, newEgress) →
  let dbChange := bool_decide (length newIngress ≠ 0 ∨ length newEgress ≠ 0) in
  let failed := runFails dbChange f in
  let r := denyPGAddPorts np ports ops f w in
  (is_Some r.1 ↔ failed = true) ∧
  sharedNetpolPortGroups r.2 =
    <[namespace np := if failed then (deletePortsForPolicy np ports s').1.1 else s']>
      (sharedNetpolPortGroups w) ∧
  nbClient r.2 =
    (if failed then nbClient w
     else foldl applyOp (nbClient w)
            (if dbChange
             then ops ++ [OpAddPortsToPortGroup
                            (defaultDenyPortGroupName (namespace np) ingressDefaultDenySuffix)
                            newIngress;
                          OpAddPortsToPortGroup
                            (defaultDenyPortGroupName (namespace np) egressDefaultDenySuffix)
                            newEgress]
             else ops)) ∧
  networkPolicies r.2 = networkPolicies w.
Proof.
  intros Hs Hadd. unfold denyPGAddPorts, runFails. simpl. rewrite Hs, Hadd.
  unfold denyPGAddPorts_deferred, buildOps, TransactAndCheck.
  destruct (bool_decide (length newIngress ≠ 0 ∨ length newEgress ≠ 0));
    destruct (opsFail f 0), (opsFail f 1), (transactFails f); simpl;
    rewrite ?insert_insert_eq, <-?app_assoc; simpl;
    (split; [split; [by intros [? [=]] || done | by intros [=] || by eexists]|]);
    done.
Qed.

(** What [denyPGDeletePorts] returns and leaves behind when the record
    exists and there are ports to delete. *)
Lemma denyPGDeletePorts_run np (ports0 : gmap string string) (useLocalPods : bool)
    ops f w s s' freedIngress freedEgress :
  let ports := if useLocalPods then localPods np else ports0 in
  size ports ≠ 0 →
  sharedNetpolPortGroups w !! namespace np = Some s →
  deletePortsForPolicy np ports s = (s', freedIngress, freedEgress) →
  let dbChange := bool_decide (length freedIngress ≠ 0 ∨ length freedEgress ≠ 0) in
  let failed := runFails dbChange f in
  let r := denyPGDeletePorts np ports0 useLocalPods ops f w in
  (is_Some r.1 ↔ failed = true) ∧
  sharedNetpolPortGroups r.2 =
    <[namespace np := if failed then (addPortsForPolicy np ports s').1.1 else s']>
      (sharedNetpolPortGroups w) ∧
  nbClient r.2 =
    (if failed then nbClient w
     else foldl applyOp (nbClient w)
            (if dbChange
             then ops ++ [OpDeletePortsFromPortGroup
                            (defaultDenyPortGroupName (namespace np) ingressDefaultDenySuffix)
                            freedIngress;
                          OpDeletePortsFromPortGroup
                            (defaultDenyPortGroupName (namespace np) egressDefaultDenySuffix)
                            freedEgress]
             else ops)) ∧
  networkPolicies r.2 = networkPolicies w.
Proof.
  intros ports Hsize Hs Hdel. unfold denyPGDeletePorts, runFails. fold ports.
  rewrite decide_True by done. simpl. rewrite Hs, Hdel.
  unfold denyPGDeletePorts_deferred, buildOps, TransactAndCheck.
  destruct (bool_decide (length freedIngress ≠ 0 ∨ length freedEgress ≠ 0));
    destruct (opsFail f 0), (opsFail f 1), (transactFails f); simpl;
    rewrite ?insert_insert_eq, <-?app_assoc; simpl;
    (split; [split; [by intros [? [=]] || done | by intros [=] || by eexists]|]);
    done.
Qed.

(** Without ports, [denyPGDeletePorts] only submits the pending operations. *)
Lemma denyPGDeletePorts_no_ports np (ports0 : gmap string string) (useLocalPods : bool)
    ops f w :
  size (if useLocalPods then localPods np else ports0) = 0 →
  denyPGDeletePorts np ports0 useLocalPods ops f w =
    match TransactAndCheck (transactFails f) ops w with
    | (Some err, w) =>
        (Some (wrapErr "unable to transact del ports from default deny port groups" err), w)
    | (None, w) => (None, w)
    end.
Proof.
  intros Hsize. unfold denyPGDeletePorts.
  rewrite decide_False by (intros Hn; by apply Hn). done.
Qed.
End deny_runs.

(** C4, as amended.  The record of the namespace exists, no port of the map
    given to [denyPGAddPorts] holds the key of the policy yet, and every port
    of the map given to [denyPGDeletePorts] holds it (each in the directions
    of the policy).  Then a failed transaction makes the function return an
    error; on every error the deferred inverse call has put the reference maps
    of the store back to what they were before the call and the database is
    unchanged; and on success the store holds the updated counters. *)
Theorem denyPG_failure_restores_counters `{Externals}
    (np : networkPolicy) (addedPorts deletedPorts : gmap string string)
    (useLocalPods : bool) (ops : list Operation) (f : Faults) (w : World)
    (sharedPGs : defaultDenyPortGroups) :
  sharedNetpolPortGroups w !! namespace np = Some sharedPGs →
  wfDefaultDeny sharedPGs →
  freshFor np addedPorts sharedPGs →
  heldBy np (if useLocalPods then localPods np else deletedPorts) sharedPGs →
  let '(errAdd, wAdd) := denyPGAddPorts np addedPorts ops f w in
  let '(errDel, wDel) := denyPGDeletePorts np deletedPorts useLocalPods ops f w in
  ((transactFails f = true → is_Some errAdd) ∧
   (is_Some errAdd →
      sharedNetpolPortGroups wAdd = sharedNetpolPortGroups w ∧ nbClient wAdd = nbClient w) ∧
   (errAdd = None →
      sharedNetpolPortGroups wAdd =
        <[namespace np := (addPortsForPolicy np addedPorts sharedPGs).1.1]>
          (sharedNetpolPortGroups w))) ∧
  ((transactFails f = true → is_Some errDel) ∧
   (is_Some errDel →
      sharedNetpolPortGroups wDel = sharedNetpolPortGroups w ∧ nbClient wDel = nbClient w) ∧
   (errDel = None →
      sharedNetpolPortGroups wDel =
        <[namespace np :=
            (deletePortsForPolicy np (if useLocalPods then localPods np else deletedPorts)
               sharedPGs).1.1]>
          (sharedNetpolPortGroups w))).
Proof.
  intros Hs Hwf Hfresh Hheld.
  destruct (denyPGAddPorts np addedPorts ops f w) as [errAdd wAdd] eqn:EA.
  destruct (denyPGDeletePorts np deletedPorts useLocalPods ops f w) as [errDel wDel] eqn:ED.
  split.
  - destruct (addPortsForPolicy np addedPorts sharedPGs) as [[s' ni] ne] eqn:Eadd.
    pose proof (denyPGAddPorts_run np addedPorts ops f w _ _ _ _ Hs Eadd) as Hrun.
    rewrite EA in Hrun. simpl in Hrun. destruct Hrun as (Herr & Hst & Hnb & _).
    pose proof (deletePortsForPolicy_undoes_add np addedPorts sharedPGs Hwf Hfresh) as Hundo.
    rewrite Eadd in Hundo. simpl in Hundo.
    split; [|split].
    + intros Htx. apply Herr. unfold runFails. rewrite Htx.
      destruct (bool_decide _); [by rewrite !orb_true_r | done].
    + intros Hsome. apply Herr in Hsome. rewrite Hsome in Hst, Hnb.
      split; [|done]. rewrite Hst, Hundo. by apply insert_id.
    + intros ->. destruct (runFails _ f); [|done].
      destruct (proj2 Herr eq_refl) as [? [=]].
  - set (ports := if useLocalPods then localPods np else deletedPorts) in *.
    destruct (decide (size ports = 0)) as [Hz|Hnz].
    + rewrite (denyPGDeletePorts_no_ports np deletedPorts useLocalPods ops f w Hz) in ED.
      apply map_size_empty_inv in Hz. rewrite Hz, deletePortsForPolicy_empty.
      unfold TransactAndCheck in ED.
      destruct (transactFails f); simplify_eq; simpl.
      * split; [by eexists|]. split; [done|]. done.
      * split; [done|]. split; [by intros [? [=]]|]. intros _. symmetry. by apply insert_id.
    + destruct (deletePortsForPolicy np ports sharedPGs) as [[s' fi] fe] eqn:Edel.
      pose proof (denyPGDeletePorts_run np deletedPorts useLocalPods ops f w _ _ _ _
                    Hnz Hs Edel) as Hrun.
      rewrite ED in Hrun. simpl in Hrun. destruct Hrun as (Herr & Hst & Hnb & _).
      pose proof (addPortsForPolicy_undoes_delete np ports sharedPGs Hheld) as Hundo.
      rewrite Edel in Hundo. simpl in Hundo.
      split; [|split].
      * intros Htx. apply Herr. unfold runFails. rewrite Htx.
        destruct (bool_decide _); [by rewrite !orb_true_r | done].
      * intros Hsome. apply Herr in Hsome. rewrite Hsome in Hst, Hnb.
        split; [|done]. fold ports in Hst. rewrite Hst, Hundo. by apply insert_id.
      * intros ->. destruct (runFails _ f); [|done].
        destruct (proj2 Herr eq_refl) as [? [=]].
Qed.

(** ** Names *)

Section names.
Implicit Types (a b s : string).

Lemma list_ascii_of_string_app a b :
  String.list_ascii_of_string (a +:+ b) = String.list_ascii_of_string a ++ String.list_ascii_of_string b.
Proof. induction a as [|c a IH]; simpl; [done|]. by rewrite IH. Qed.

Lemma list_ascii_of_string_inj a b :
  String.list_ascii_of_string a = String.list_ascii_of_string b → a = b.
Proof.
  intros E. rewrite <-(String.string_of_list_ascii_of_string a), <-(String.string_of_list_ascii_of_string b).
  by rewrite E.
Qed.

Lemma string_app_inj_r a b s : a +:+ s = b +:+ s → a = b.
Proof.
  intros E. apply list_ascii_of_string_inj.
  apply (f_equal String.list_ascii_of_string) in E. rewrite !list_ascii_of_string_app in E.
  by apply app_inv_tail in E.
Qed.

Lemma policyKey_inj ns n1 n2 : policyKey ns n1 = policyKey ns n2 → n1 = n2.
Proof. unfold policyKey. intros E. by do 2 apply String.app_inj in E. Qed.

Lemma getKey_policyKey np : getKey np = policyKey (namespace np) (name np).
Proof. done. Qed.

(** The ingress and the egress suffix never give the same name. *)
Lemma suffixes_disjoint a b :
  a +:+ "_" +:+ ingressDefaultDenySuffix ≠ b +:+ "_" +:+ egressDefaultDenySuffix.
Proof.
  intros E. apply (f_equal String.list_ascii_of_string) in E.
  rewrite !list_ascii_of_string_app in E.
  rewrite (assoc_L (++) (String.list_ascii_of_string a)) in E.
  apply app_inj_2 in E as [_ E]; [|done]. vm_compute in E. discriminate.
Qed.

Context `{Externals}.

Lemma defaultDenyPortGroupName_inj ns1 ns2 s1 s2 :
  Inj (=) (=) hashedPortGroup →
  s1 ∈ [ingressDefaultDenySuffix; egressDefaultDenySuffix] →
  s2 ∈ [ingressDefaultDenySuffix; egressDefaultDenySuffix] →
  defaultDenyPortGroupName ns1 s1 = defaultDenyPortGroupName ns2 s2 → ns1 = ns2 ∧ s1 = s2.
Proof.
  intros Hinj Hs1 Hs2 E. unfold defaultDenyPortGroupName in E.
  rewrite !elem_of_cons, elem_of_nil in Hs1, Hs2.
  destruct Hs1 as [->|[->|[]]], Hs2 as [->|[->|[]]].
  - split; [|done]. apply Hinj. eapply string_app_inj_r. exact E.
  - by apply suffixes_disjoint in E.
  - symmetry in E. by apply suffixes_disjoint in E.
  - split; [|done]. apply Hinj. eapply string_app_inj_r. exact E.
Qed.

Lemma defaultDenyPortGroupName_ne_directions ns1 ns2 :
  defaultDenyPortGroupName ns1 ingressDefaultDenySuffix ≠
  defaultDenyPortGroupName ns2 egressDefaultDenySuffix.
Proof. apply suffixes_disjoint. Qed.
End names.

(** ** Join and leave keep I2 *)

Section membership.
Context `{Externals}.
Implicit Types (np : networkPolicy) (f : Faults) (w : World)
  (joined : gset (string * string)) (ns : string).

(** A namespace whose record, port groups and joined policies are untouched
    keeps I2. *)
Lemma I2in_frame (t t' : bool) w w' joined joined' ns :
  sharedNetpolPortGroups w' !! ns = sharedNetpolPortGroups w !! ns →
  nbPortGroups (nbClient w') !! defaultDenyPortGroupName ns ingressDefaultDenySuffix =
    nbPortGroups (nbClient w) !! defaultDenyPortGroupName ns ingressDefaultDenySuffix →
  nbPortGroups (nbClient w') !! defaultDenyPortGroupName ns egressDefaultDenySuffix =
    nbPortGroups (nbClient w) !! defaultDenyPortGroupName ns egressDefaultDenySuffix →
  (∀ n, (ns, n) ∈ joined' ↔ (ns, n) ∈ joined) →
  (t' = true → t = true) →
  I2in t w joined ns → I2in t' w' joined' ns.
Proof.
  unfold I2in. intros -> -> -> HJ Ht.
  destruct (sharedNetpolPortGroups w !! ns) as [r|].
  - intros (Hk & Htight & Hi & He). repeat split; try done.
    + intros Hin. apply Hk in Hin as (n & Hn & ->). exists n. by rewrite HJ.
    + intros (n & Hn & ->). apply Hk. exists n. by rewrite <-HJ.
    + intros Ht'. destruct (Htight (Ht Ht')) as [n Hn]. exists n. by rewrite HJ.
  - intros (Hnone & Hi & He). repeat split; try done. intros n. rewrite HJ. apply Hnone.
Qed.

(** Join when the record exists: the key is added, nothing else happens. *)
Lemma addPolicyToDefaultPortGroups_loaded np aclLogging f w sharedPGs :
  sharedNetpolPortGroups w !! namespace np = Some sharedPGs →
  let r := addPolicyToDefaultPortGroups np aclLogging f w in
  r.1 = None ∧
  sharedNetpolPortGroups r.2 =
    <[namespace np := setPolicies <[getKey np := true]> sharedPGs]> (sharedNetpolPortGroups w) ∧
  nbClient r.2 = nbClient w.
Proof.
  intros Hs. unfold addPolicyToDefaultPortGroups. simpl. rewrite Hs.
  rewrite bool_decide_eq_true_2 by (by eexists). simpl.
  repeat split. apply map_eq. intros k. destruct (decide (k = namespace np)) as [->|].
  - by rewrite lookup_alter_eq, lookup_insert_eq, Hs.
  - by rewrite lookup_alter_ne, lookup_insert_ne.
Qed.

(** Join when the record is missing and the creation succeeds. *)
Lemma addPolicyToDefaultPortGroups_fresh np aclLogging f w :
  sharedNetpolPortGroups w !! namespace np = None →
  opsFail f 0 = false → opsFail f 1 = false → transactFails f = false →
  let r := addPolicyToDefaultPortGroups np aclLogging f w in
  let ingressPGName := defaultDenyPortGroupName (namespace np) ingressDefaultDenySuffix in
  let egressPGName := defaultDenyPortGroupName (namespace np) egressDefaultDenySuffix in
  r.1 = None ∧
  sharedNetpolPortGroups r.2 =
    <[namespace np := setPolicies <[getKey np := true]> newDefaultDenyPortGroups]>
      (sharedNetpolPortGroups w) ∧
  ∃ ingressPG egressPG,
    pgPorts ingressPG = ∅ ∧ pgPorts egressPG = ∅ ∧
    nbPortGroups (nbClient r.2) =
      <[egressPGName := egressPG]> (<[ingressPGName := ingressPG]> (nbPortGroups (nbClient w))).
Proof.
  intros Hs F0 F1 Ft. unfold addPolicyToDefaultPortGroups. simpl. rewrite Hs.
  rewrite bool_decide_eq_false_2 by (by intros [? ?]).
  unfold createDefaultDenyPGAndACLs, buildDenyACLs, buildOps, TransactAndCheck,
    AddConfigDurationRecord.
  rewrite F0, F1, Ft. simpl. split; [done|]. split.
  - apply map_eq. intros k. destruct (decide (k = namespace np)) as [->|].
    + by rewrite lookup_alter_eq, !lookup_insert_eq.
    + by rewrite lookup_alter_ne, !lookup_insert_ne.
  - do 2 eexists. split; [|split]; [| |by destruct (opsFail f 2)]; done.
Qed.

(** Join when the record is missing and the creation fails. *)
Lemma addPolicyToDefaultPortGroups_fresh_fails np aclLogging f w :
  sharedNetpolPortGroups w !! namespace np = None →
  opsFail f 0 = true ∨ opsFail f 1 = true ∨ transactFails f = true →
  let r := addPolicyToDefaultPortGroups np aclLogging f w in
  is_Some r.1 ∧
  sharedNetpolPortGroups r.2 = sharedNetpolPortGroups w ∧
  nbClient r.2 = nbClient w.
Proof.
  intros Hnone Hfail. unfold addPolicyToDefaultPortGroups. simpl.
  rewrite Hnone. rewrite bool_decide_eq_false_2 by (by intros [? ?]).
  set (w1 := setShared _ _).
  destruct (createDefaultDenyPGAndACLs_fails (namespace np) (name np) aclLogging f w1)
    as (Hiff & Hnb & Hst & Hnp).
  destruct (createDefaultDenyPGAndACLs _ _ _ _ _) as [[err|] w2]; simpl in *.
  - split; [by eexists|]. split; [|by rewrite Hnb].
    rewrite Hst. subst w1. simpl. by apply delete_insert_id.
  - destruct (proj2 Hiff Hfail) as [? ?]. discriminate.
Qed.

(** Leave when the record exists. *)
Lemma delPolicyFromDefaultPortGroups_run np f w sharedPGs :
  sharedNetpolPortGroups w !! namespace np = Some sharedPGs →
  let r := delPolicyFromDefaultPortGroups np f w in
  let sharedPGs' := setPolicies (delete (getKey np)) sharedPGs in
  let ingressPGName := defaultDenyPortGroupName (namespace np) ingressDefaultDenySuffix in
  let egressPGName := defaultDenyPortGroupName (namespace np) egressDefaultDenySuffix in
  if decide (size (policies sharedPGs') = 0)
  then
    if opsFail f 0 || transactFails f
    then is_Some r.1 ∧
         sharedNetpolPortGroups r.2 = <[namespace np := sharedPGs']> (sharedNetpolPortGroups w) ∧
         nbClient r.2 = nbClient w
    else r.1 = None ∧
         sharedNetpolPortGroups r.2 = delete (namespace np) (sharedNetpolPortGroups w) ∧
         nbPortGroups (nbClient r.2) =
           delete egressPGName (delete ingressPGName (nbPortGroups (nbClient w)))
  else r.1 = None ∧
       sharedNetpolPortGroups r.2 = <[namespace np := sharedPGs']> (sharedNetpolPortGroups w) ∧
       nbClient r.2 = nbClient w.
Proof.
  intros Hs. unfold delPolicyFromDefaultPortGroups. simpl. rewrite Hs.
  destruct (decide (size _ = 0)); [|done].
  unfold deleteDefaultDenyPGAndACLs, buildOps, TransactAndCheck.
  destruct (opsFail f 0), (transactFails f); simpl; try (split; [by eexists|done]).
  split; [done|]. split; [|done]. by rewrite delete_insert_eq.
Qed.

(** Leave when the record is missing. *)
Lemma delPolicyFromDefaultPortGroups_absent np f w :
  sharedNetpolPortGroups w !! namespace np = None →
  let r := delPolicyFromDefaultPortGroups np f w in
  r.1 = None ∧ sharedNetpolPortGroups r.2 = sharedNetpolPortGroups w ∧
  nbClient r.2 = nbClient w.
Proof. intros Hs. unfold delPolicyFromDefaultPortGroups. simpl. by rewrite Hs. Qed.
End membership.

Section membership_invariant.
Context `{Externals}.
Implicit Types (np : networkPolicy) (f : Faults) (w : World)
  (joined : gset (string * string)) (pending : gset string) (ns : string).

(** A call changes [pending] only at the namespace of its policy. *)
Lemma pendingAfter_other c err pending ns :
  ns ≠ callNamespace c →
  bool_decide (ns ∉ pendingAfter c err pending) = bool_decide (ns ∉ pending).
Proof.
  intros Hne. apply bool_decide_ext.
  destruct c as [np l f|np f], err; simpl in *; set_solver.
Qed.

Lemma tight_difference pending ns ns0 :
  ns ≠ ns0 → bool_decide (ns ∉ pending ∖ {[ns0]}) = bool_decide (ns ∉ pending).
Proof. intros Hne. apply bool_decide_ext. set_solver. Qed.

Lemma tight_union pending ns ns0 :
  ns ≠ ns0 → bool_decide (ns ∉ {[ns0]} ∪ pending) = bool_decide (ns ∉ pending).
Proof. intros Hne. apply bool_decide_ext. set_solver. Qed.

Ltac other_namespace :=
  first [rewrite pendingAfter_other by done
        |rewrite tight_difference by done
        |rewrite tight_union by done].

Lemma I2_join np aclLogging f w joined pending :
  Inj (=) (=) hashedPortGroup →
  I2 pending w joined →
  let r := addPolicyToDefaultPortGroups np aclLogging f w in
  I2 (pendingAfter (Join np aclLogging f) r.1 pending) r.2
     (joinedAfter (Join np aclLogging f) r.1 joined).
Proof.
  intros Hinj HI. destruct (sharedNetpolPortGroups w !! namespace np) as [s|] eqn:Hs.
  - (* the record exists *)
    destruct (addPolicyToDefaultPortGroups_loaded np aclLogging f w s Hs) as (Herr & Hst & Hnb).
    destruct (addPolicyToDefaultPortGroups np aclLogging f w) as [err w']. simpl in *.
    subst err. intros ns. destruct (decide (ns = namespace np)) as [->|Hne].
    + specialize (HI (namespace np)). unfold I2in in *. rewrite Hst, lookup_insert_eq, Hnb.
      rewrite Hs in HI. destruct HI as (Hk & Ht & Hi & He). simpl.
      split; [|split; [|by split]].
      * intros key. rewrite dom_insert_L, elem_of_union, elem_of_singleton. split.
        -- intros [->|Hin].
           ++ exists (name np). split; [set_solver|done].
           ++ apply Hk in Hin as (n & Hn & ->). exists n. split; [set_solver|done].
        -- intros (n & Hn & ->). apply elem_of_union in Hn as [Hn|Hn].
           ++ left. apply elem_of_singleton in Hn. by injection Hn as ->.
           ++ right. apply Hk. by exists n.
      * intros _. exists (name np). set_solver.
    + other_namespace.
      eapply (I2in_frame (bool_decide (ns ∉ pending)) _ w); [by rewrite Hst, lookup_insert_ne | by rewrite Hnb ..
        | | done | apply HI].
      intros n. simpl. rewrite elem_of_union, elem_of_singleton. split; [|by right].
      intros [[= ? ?]|?]; [by subst|done].
  - destruct (decide (opsFail f 0 = false ∧ opsFail f 1 = false ∧ transactFails f = false))
      as [(F0 & F1 & Ft)|Hfail].
    + (* the record is created *)
      destruct (addPolicyToDefaultPortGroups_fresh np aclLogging f w Hs F0 F1 Ft)
        as (Herr & Hst & ipg & epg & _ & _ & Hpg).
      destruct (addPolicyToDefaultPortGroups np aclLogging f w) as [err w']. simpl in *.
      subst err. intros ns. destruct (decide (ns = namespace np)) as [->|Hne].
      * specialize (HI (namespace np)). unfold I2in in *. rewrite Hst, lookup_insert_eq, Hpg.
        rewrite Hs in HI. destruct HI as (Hnone & _ & _). simpl.
        rewrite lookup_insert_eq.
        rewrite lookup_insert_ne, lookup_insert_eq
          by (apply not_eq_sym, defaultDenyPortGroupName_ne_directions).
        split; [|split; [|by split; eexists]].
        -- intros key.
           rewrite dom_insert_L, dom_empty_L, elem_of_union, elem_of_singleton. split.
           ++ intros [->|Hin]; [|set_solver]. exists (name np). split; [set_solver|done].
           ++ intros (n & Hn & ->). apply elem_of_union in Hn as [Hn|Hn];
                [|by destruct (Hnone n)].
              left. apply elem_of_singleton in Hn. by injection Hn as ->.
        -- intros _. exists (name np). set_solver.
      * assert (∀ s, s ∈ [ingressDefaultDenySuffix; egressDefaultDenySuffix] →
          nbPortGroups (nbClient w') !! defaultDenyPortGroupName ns s =
          nbPortGroups (nbClient w) !! defaultDenyPortGroupName ns s) as Hsame.
        { intros s Hsuf. rewrite Hpg, !lookup_insert_ne; [done|..];
            intros E; apply defaultDenyPortGroupName_inj in E as [? ?];
            try done; set_solver. }
        other_namespace.
        eapply (I2in_frame (bool_decide (ns ∉ pending)) _ w);
          [by rewrite Hst, lookup_insert_ne | apply Hsame; set_solver | apply Hsame; set_solver
          | | done | apply HI].
        intros n. simpl. rewrite elem_of_union, elem_of_singleton. split; [|by right].
        intros [[= ? ?]|?]; [by subst|done].
    + (* the creation fails *)
      assert (opsFail f 0 = true ∨ opsFail f 1 = true ∨ transactFails f = true) as Hf.
      { destruct (opsFail f 0), (opsFail f 1), (transactFails f); auto.
        destruct Hfail; auto. }
      destruct (addPolicyToDefaultPortGroups_fresh_fails np aclLogging f w Hs Hf)
        as ([e Herr] & Hst & Hnb).
      destruct (addPolicyToDefaultPortGroups np aclLogging f w) as [err w']. simpl in *.
      subst err. simpl. intros ns.
      eapply (I2in_frame (bool_decide (ns ∉ pending)) _ w); [by rewrite Hst | by rewrite Hnb .. | done | done | apply HI].
Qed.

Lemma I2_leave np f w joined pending :
  Inj (=) (=) hashedPortGroup →
  I2 pending w joined →
  let r := delPolicyFromDefaultPortGroups np f w in
  I2 (pendingAfter (Leave np f) r.1 pending) r.2 (joinedAfter (Leave np f) r.1 joined).
Proof.
  intros Hinj HI.
  assert (∀ ns n, ns ≠ namespace np →
    (ns, n) ∈ joined ∖ {[(namespace np, name np)]} ↔ (ns, n) ∈ joined) as Hother.
  { intros ns n Hne. rewrite elem_of_difference, elem_of_singleton. split; [tauto|].
    intros Hin. split; [done|]. by intros [= ? ?]. }
  destruct (sharedNetpolPortGroups w !! namespace np) as [s|] eqn:Hs.
  - pose proof (delPolicyFromDefaultPortGroups_run np f w s Hs) as Hrun.
    destruct (delPolicyFromDefaultPortGroups np f w) as [err w']. simpl in *.
    pose proof (HI (namespace np)) as HI0. unfold I2in in HI0. rewrite Hs in HI0.
    destruct HI0 as (Hk & Ht & Hi & He).
    assert (∀ key, key ∈ dom (delete (getKey np) (policies s)) ↔
              ∃ n, (namespace np, n) ∈ joined ∖ {[(namespace np, name np)]} ∧
                   key = policyKey (namespace np) n) as Hk'.
    { intros key. rewrite dom_delete_L, elem_of_difference, elem_of_singleton, Hk. split.
      - intros [(n & Hn & ->) Hne]. exists n. split; [|done].
        apply elem_of_difference. split; [done|]. rewrite elem_of_singleton.
        intros [= ->]. by apply Hne.
      - intros (n & Hn & ->). apply elem_of_difference in Hn as [Hn Hne]. split; [by exists n|].
        rewrite getKey_policyKey. intros E%policyKey_inj. subst n.
        apply Hne. by apply elem_of_singleton. }
    destruct (decide (size (delete (getKey np) (policies s)) = 0)) as [Hz|Hnz].
    + destruct (opsFail f 0 || transactFails f).
      * (* the deletion of the port groups fails *)
        destruct Hrun as ([e ->] & Hst & Hnb).
        intros ns. destruct (decide (ns = namespace np)) as [->|Hne].
        -- unfold I2in. rewrite Hst, lookup_insert_eq, Hnb. simpl.
           rewrite bool_decide_eq_false_2 by set_solver.
           split; [exact Hk'|]. split; [done|]. by split.
        -- other_namespace.
           eapply (I2in_frame (bool_decide (ns ∉ pending)) _ w);
             [by rewrite Hst, lookup_insert_ne | by rewrite Hnb .. | (intros n; simpl; by apply Hother)
             | done | apply HI].
      * (* the port groups and the record are deleted *)
        destruct Hrun as (-> & Hst & Hpg).
        intros ns. destruct (decide (ns = namespace np)) as [->|Hne].
        -- unfold I2in. rewrite Hst, lookup_delete_eq, Hpg.
           rewrite lookup_delete_ne, !lookup_delete_eq
             by (apply not_eq_sym, defaultDenyPortGroupName_ne_directions).
           split; [|done]. intros n Hn.
           apply map_size_empty_inv in Hz. simpl in Hz.
           assert (policyKey (namespace np) n ∈ dom (delete (getKey np) (policies s))) as Hin
             by (apply Hk'; by exists n).
           rewrite Hz, dom_empty_L in Hin. set_solver.
        -- assert (∀ sf, sf ∈ [ingressDefaultDenySuffix; egressDefaultDenySuffix] →
             nbPortGroups (nbClient w') !! defaultDenyPortGroupName ns sf =
             nbPortGroups (nbClient w) !! defaultDenyPortGroupName ns sf) as Hsame.
           { intros sf Hsuf. rewrite Hpg, !lookup_delete_ne; [done|..];
               intros E; apply defaultDenyPortGroupName_inj in E as [? ?];
               try done; set_solver. }
           other_namespace.
           eapply (I2in_frame (bool_decide (ns ∉ pending)) _ w);
             [by rewrite Hst, lookup_delete_ne | apply Hsame; set_solver
             | apply Hsame; set_solver | (intros n; simpl; by apply Hother) | done | apply HI].
    + (* other policies remain *)
      destruct Hrun as (-> & Hst & Hnb).
      intros ns. destruct (decide (ns = namespace np)) as [->|Hne].
      * unfold I2in. rewrite Hst, lookup_insert_eq, Hnb. simpl.
        split; [exact Hk'|]. split; [|by split].
        intros _. simpl in Hnz.
        destruct (decide (dom (delete (getKey np) (policies s)) = ∅)) as [E|E].
        -- apply dom_empty_inv_L in E. rewrite E, map_size_empty in Hnz. by destruct Hnz.
        -- apply set_choose_L in E as [key Hkey]. apply Hk' in Hkey as (n & Hn & _).
           by exists n.
      * other_namespace.
        eapply (I2in_frame (bool_decide (ns ∉ pending)) _ w);
          [by rewrite Hst, lookup_insert_ne | by rewrite Hnb .. | (intros n; simpl; by apply Hother)
          | done | apply HI].
  - destruct (delPolicyFromDefaultPortGroups_absent np f w Hs) as (Herr & Hst & Hnb).
    destruct (delPolicyFromDefaultPortGroups np f w) as [err w']. simpl in *.
    subst err. intros ns.
    pose proof (HI ns) as HIns.
    destruct (decide (ns = namespace np)) as [->|Hne].
    + unfold I2in in *. rewrite Hst, Hnb. rewrite Hs in *.
      destruct HIns as (Hnone & ? & ?). split; [|done].
      intros n Hin. apply elem_of_difference in Hin as [Hin _]. by destruct (Hnone n).
    + other_namespace.
      eapply (I2in_frame (bool_decide (ns ∉ pending)) _ w); [by rewrite Hst | by rewrite Hnb .. | | done | apply HI].
      intros n. simpl. by apply Hother.
Qed.

(** One call keeps I2. *)
Lemma I2_step (c : MembershipCall) w joined pending :
  Inj (=) (=) hashedPortGroup →
  I2 pending w joined →
  let r := runMembership c w in
  I2 (pendingAfter c r.1 pending) r.2 (joinedAfter c r.1 joined).
Proof.
  intros Hinj HI. destruct c as [np aclLogging f|np f].
  - by apply I2_join.
  - by apply I2_leave.
Qed.

(** Outside [pending], a record exists exactly when a policy of the
    namespace has joined. *)
Lemma I2_record_iff w joined pending ns :
  I2 pending w joined → ns ∉ pending →
  (is_Some (sharedNetpolPortGroups w !! ns) ↔ ∃ n, (ns, n) ∈ joined).
Proof.
  intros HI Hns. specialize (HI ns). unfold I2in in HI.
  rewrite bool_decide_eq_true_2 in HI by done.
  destruct (sharedNetpolPortGroups w !! ns) as [s|].
  - destruct HI as (_ & Ht & _). split; [intros _; by apply Ht|by eexists].
  - destruct HI as (Hnone & _). split; [by intros [? ?]|].
    intros [n Hn]. by destruct (Hnone n).
Qed.
End membership_invariant.

(** C2, as amended.  [joined] are the policies that have joined (their join
    returned nil) and for which leave has not been called since; [pending]
    are the namespaces in which a leave failed to delete the port groups and
    in which since then no leave has succeeded and no policy has joined.
    Port-group names of different namespaces differ (the hash is injective).
    If I2 holds before a sequence of joins and leaves, with any failures of
    their database calls, it holds after it: in every namespace a record
    holds exactly the keys of the joined policies of the namespace and exists
    together with both port groups, and without a record no policy of the
    namespace has joined and neither port group exists; and in every
    namespace that is not pending the record exists if and only if a policy
    of the namespace has joined.  So a join creates the record and the port
    groups with the first policy, a failed creation leaves no record, a
    leave that removes the last key and succeeds deletes the port groups and
    the record, and so does the retry of a leave that failed. *)
Theorem join_leave_preserve_I2 `{Externals}
    (cs : list MembershipCall) (w : World) (joined : gset (string * string))
    (pending : gset string) :
  Inj (=) (=) hashedPortGroup →
  I2 pending w joined →
  let '(w', joined', pending') := runMemberships cs w joined pending in
  I2 pending' w' joined' ∧
  ∀ ns, ns ∉ pending' →
    (is_Some (sharedNetpolPortGroups w' !! ns) ↔ ∃ n, (ns, n) ∈ joined').
Proof.
  intros Hinj. revert w joined pending.
  induction cs as [|c cs IH]; intros w joined pending HI; simpl.
  - split; [done|]. intros ns Hns. by apply (I2_record_iff w joined pending).
  - pose proof (I2_step c w joined pending Hinj HI) as Hstep.
    destruct (runMembership c w) as [err w1]. simpl in Hstep.
    apply (IH w1 _ _ Hstep).
Qed.

(** ** Operations and the default-deny port groups *)

Section operations.
Context `{Externals}.
Implicit Types (nb : NBDB) (op : Operation) (ops : list Operation) (pg : string).

(** An operation that does not name a port group leaves its row alone. *)
Lemma applyOp_untouched nb op pg :
  opTouches op pg = false →
  nbPortGroups (applyOp nb op) !! pg = nbPortGroups nb !! pg.
Proof.
  destruct op as [acls|pgs|names|name ports|name ports|name acls|name acls|k n p];
    simpl; try done.
  - intros Hnot%bool_decide_eq_false. revert nb Hnot.
    induction pgs as [|g pgs IH]; intros nb Hnot; simpl; [done|].
    rewrite fmap_cons, not_elem_of_cons in Hnot. destruct Hnot as [Hg Hrest].
    specialize (IH {| nbPortGroups := <[pgName g := g]> (nbPortGroups nb);
                      nbACLs := nbACLs nb |} Hrest).
    simpl in IH. rewrite IH. by rewrite lookup_insert_ne.
  - intros Hnot%bool_decide_eq_false. generalize (nbPortGroups nb) as t.
    induction names as [|n names IH]; intros t; simpl; [done|].
    rewrite not_elem_of_cons in Hnot. destruct Hnot as [Hn Hrest].
    rewrite (IH Hrest). by rewrite lookup_delete_ne.
  - intros Hne%bool_decide_eq_false. by rewrite lookup_alter_ne.
  - intros Hne%bool_decide_eq_false. by rewrite lookup_alter_ne.
  - intros Hne%bool_decide_eq_false. by rewrite lookup_alter_ne.
  - intros Hne%bool_decide_eq_false. by rewrite lookup_alter_ne.
Qed.

Lemma applyOps_untouched nb ops pg :
  (∀ op, op ∈ ops → opTouches op pg = false) →
  nbPortGroups (foldl applyOp nb ops) !! pg = nbPortGroups nb !! pg.
Proof.
  revert nb. induction ops as [|op ops IH]; intros nb Hnot; simpl; [done|].
  rewrite IH by (intros; apply Hnot; by right).
  apply applyOp_untouched, Hnot. by left.
Qed.

Lemma avoidDenyPGs_untouched ops ns sfx op :
  avoidDenyPGs ops → op ∈ ops →
  sfx ∈ [ingressDefaultDenySuffix; egressDefaultDenySuffix] →
  opTouches op (defaultDenyPortGroupName ns sfx) = false.
Proof.
  intros Havoid Hop Hsfx. specialize (Havoid ns). unfold touchesDenyPGs in Havoid.
  apply not_true_iff_false in Havoid. apply not_true_iff_false. intros Ht. apply Havoid.
  apply existsb_exists. exists op. split; [by apply list_elem_of_In|].
  rewrite !elem_of_cons, elem_of_nil in Hsfx.
  destruct Hsfx as [->|[->|[]]]; rewrite Ht; [done|by rewrite orb_true_r].
Qed.

(** The pending operations of a caller leave every default-deny group alone. *)
Lemma applyOps_avoid nb ops ns sfx :
  avoidDenyPGs ops →
  sfx ∈ [ingressDefaultDenySuffix; egressDefaultDenySuffix] →
  nbPortGroups (foldl applyOp nb ops) !! defaultDenyPortGroupName ns sfx =
    nbPortGroups nb !! defaultDenyPortGroupName ns sfx.
Proof.
  intros Havoid Hsfx. apply applyOps_untouched.
  intros op Hop. by eapply avoidDenyPGs_untouched.
Qed.

Lemma foldl_applyOp_app nb ops ops' :
  foldl applyOp nb (ops ++ ops') = foldl applyOp (foldl applyOp nb ops) ops'.
Proof. apply foldl_app. Qed.

Lemma portGroupPorts_alter nb name g pg :
  portGroupPorts {| nbPortGroups := alter (setPorts g) name (nbPortGroups nb);
                    nbACLs := nbACLs nb |} pg =
    if decide (pg = name)
    then from_option (λ x, g (pgPorts x)) ∅ (nbPortGroups nb !! name)
    else portGroupPorts nb pg.
Proof.
  unfold portGroupPorts. simpl. destruct (decide (pg = name)) as [->|].
  - rewrite lookup_alter_eq. by destruct (nbPortGroups nb !! name).
  - by rewrite lookup_alter_ne.
Qed.
End operations.

(** ** I1 for one direction *)

Section I1_direction.
Context (uuidOf : string → string) (Huuid : Inj (=) (=) uuidOf).
Implicit Types (m : gmap string (gset string)) (ports : gmap string string)
  (members : gset string) (key p : string).

Lemma elem_of_emitted ports (P : string * string → Prop) `{!∀ x, Decision (P x)} u :
  u ∈ (list_to_set (filter P (map_to_list ports)).*2 : gset string) ↔
  ∃ p, ports !! p = Some u ∧ P (p, u).
Proof.
  rewrite elem_of_list_to_set, list_elem_of_fmap. split.
  - intros ([p v] & -> & Hin). apply list_elem_of_filter in Hin as [HP Hin].
    apply elem_of_map_to_list in Hin. by exists p.
  - intros (p & Hp & HP). exists (p, u). split; [done|].
    apply list_elem_of_filter. split; [done|]. by apply elem_of_map_to_list.
Qed.

(** After the add loop and the addition of the new ports to the group. *)
Lemma I1_addPorts key ports m members :
  carriesUUIDs uuidOf ports →
  (∀ p, uuidOf p ∈ members ↔ refs m p ≠ ∅) →
  ∀ p, uuidOf p ∈ members ∪ list_to_set (addPorts key (map_to_list ports) m).2 ↔
       refs (addPorts key (map_to_list ports) m).1 p ≠ ∅.
Proof.
  intros Hcarry HI p.
  rewrite addPorts_emitted by apply NoDup_fst_map_to_list.
  rewrite refs_addPorts, elem_of_union, elem_of_emitted. simpl.
  pose proof (range_elem_of ports (map_to_list ports) p (reflexivity _)) as Hdom.
  destruct (decide (p ∈ (map_to_list ports).*1)) as [Hin|Hin].
  - apply Hdom, elem_of_dom in Hin as [u Hu]. split; [set_solver|]. intros _.
    destruct (decide (refs m p = ∅)) as [E|E].
    + right. exists p. split; [|done]. by rewrite <-(Hcarry p u Hu).
    + left. by apply HI.
  - rewrite HI. split; [|by left]. intros [?|(q & Hq & _)]; [done|].
    pose proof (Hcarry q _ Hq) as E. apply Huuid in E. subst q.
    destruct Hin. apply Hdom, elem_of_dom. by eexists.
Qed.

(** After the delete loop and the removal of the freed ports from the group. *)
Lemma I1_deletePorts key ports m members :
  carriesUUIDs uuidOf ports →
  (∀ p, uuidOf p ∈ members ↔ refs m p ≠ ∅) →
  ∀ p, uuidOf p ∈ members ∖ list_to_set (deletePorts key (map_to_list ports) m).2 ↔
       refs (deletePorts key (map_to_list ports) m).1 p ≠ ∅.
Proof.
  intros Hcarry HI p.
  rewrite deletePorts_emitted by apply NoDup_fst_map_to_list.
  rewrite refs_deletePorts, elem_of_difference, elem_of_emitted. simpl.
  pose proof (range_elem_of ports (map_to_list ports) p (reflexivity _)) as Hdom.
  assert (∀ q, ports !! q = Some (uuidOf p) → q = p) as Hsame.
  { intros q Hq. pose proof (Hcarry q _ Hq) as E. by apply Huuid in E. }
  destruct (decide (p ∈ (map_to_list ports).*1)) as [Hin|Hin].
  - apply Hdom, elem_of_dom in Hin as [u Hu].
    pose proof (Hcarry p u Hu) as ->. split.
    + intros [_ Hnot] E. apply Hnot. by exists p.
    + intros E. split.
      * apply HI. intros E'. apply E. rewrite E'. set_solver.
      * intros (q & Hq & Hempty). by rewrite (Hsame q Hq) in Hempty.
  - rewrite HI. split; [tauto|]. intros E. split; [done|].
    intros (q & Hq & _). rewrite (Hsame q Hq) in Hq.
    destruct Hin. apply Hdom, elem_of_dom. by eexists.
Qed.
End I1_direction.

(** ** What the transaction of a run does to the port groups *)

Section transaction_effect.
Context `{Externals}.
Implicit Types (nb : NBDB) (ops : list Operation) (ns pg : string).

Lemma length_0_nil {A} (l : list A) : ¬ (length l ≠ 0) → l = [].
Proof. destruct l; [done|]. simpl. intros Hn. destruct Hn. discriminate. Qed.

Lemma deny_transaction_effect (add : bool) nb ops ns portsI portsE :
  avoidDenyPGs ops →
  let ingName := defaultDenyPortGroupName ns ingressDefaultDenySuffix in
  let egName := defaultDenyPortGroupName ns egressDefaultDenySuffix in
  let nb' := foldl applyOp nb
               (if bool_decide (length portsI ≠ 0 ∨ length portsE ≠ 0)
                then ops ++ [portsOp add ingName portsI; portsOp add egName portsE]
                else ops) in
  (∀ pg, pg ≠ ingName → pg ≠ egName → (∀ op, op ∈ ops → opTouches op pg = false) →
     nbPortGroups nb' !! pg = nbPortGroups nb !! pg) ∧
  (is_Some (nbPortGroups nb' !! ingName) ↔ is_Some (nbPortGroups nb !! ingName)) ∧
  (is_Some (nbPortGroups nb' !! egName) ↔ is_Some (nbPortGroups nb !! egName)) ∧
  (is_Some (nbPortGroups nb !! ingName) →
     portGroupPorts nb' ingName = portsEffect add (portGroupPorts nb ingName) portsI) ∧
  (is_Some (nbPortGroups nb !! egName) →
     portGroupPorts nb' egName = portsEffect add (portGroupPorts nb egName) portsE).
Proof.
  intros Havoid ingName egName.
  assert (ingName ≠ egName) as Hne by apply defaultDenyPortGroupName_ne_directions.
  assert (nbPortGroups (foldl applyOp nb ops) !! ingName = nbPortGroups nb !! ingName) as Hi
    by (apply applyOps_avoid; [done|set_solver]).
  assert (nbPortGroups (foldl applyOp nb ops) !! egName = nbPortGroups nb !! egName) as He
    by (apply applyOps_avoid; [done|set_solver]).
  destruct (bool_decide (length portsI ≠ 0 ∨ length portsE ≠ 0)) eqn:Hdb; simpl.
  - rewrite foldl_applyOp_app. set (nb1 := foldl applyOp nb ops) in *.
    unfold portGroupPorts.
    assert (∀ pg, nbPortGroups (foldl applyOp nb1
              [portsOp add ingName portsI; portsOp add egName portsE]) !! pg =
            if decide (pg = ingName)
            then setPorts (λ s, portsEffect add s portsI) <$> nbPortGroups nb1 !! pg
            else if decide (pg = egName)
            then setPorts (λ s, portsEffect add s portsE) <$> nbPortGroups nb1 !! pg
            else nbPortGroups nb1 !! pg) as Hlook.
    { intros pg. destruct add; simpl;
        (destruct (decide (pg = ingName)) as [->|];
         [by rewrite lookup_alter_ne, lookup_alter_eq by done|];
         destruct (decide (pg = egName)) as [->|];
         [by rewrite lookup_alter_eq, lookup_alter_ne by done|];
         by rewrite !lookup_alter_ne by done). }
    repeat split.
    + intros pg H1 H2 Hops. rewrite Hlook, !decide_False by done.
      by apply applyOps_untouched.
    + rewrite Hlook, decide_True, Hi by done. by rewrite fmap_is_Some.
    + rewrite Hlook, decide_True, Hi by done. by rewrite fmap_is_Some.
    + rewrite Hlook, decide_False, decide_True, He by done. by rewrite fmap_is_Some.
    + rewrite Hlook, decide_False, decide_True, He by done. by rewrite fmap_is_Some.
    + intros [g Hg]. rewrite Hlook, decide_True, Hi, Hg by done. done.
    + intros [g Hg]. rewrite Hlook, decide_False, decide_True, He, Hg by done. done.
  - apply bool_decide_eq_false in Hdb.
    assert (portsI = []) as -> by (apply length_0_nil; tauto).
    assert (portsE = []) as -> by (apply length_0_nil; tauto).
    unfold portGroupPorts. rewrite Hi, He.
    repeat split; try done.
    + intros pg _ _ Hops. by apply applyOps_untouched.
    + intros _. destruct add; simpl; set_solver.
    + intros _. destruct add; simpl; set_solver.
Qed.
End transaction_effect.

(** ** The two functions keep I1 *)

Section I1_preserved.
Context `{Externals} (uuidOf : string → string).
Context (Hhash : Inj (=) (=) hashedPortGroup) (Huuid : Inj (=) (=) uuidOf).
Implicit Types (np : networkPolicy) (ports : gmap string string)
  (s : defaultDenyPortGroups) (ops : list Operation) (f : Faults) (w : World) (ns : string).

Lemma I1in_frame w w' ns :
  sharedNetpolPortGroups w' !! ns = sharedNetpolPortGroups w !! ns →
  nbPortGroups (nbClient w') !! defaultDenyPortGroupName ns ingressDefaultDenySuffix =
    nbPortGroups (nbClient w) !! defaultDenyPortGroupName ns ingressDefaultDenySuffix →
  nbPortGroups (nbClient w') !! defaultDenyPortGroupName ns egressDefaultDenySuffix =
    nbPortGroups (nbClient w) !! defaultDenyPortGroupName ns egressDefaultDenySuffix →
  I1in uuidOf w ns → I1in uuidOf w' ns.
Proof. unfold I1in, portGroupPorts. by intros -> -> ->. Qed.

(** A run that at most submits the pending operations of the caller. *)
Lemma I1_caller_ops ops w w' :
  avoidDenyPGs ops →
  sharedNetpolPortGroups w' = sharedNetpolPortGroups w →
  nbClient w' = nbClient w ∨ nbClient w' = foldl applyOp (nbClient w) ops →
  I1 uuidOf w → I1 uuidOf w'.
Proof.
  intros Havoid Hst Hnb HI ns. apply (I1in_frame w); [by rewrite Hst | | | apply HI];
    (destruct Hnb as [->| ->]; [done|]; apply applyOps_avoid; [done|set_solver]).
Qed.

Lemma addPortsForPolicy_components np ports s s' newIngress newEgress :
  addPortsForPolicy np ports s = (s', newIngress, newEgress) →
  (ingressPortToPolicies s', newIngress) =
    (if isIngress np then addPorts (getKey np) (map_to_list ports) (ingressPortToPolicies s)
     else (ingressPortToPolicies s, [])) ∧
  (egressPortToPolicies s', newEgress) =
    (if isEgress np then addPorts (getKey np) (map_to_list ports) (egressPortToPolicies s)
     else (egressPortToPolicies s, [])).
Proof.
  unfold addPortsForPolicy, addPortsForPolicyIn.
  destruct (isIngress np), (isEgress np);
    repeat match goal with |- context [addPorts ?k ?l ?m] => destruct (addPorts k l m) end;
    by intros [= <- <- <-].
Qed.

Lemma deletePortsForPolicy_components np ports s s' freedIngress freedEgress :
  deletePortsForPolicy np ports s = (s', freedIngress, freedEgress) →
  (ingressPortToPolicies s', freedIngress) =
    (if isIngress np then deletePorts (getKey np) (map_to_list ports) (ingressPortToPolicies s)
     else (ingressPortToPolicies s, [])) ∧
  (egressPortToPolicies s', freedEgress) =
    (if isEgress np then deletePorts (getKey np) (map_to_list ports) (egressPortToPolicies s)
     else (egressPortToPolicies s, [])).
Proof.
  unfold deletePortsForPolicy, deletePortsForPolicyIn.
  destruct (isIngress np), (isEgress np);
    repeat match goal with |- context [deletePorts ?k ?l ?m] => destruct (deletePorts k l m) end;
    by intros [= <- <- <-].
Qed.

(** The successful transaction of either function, seen from I1. *)
Lemma I1_after_transaction (add : bool) np ports ops w w' s s' portsI portsE :
  avoidDenyPGs ops → carriesUUIDs uuidOf ports → I1 uuidOf w →
  sharedNetpolPortGroups w !! namespace np = Some s →
  (if add then addPortsForPolicy np ports s else deletePortsForPolicy np ports s)
    = (s', portsI, portsE) →
  sharedNetpolPortGroups w' = <[namespace np := s']> (sharedNetpolPortGroups w) →
  nbClient w' =
    foldl applyOp (nbClient w)
      (if bool_decide (length portsI ≠ 0 ∨ length portsE ≠ 0)
       then ops ++ [portsOp add (defaultDenyPortGroupName (namespace np) ingressDefaultDenySuffix)
                      portsI;
                    portsOp add (defaultDenyPortGroupName (namespace np) egressDefaultDenySuffix)
                      portsE]
       else ops) →
  I1 uuidOf w'.
Proof.
  intros Havoid Hcarry HI Hs Hrun Hst Hnb ns.
  destruct (deny_transaction_effect add (nbClient w) ops (namespace np) portsI portsE Havoid)
    as (Hother & HiS & HeS & HpI & HpE).
  rewrite <-Hnb in Hother, HiS, HeS, HpI, HpE.
  destruct (decide (ns = namespace np)) as [->|Hne].
  - pose proof (HI (namespace np)) as HI0. unfold I1in in *. rewrite Hs in HI0.
    rewrite Hst, lookup_insert_eq. destruct HI0 as (Hwf & Hi & He & Hports).
    split; [|split; [by apply HiS|split; [by apply HeS|]]].
    + destruct add; [pose proof (addPortsForPolicy_wf np ports s Hwf) as Hwf'
                    |pose proof (deletePortsForPolicy_wf np ports s Hwf) as Hwf'];
        by rewrite Hrun in Hwf'.
    + intros p. rewrite HpI, HpE by done. destruct add; simpl.
      * apply addPortsForPolicy_components in Hrun as [Ei Ee].
        split.
        -- destruct (isIngress np).
           ++ pose proof (I1_addPorts uuidOf Huuid (getKey np) ports _ _ Hcarry
                            (λ p, proj1 (Hports p)) p) as Hp.
              by rewrite <-Ei in Hp.
           ++ injection Ei as -> ->. rewrite list_to_set_nil, (right_id_L ∅ (∪)).
              apply Hports.
        -- destruct (isEgress np).
           ++ pose proof (I1_addPorts uuidOf Huuid (getKey np) ports _ _ Hcarry
                            (λ p, proj2 (Hports p)) p) as Hp.
              by rewrite <-Ee in Hp.
           ++ injection Ee as -> ->. rewrite list_to_set_nil, (right_id_L ∅ (∪)).
              apply Hports.
      * apply deletePortsForPolicy_components in Hrun as [Ei Ee].
        split.
        -- destruct (isIngress np).
           ++ pose proof (I1_deletePorts uuidOf Huuid (getKey np) ports _ _ Hcarry
                            (λ p, proj1 (Hports p)) p) as Hp.
              by rewrite <-Ei in Hp.
           ++ injection Ei as -> ->. rewrite list_to_set_nil, difference_empty_L.
              apply Hports.
        -- destruct (isEgress np).
           ++ pose proof (I1_deletePorts uuidOf Huuid (getKey np) ports _ _ Hcarry
                            (λ p, proj2 (Hports p)) p) as Hp.
              by rewrite <-Ee in Hp.
           ++ injection Ee as -> ->. rewrite list_to_set_nil, difference_empty_L.
              apply Hports.
  - apply (I1in_frame w); [by rewrite Hst, lookup_insert_ne | | | apply HI];
      (apply Hother;
       [ intros E; apply defaultDenyPortGroupName_inj in E as [? ?]; try done; set_solver
       | intros E; apply defaultDenyPortGroupName_inj in E as [? ?]; try done; set_solver
       | intros op Hop; eapply avoidDenyPGs_untouched; [done..|set_solver] ]).
Qed.

Lemma faultFree_runFails (b : bool) f : faultFree f → runFails b f = false.
Proof. intros (F0 & F1 & Ft). unfold runFails. by rewrite F0, F1, Ft, Tauto.if_same. Qed.

Lemma I1_denyPGAddPorts np ports ops f w :
  carriesUUIDs uuidOf ports → avoidDenyPGs ops → I1 uuidOf w →
  faultFree f ∨ (∀ s, sharedNetpolPortGroups w !! namespace np = Some s → freshFor np ports s) →
  I1 uuidOf (denyPGAddPorts np ports ops f w).2.
Proof.
  intros Hcarry Havoid HI Hpre.
  destruct (sharedNetpolPortGroups w !! namespace np) as [s|] eqn:Hs.
  - destruct (addPortsForPolicy np ports s) as [[s' newI] newE] eqn:Hadd.
    pose proof (denyPGAddPorts_run np ports ops f w _ _ _ _ Hs Hadd) as Hrun.
    destruct (denyPGAddPorts np ports ops f w) as [err w']. simpl in *.
    destruct Hrun as (_ & Hst & Hnb & _).
    destruct (runFails _ f) eqn:Hfail.
    + destruct Hpre as [Hff|Hfresh]; [by rewrite faultFree_runFails in Hfail|].
      pose proof (HI (namespace np)) as HI0. unfold I1in in HI0. rewrite Hs in HI0.
      pose proof (deletePortsForPolicy_undoes_add np ports s (proj1 HI0) (Hfresh s eq_refl))
        as Hundo.
      rewrite Hadd in Hundo. simpl in Hundo. rewrite Hundo, insert_id in Hst by done.
      intros ns. apply (I1in_frame w); [by rewrite Hst | by rewrite Hnb .. | apply HI].
    + by eapply (I1_after_transaction true).
  - unfold denyPGAddPorts. simpl. rewrite Hs. simpl.
    intros ns. by apply (I1in_frame w).
Qed.

Lemma I1_denyPGDeletePorts np (ports0 : gmap string string) (useLocalPods : bool) ops f w :
  let ports := if useLocalPods then localPods np else ports0 in
  carriesUUIDs uuidOf ports → avoidDenyPGs ops → I1 uuidOf w →
  faultFree f ∨ (∀ s, sharedNetpolPortGroups w !! namespace np = Some s → heldBy np ports s) →
  I1 uuidOf (denyPGDeletePorts np ports0 useLocalPods ops f w).2.
Proof.
  intros ports Hcarry Havoid HI Hpre.
  destruct (decide (size ports = 0)) as [Hz|Hnz].
  { rewrite (denyPGDeletePorts_no_ports np ports0 useLocalPods ops f w Hz).
    unfold TransactAndCheck. destruct (transactFails f); simpl;
      apply (I1_caller_ops ops w); auto. }
  destruct (sharedNetpolPortGroups w !! namespace np) as [s|] eqn:Hs.
  - destruct (deletePortsForPolicy np ports s) as [[s' freedI] freedE] eqn:Hdel.
    pose proof (denyPGDeletePorts_run np ports0 useLocalPods ops f w _ _ _ _ Hnz Hs Hdel) as Hrun.
    destruct (denyPGDeletePorts np ports0 useLocalPods ops f w) as [err w']. simpl in *.
    destruct Hrun as (_ & Hst & Hnb & _).
    destruct (runFails _ f) eqn:Hfail.
    + destruct Hpre as [Hff|Hheld]; [by rewrite faultFree_runFails in Hfail|].
      pose proof (addPortsForPolicy_undoes_delete np ports s (Hheld s eq_refl)) as Hundo.
      rewrite Hdel in Hundo. simpl in Hundo. fold ports in Hst.
      rewrite Hundo, insert_id in Hst by done.
      intros ns. apply (I1in_frame w); [by rewrite Hst | by rewrite Hnb .. | apply HI].
    + by eapply (I1_after_transaction false).
  - unfold denyPGDeletePorts. fold ports. rewrite decide_True by done. simpl. rewrite Hs.
    unfold TransactAndCheck. destruct (transactFails f); simpl;
      apply (I1_caller_ops ops w); auto.
Qed.
End I1_preserved.

(** ** The key lock during a run *)

Section key_lock.
Context `{Externals}.
Implicit Types (np : networkPolicy) (ports : gmap string string)
  (ops : list Operation) (f : Faults) (w : World).

Lemma eventsOf_app w w' (events : list Event) :
  trace w' = trace w ++ events → eventsOf w w' = events.
Proof. unfold eventsOf. intros ->. by rewrite drop_app_length. Qed.

Lemma forwardWrites_caller_ops ops ns ok :
  avoidDenyPGs ops → forwardWrites ns (EvTransact ops ok) = false.
Proof. intros Havoid. apply Havoid. Qed.

Lemma trace_emit e w : trace (emit e w) = trace w ++ [e].
Proof. done. Qed.

Lemma trace_LockKey k w : trace (LockKey k w) = trace w ++ [EvLockKey k].
Proof. done. Qed.

Lemma trace_UnlockKey k w : trace (UnlockKey k w) = trace w ++ [EvUnlockKey k].
Proof. done. Qed.

Lemma trace_writeCounters k b s w :
  trace (writeCounters k b s w) = trace w ++ [EvCounters k b].
Proof. done. Qed.

Lemma trace_setNB nb w : trace (setNB nb w) = trace w.
Proof. done. Qed.

Lemma trace_setShared g w : trace (setShared g w) = trace w.
Proof. done. Qed.

Ltac run_trace :=
  cbn [fst snd]; unfold eventsOf;
  repeat first [ rewrite trace_emit | rewrite trace_LockKey | rewrite trace_UnlockKey
               | rewrite trace_writeCounters | rewrite trace_setNB | rewrite trace_setShared ];
  rewrite <-?(assoc_L (++)); rewrite drop_app_length; simpl;
  repeat match goal with
  | |- context [decide (?a = ?a)] => destruct (decide (a = a)); [|done]
  end;
  rewrite ?bool_decide_eq_true_2 by done;
  repeat match goal with
  | Ha : avoidDenyPGs ?ops |- context [touchesDenyPGs ?ns ?ops] => rewrite (Ha ns)
  end;
  rewrite ?implb_true_r; simpl; done.

(** The forward write to the counters and every transaction with operations
    on the default-deny groups of the namespace happen with the key held. *)
Lemma denyPGAddPorts_underLock np ports ops f w :
  avoidDenyPGs ops →
  underLock (namespace np) (forwardWrites (namespace np)) false
    (eventsOf w (denyPGAddPorts np ports ops f w).2) = true.
Proof.
  intros Havoid. unfold denyPGAddPorts. simpl.
  destruct (sharedNetpolPortGroups w !! namespace np) as [s|]; [|run_trace].
  destruct (addPortsForPolicy np ports s) as [[s' newI] newE].
  unfold denyPGAddPorts_deferred, buildOps, TransactAndCheck.
  destruct (bool_decide (length newI ≠ 0 ∨ length newE ≠ 0));
    destruct (opsFail f 0), (opsFail f 1), (transactFails f); run_trace.
Qed.

Lemma denyPGDeletePorts_underLock np (ports0 : gmap string string) (useLocalPods : bool)
    ops f w :
  avoidDenyPGs ops →
  underLock (namespace np) (forwardWrites (namespace np)) false
    (eventsOf w (denyPGDeletePorts np ports0 useLocalPods ops f w).2) = true.
Proof.
  intros Havoid. unfold denyPGDeletePorts.
  set (ports := if useLocalPods then localPods np else ports0).
  unfold TransactAndCheck.
  destruct (decide (size ports ≠ 0)); [|destruct (transactFails f); run_trace].
  simpl. destruct (sharedNetpolPortGroups w !! namespace np) as [s|];
    [|destruct (transactFails f); run_trace].
  destruct (deletePortsForPolicy np ports s) as [[s' freedI] freedE].
  unfold denyPGDeletePorts_deferred, buildOps, TransactAndCheck.
  destruct (bool_decide (length freedI ≠ 0 ∨ length freedE ≠ 0));
    destruct (opsFail f 0), (opsFail f 1), (transactFails f); run_trace.
Qed.

(** Join and leave add no port to any port group; they remove ports only by
    writing a group anew, empty, or by deleting it. *)
Lemma runMembership_ports (c : MembershipCall) w pg :
  portGroupPorts (nbClient (runMembership c w).2) pg = portGroupPorts (nbClient w) pg ∨
  portGroupPorts (nbClient (runMembership c w).2) pg = ∅.
Proof.
  destruct c as [np aclLogging f|np f]; simpl.
  - destruct (sharedNetpolPortGroups w !! namespace np) as [s|] eqn:Hs.
    + destruct (addPolicyToDefaultPortGroups_loaded np aclLogging f w s Hs) as (_ & _ & ->).
      by left.
    + destruct (decide (opsFail f 0 = false ∧ opsFail f 1 = false ∧ transactFails f = false))
        as [(F0 & F1 & Ft)|Hfail].
      * destruct (addPolicyToDefaultPortGroups_fresh np aclLogging f w Hs F0 F1 Ft)
          as (_ & _ & ipg & epg & Hi & He & Hpg).
        unfold portGroupPorts. rewrite Hpg.
        destruct (decide (pg = defaultDenyPortGroupName (namespace np) egressDefaultDenySuffix))
          as [->|]; [right; by rewrite lookup_insert_eq|rewrite lookup_insert_ne by done].
        destruct (decide (pg = defaultDenyPortGroupName (namespace np) ingressDefaultDenySuffix))
          as [->|]; [right; by rewrite lookup_insert_eq|rewrite lookup_insert_ne by done].
        by left.
      * assert (opsFail f 0 = true ∨ opsFail f 1 = true ∨ transactFails f = true) as Hf.
        { destruct (opsFail f 0), (opsFail f 1), (transactFails f); auto.
          destruct Hfail; auto. }
        destruct (addPolicyToDefaultPortGroups_fresh_fails np aclLogging f w Hs Hf)
          as (_ & _ & ->).
        by left.
  - destruct (sharedNetpolPortGroups w !! namespace np) as [s|] eqn:Hs.
    + pose proof (delPolicyFromDefaultPortGroups_run np f w s Hs) as Hrun. simpl in Hrun.
      destruct (decide (size _ = 0)); [destruct (opsFail f 0 || transactFails f)|].
      * destruct Hrun as (_ & _ & ->). by left.
      * destruct Hrun as (_ & _ & Hpg). unfold portGroupPorts. rewrite Hpg.
        destruct (decide (pg = defaultDenyPortGroupName (namespace np) egressDefaultDenySuffix))
          as [->|]; [right; by rewrite lookup_delete_eq|rewrite lookup_delete_ne by done].
        destruct (decide (pg = defaultDenyPortGroupName (namespace np) ingressDefaultDenySuffix))
          as [->|]; [right; by rewrite lookup_delete_eq|rewrite lookup_delete_ne by done].
        by left.
      * destruct Hrun as (_ & _ & ->). by left.
    + destruct (delPolicyFromDefaultPortGroups_absent np f w Hs) as (_ & _ & ->). by left.
Qed.
End key_lock.

(** C1, as amended.  Every port name has one UUID ([uuidOf]), distinct names
    have distinct UUIDs, the port maps passed in carry these UUIDs, port-group
    names of different namespaces differ, and the pending operations of the
    caller name no default-deny port group.  If I1 holds before a run of
    [denyPGAddPorts] or [denyPGDeletePorts] (for every namespace with a record
    and both directions, the UUID of a port is in the default-deny port group
    exactly when the entry of the port's name is non-empty; without a record
    no port is in either group), then it holds after the run: always when no
    call to the database fails, and after a failed run when the ports passed
    did not hold the key of the policy yet (add) or all held it (delete).
    Join and leave add no port to any port group and remove ports only by
    writing the group anew or deleting it.  In every run the forward update of
    the counters, and every transaction that carries an operation on a
    default-deny port group of the namespace, happen while the key of the
    namespace is held. *)
Theorem denyPG_keep_I1 `{Externals} (uuidOf : string → string)
    (np : networkPolicy) (addedPorts deletedPorts : gmap string string)
    (useLocalPods : bool) (ops : list Operation) (fAdd fDel : Faults)
    (c : MembershipCall) (w : World) :
  Inj (=) (=) hashedPortGroup →
  Inj (=) (=) uuidOf →
  carriesUUIDs uuidOf addedPorts →
  carriesUUIDs uuidOf (if useLocalPods then localPods np else deletedPorts) →
  avoidDenyPGs ops →
  I1 uuidOf w →
  faultFree fAdd ∨
    (∀ s, sharedNetpolPortGroups w !! namespace np = Some s → freshFor np addedPorts s) →
  faultFree fDel ∨
    (∀ s, sharedNetpolPortGroups w !! namespace np = Some s →
          heldBy np (if useLocalPods then localPods np else deletedPorts) s) →
  let wAdd := (denyPGAddPorts np addedPorts ops fAdd w).2 in
  let wDel := (denyPGDeletePorts np deletedPorts useLocalPods ops fDel w).2 in
  let wMember := (runMembership c w).2 in
  I1 uuidOf wAdd ∧
  I1 uuidOf wDel ∧
  underLock (namespace np) (forwardWrites (namespace np)) false (eventsOf w wAdd) = true ∧
  underLock (namespace np) (forwardWrites (namespace np)) false (eventsOf w wDel) = true ∧
  (∀ pg, portGroupPorts (nbClient wMember) pg = portGroupPorts (nbClient w) pg ∨
         portGroupPorts (nbClient wMember) pg = ∅).
Proof.
  intros Hhash Huuid Hca Hcd Havoid HI Hadd Hdel. simpl.
  split; [by apply I1_denyPGAddPorts|].
  split; [by apply I1_denyPGDeletePorts|].
  split; [by apply denyPGAddPorts_underLock|].
  split; [by apply denyPGDeletePorts_underLock|].
  apply runMembership_ports.
Qed.

(** ** New local ports of a policy *)

Section new_local_ports.
Context `{Externals} (logicalPortCache : Pod → option lpInfo) (np : networkPolicy).

Lemma freshPort_None pod :
  freshPort logicalPortCache pod = None ↔
  logicalPortCache pod = None ∨
  ∃ portInfo, logicalPortCache pod = Some portInfo ∧ is_Some (lpExpires portInfo).
Proof.
  unfold freshPort. destruct (logicalPortCache pod) as [info|]; [|by split; [left|]].
  destruct (lpExpires info) as [t|] eqn:E.
  - split; [|done]. intros _. right. exists info. by rewrite E.
  - split; [done|]. intros [[=]|(info' & [= <-] & [t Ht])]. by rewrite E in Ht.
Qed.

(** One pod: it yields its fresh port, or it is an error object, or it is
    passed over. *)
Lemma newLocalPolicyPort_step (m : gmap string string) (uuids : list string)
    (errs : list Pod) pod :
  newLocalPolicyPort logicalPortCache np (m, uuids, errs) pod =
    match (if passedOver np pod then None else freshPort logicalPortCache pod) with
    | Some p => (<[p.1 := p.2]> m, uuids ++ [p.2], errs)
    | None =>
        (m, uuids,
         errs ++ (if decide (passedOver np pod = false ∧
                             freshPort logicalPortCache pod = None)
                  then [pod] else []))
    end.
Proof.
  unfold newLocalPolicyPort, passedOver, freshPort.
  destruct (bool_decide (is_Some (localPods np !! _))); cbn [orb negb].
  { rewrite decide_False by (by intros [? ?]). by rewrite app_nil_r. }
  destruct (bool_decide (podNodeName pod = "")); cbn [orb negb].
  { rewrite decide_False by (by intros [? ?]). by rewrite app_nil_r. }
  destruct (podExpectedInLogicalCache pod); cbn [orb negb].
  2: { rewrite decide_False by (by intros [? ?]). by rewrite app_nil_r. }
  destruct (logicalPortCache pod) as [info|]; [|by rewrite decide_True].
  destruct (lpExpires info) as [t|].
  - rewrite bool_decide_eq_true_2 by (by eexists). by rewrite decide_True.
  - by rewrite bool_decide_eq_false_2 by (by intros [? ?]).
Qed.

(** The loop of [getNewLocalPolicyPorts] from any accumulator. *)
Lemma getNewLocalPolicyPorts_loop (objs : list Pod) (m : gmap string string)
    (uuids : list string) (errs : list Pod) :
  let ports := omap (λ pod, if passedOver np pod then None
                            else freshPort logicalPortCache pod) objs in
  foldl (newLocalPolicyPort logicalPortCache np) (m, uuids, errs) objs =
  (foldl (λ (m : gmap string string) p, <[p.1 := p.2]> m) m ports,
   uuids ++ ports.*2,
   errs ++ filter (λ pod, passedOver np pod = false ∧
                          freshPort logicalPortCache pod = None) objs).
Proof.
  revert m uuids errs. induction objs as [|pod objs IH]; intros m uuids errs.
  { simpl. by rewrite !app_nil_r. }
  cbn [foldl omap list_omap]. rewrite filter_cons, newLocalPolicyPort_step.
  destruct (if passedOver np pod then None else freshPort logicalPortCache pod)
    as [p|] eqn:E.
  - rewrite IH. rewrite decide_False.
    + cbn [foldl fmap list_fmap]. by rewrite <-(assoc_L (++)).
    + intros [E1 E2]. by rewrite E1, E2 in E.
  - rewrite IH. destruct (decide _); by rewrite <-?(assoc_L (++)), ?app_nil_r.
Qed.
End new_local_ports.

(** C9, as amended.  [getNewLocalPolicyPorts] passes over (returns neither a
    port nor an error for) the pods whose port is in [localPods] already, that
    are unscheduled, or that are never expected in the logical-port cache
    (host-network pods and the like).  Of the remaining pods it returns as
    error objects, in order, exactly those whose cache lookup fails or whose
    cached port is marked pending deletion; every other remaining pod yields
    its port UUID and its (port name, port UUID) pair, a later pod overriding
    an earlier one of the same port name. *)
Theorem getNewLocalPolicyPorts_spec `{Externals}
    (logicalPortCache : Pod → option lpInfo) (np : networkPolicy) (objs : list Pod) :
  let ports := omap (λ pod, if passedOver np pod then None
                            else freshPort logicalPortCache pod) objs in
  let '(policyPortsToUUIDs, policyPortUUIDs, errObjs) :=
    getNewLocalPolicyPorts logicalPortCache np objs in
  policyPortsToUUIDs = foldl (λ (m : gmap string string) p, <[p.1 := p.2]> m) ∅ ports ∧
  policyPortUUIDs = ports.*2 ∧
  errObjs = filter (λ pod, passedOver np pod = false ∧
                           freshPort logicalPortCache pod = None) objs ∧
  ∀ pod, pod ∈ errObjs ↔
    pod ∈ objs ∧ passedOver np pod = false ∧
    (logicalPortCache pod = None ∨
     ∃ portInfo, logicalPortCache pod = Some portInfo ∧ is_Some (lpExpires portInfo)).
Proof.
  intros ports. unfold getNewLocalPolicyPorts.
  rewrite getNewLocalPolicyPorts_loop. fold ports. simpl.
  split; [done|]. split; [done|]. split; [done|].
  intros pod. rewrite list_elem_of_filter, freshPort_None. tauto.
Qed.

(** ** Handlers of a deleted policy *)

(** C5. Each handler of a policy (local-pod add and delete, peer-namespace
    add and delete, the update of the ACL log level of the policy, and the
    ACL update that the peer handlers run) takes the read lock of the policy,
    and when it sees [deleted] set it returns [nil] at once: the policy and
    the gress policy are returned as they were, and in the world only the
    taking and the release of the read lock are recorded: no call to the
    database, no change to the store, the registry or the database. *)
Theorem handlers_return_when_deleted `{Externals}
    (logicalPortCache : Pod → option lpInfo)
    (updateLogging : DbObjectIDs → ACLLoggingLevels → NBDB → NBDB)
    (buildLocalPodACLs : gressPolicy → string → ACLLoggingLevels → list ACL * list ACL)
    (np : networkPolicy) (gp : gressPolicy) (pods : list Pod) (namespaces : list string)
    (nsInfo : option ACLLoggingLevels) (aclLogging : ACLLoggingLevels)
    (fh : HandlerFaults) (f : Faults) (fails : bool) (w : World) :
  deleted np = true →
  let w' := RUnlock np (RLock np w) in
  handleLocalPodSelectorAddFunc logicalPortCache np pods fh w = (None, np, w') ∧
  handleLocalPodSelectorDelFunc np pods fh w = (None, np, w') ∧
  handlePeerNamespaceSelectorAdd buildLocalPodACLs np gp namespaces nsInfo f w = (None, gp, w') ∧
  handlePeerNamespaceSelectorDel buildLocalPodACLs np gp namespaces nsInfo f w = (None, gp, w') ∧
  updateACLLoggingForPolicy updateLogging np aclLogging fails w = (None, w') ∧
  peerNamespaceUpdate buildLocalPodACLs np gp nsInfo f w = (None, w') ∧
  eventsOf w w' = [EvPolicyLock (getKey np) false; EvPolicyUnlock (getKey np) false] ∧
  sharedNetpolPortGroups w' = sharedNetpolPortGroups w ∧
  networkPolicies w' = networkPolicies w ∧
  nbClient w' = nbClient w.
Proof.
  intros Hdel. simpl.
  unfold handleLocalPodSelectorAddFunc, handleLocalPodSelectorDelFunc,
    handlePeerNamespaceSelectorAdd, handlePeerNamespaceSelectorDel,
    updateACLLoggingForPolicy, peerNamespaceUpdate.
  rewrite Hdel. repeat split.
  unfold eventsOf, RUnlock, RLock. rewrite !trace_emit, <-(assoc_L (++)).
  by rewrite drop_app_length.
Qed.

(** ** Cleanup releases the peer address sets in order *)

Section cleanup.
Context `{Externals}.
Implicit Types (np : networkPolicy) (w : World) (fails : nat → bool)
  (asKeys : list string) (rs : list (string * bool)).

Lemma released_refl w w' : trace w' = trace w → released w w' [].
Proof. intros E. exists []. by rewrite app_nil_r. Qed.

Lemma released_trans w w' w'' rs rs' :
  released w w' rs → released w' w'' rs' → released w w'' (rs ++ rs').
Proof.
  intros (e1 & E1 & R1) (e2 & E2 & R2). exists (e1 ++ e2).
  rewrite E2, E1, (assoc_L (++)). split; [done|].
  unfold releases in *. by rewrite omap_app, R1, R2.
Qed.

Lemma released_eventsOf w w' rs : released w w' rs → releases (eventsOf w w') = rs.
Proof. intros (e & E & R). by rewrite (eventsOf_app w w' e E). Qed.

Lemma released_emit e w :
  released w (emit e w) (releases [e]).
Proof. by exists [e]. Qed.

Lemma firstFailure_ge fails i n j : firstFailure fails i n = Some j → i ≤ j.
Proof.
  revert i. induction n as [|n IH]; intros i; simpl; [done|].
  destruct (fails i); [intros [= ->]; lia|]. intros E%IH. lia.
Qed.

(** The first failure is a failing index before which no release fails. *)
Lemma firstFailure_Some fails i n j :
  firstFailure fails i n = Some j ↔
  i ≤ j < i + n ∧ fails j = true ∧ ∀ k, i ≤ k < j → fails k = false.
Proof.
  revert i. induction n as [|n IH]; intros i; simpl.
  { split; [done|]. lia. }
  destruct (fails i) eqn:Ei.
  - split.
    + intros [= <-]. split; [lia|]. split; [done|]. lia.
    + intros (Hj & Hf & Hbefore). destruct (decide (i = j)) as [->|]; [done|].
      rewrite Hbefore in Ei by lia. discriminate.
  - rewrite IH. split.
    + intros (Hj & Hf & Hbefore). split; [lia|]. split; [done|].
      intros k Hk. destruct (decide (k = i)) as [->|]; [done|]. apply Hbefore. lia.
    + intros (Hj & Hf & Hbefore).
      assert (i ≠ j) by (intros ->; rewrite Hf in Ei; discriminate).
      split; [lia|]. split; [done|]. intros k Hk. apply Hbefore. lia.
Qed.

Lemma firstFailure_None fails i n :
  firstFailure fails i n = None ↔ ∀ k, i ≤ k < i + n → fails k = false.
Proof.
  revert i. induction n as [|n IH]; intros i; simpl.
  { split; [|done]. lia. }
  destruct (fails i) eqn:Ei.
  - split; [done|]. intros Hall. rewrite Hall in Ei by lia. discriminate.
  - rewrite IH. split.
    + intros Hall k Hk. destruct (decide (k = i)) as [->|]; [done|]. apply Hall. lia.
    + intros Hall k Hk. apply Hall. lia.
Qed.

Lemma releaseAddressSets_run owner fails i asKeys w :
  let r := releaseAddressSets owner fails i asKeys w in
  r.1 = firstFailure fails i (length asKeys) ∧
  sharedNetpolPortGroups r.2 = sharedNetpolPortGroups w ∧
  networkPolicies r.2 = networkPolicies w ∧
  nbClient r.2 = nbClient w ∧
  released w r.2 (releasesUpTo r.1 i asKeys).
Proof.
  revert i w. induction asKeys as [|k asKeys IH]; intros i w; simpl.
  { repeat split. by apply released_refl. }
  destruct (fails i) eqn:Ei; simpl.
  - repeat split. rewrite Nat.sub_diag. simpl.
    exact (released_emit (EvDeleteAddressSet k owner false) w).
  - destruct (IH (S i) (emit (EvDeleteAddressSet k owner true) w))
      as (Hr & Hst & Hnp & Hnb & Hrel).
    split; [done|]. split; [done|]. split; [done|]. split; [done|].
    assert (releasesUpTo (releaseAddressSets owner fails (S i) asKeys
                            (emit (EvDeleteAddressSet k owner true) w)).1 i (k :: asKeys)
            = [(k, true)] ++
              releasesUpTo (releaseAddressSets owner fails (S i) asKeys
                              (emit (EvDeleteAddressSet k owner true) w)).1 (S i) asKeys)
      as ->.
    { unfold releasesUpTo. destruct (releaseAddressSets _ _ _ _ _).1 as [j|] eqn:Ej; [|done].
      symmetry in Hr. apply firstFailure_ge in Hr.
      replace (j - i) with (S (j - S i)) by lia. done. }
    eapply released_trans;
      [exact (released_emit (EvDeleteAddressSet k owner true) w)|exact Hrel].
Qed.

Lemma shutdownHandlers_run np w :
  let r := shutdownHandlers np w in
  r.1 = clearHandlers np ∧
  sharedNetpolPortGroups r.2 = sharedNetpolPortGroups w ∧
  networkPolicies r.2 = networkPolicies w ∧
  nbClient r.2 = nbClient w ∧
  released w r.2 [].
Proof.
  unfold shutdownHandlers. simpl.
  set (w1 := match localPodHandler np with Some h => _ | None => w end).
  assert (sharedNetpolPortGroups w1 = sharedNetpolPortGroups w ∧
          networkPolicies w1 = networkPolicies w ∧ nbClient w1 = nbClient w ∧
          released w w1 []) as (Hst & Hnp & Hnb & Hrel).
  { subst w1. destruct (localPodHandler np) as [h|]; repeat split;
      [exact (released_emit (EvRemoveHandler h) w) | by apply released_refl]. }
  clearbody w1. rewrite <-Hst, <-Hnp, <-Hnb.
  change (@nil (string * bool)) with ([] ++ @nil (string * bool)).
  split; [done|].
  enough (∀ hs w2, sharedNetpolPortGroups (foldl (λ w h, emit (EvRemoveHandler h) w) w2 hs)
                     = sharedNetpolPortGroups w2 ∧
                   networkPolicies (foldl (λ w h, emit (EvRemoveHandler h) w) w2 hs)
                     = networkPolicies w2 ∧
                   nbClient (foldl (λ w h, emit (EvRemoveHandler h) w) w2 hs) = nbClient w2 ∧
                   released w2 (foldl (λ w h, emit (EvRemoveHandler h) w) w2 hs) [])
    as Hloop.
  { destruct (Hloop (nsHandlerList np) w1) as (? & ? & ? & ?).
    repeat split; try done. by eapply released_trans. }
  induction hs as [|h hs IH]; intros w2; simpl.
  { repeat split. by apply released_refl. }
  destruct (IH (emit (EvRemoveHandler h) w2)) as (? & ? & ? & Hr).
  repeat split; try done.
  change (@nil (string * bool)) with ([] ++ @nil (string * bool)).
  eapply released_trans; [exact (released_emit (EvRemoveHandler h) w2)|exact Hr].
Qed.

Ltac no_release :=
  eexists; split;
  [ cbn [fst snd];
    repeat first [ rewrite trace_emit | rewrite trace_LockKey | rewrite trace_UnlockKey
                 | rewrite trace_writeCounters | rewrite trace_setNB | rewrite trace_setShared ];
    rewrite <-?(assoc_L (++)); reflexivity
  | reflexivity ].

Lemma denyPGDeletePorts_released np (ports0 : gmap string string) (useLocalPods : bool)
    ops f w :
  released w (denyPGDeletePorts np ports0 useLocalPods ops f w).2 [].
Proof.
  unfold denyPGDeletePorts.
  set (ports := if useLocalPods then localPods np else ports0).
  unfold TransactAndCheck.
  destruct (decide (size ports ≠ 0)); [|destruct (transactFails f); no_release].
  simpl. destruct (sharedNetpolPortGroups w !! namespace np) as [s|];
    [|destruct (transactFails f); no_release].
  destruct (deletePortsForPolicy np ports s) as [[s' freedI] freedE].
  unfold denyPGDeletePorts_deferred, buildOps, TransactAndCheck.
  destruct (bool_decide (length freedI ≠ 0 ∨ length freedE ≠ 0));
    destruct (opsFail f 0), (opsFail f 1), (transactFails f); no_release.
Qed.

Lemma delPolicyFromDefaultPortGroups_released np f w :
  released w (delPolicyFromDefaultPortGroups np f w).2 [].
Proof.
  unfold delPolicyFromDefaultPortGroups. simpl.
  destruct (sharedNetpolPortGroups w !! namespace np) as [s|]; [|no_release].
  destruct (decide (size _ = 0)); [|no_release].
  unfold deleteDefaultDenyPGAndACLs, buildOps, TransactAndCheck.
  destruct (opsFail f 0), (transactFails f); no_release.
Qed.
End cleanup.

Section cleanup_releases.
Context `{Externals}.

Lemma released_step w w' w'' rs events :
  released w w' rs → trace w'' = trace w' ++ events → releases events = [] →
  released w w'' rs.
Proof.
  intros Hrel E R. rewrite <-(app_nil_r rs). eapply released_trans; [exact Hrel|].
  by exists events.
Qed.

Lemma released_after_lock e w w' rs :
  releases [e] = [] → released (emit e w) w' rs → released w w' rs.
Proof.
  intros R Hrel. change rs with ([] ++ rs). eapply released_trans; [|exact Hrel].
  exists [e]. by split.
Qed.

Lemma cleanupReturn_released err np w w' rs :
  released w w' rs → released w (cleanupReturn err np w').2 rs.
Proof.
  intros Hrel. eapply released_step; [exact Hrel| |].
  - unfold cleanupReturn. cbn [snd]. rewrite trace_emit. reflexivity.
  - reflexivity.
Qed.
End cleanup_releases.

(** C8. In [cleanupNetworkPolicy] the keys of [peerAddressSets] are released
    in order from index 0.  When the release at index [i] is the first to
    fail, the keys before [i] have been released, the key at [i] was tried and
    failed, no later key was tried, [peerAddressSets] becomes the suffix of the
    list from index [i] on, and cleanup returns an error.  When no release
    fails, every key is released and [peerAddressSets] is cleared, whatever
    the rest of cleanup does.  In both cases the list has not grown, and
    [deleted] is set. *)
Theorem cleanupNetworkPolicy_releases `{Externals}
    (np : networkPolicy) (f : CleanupFaults) (w : World) :
  let asKeys := peerAddressSets np in
  let '(err, np', w') := cleanupNetworkPolicy np f w in
  match firstFailure (releaseFails f) 0 (length asKeys) with
  | Some i =>
      is_Some err ∧
      peerAddressSets np' = drop i asKeys ∧
      releases (eventsOf w w') =
        ((λ k, (k, true)) <$> take i asKeys) ++
        from_option (λ k, [(k, false)]) [] (asKeys !! i)
  | None =>
      peerAddressSets np' = [] ∧
      releases (eventsOf w w') = (λ k, (k, true)) <$> asKeys
  end ∧
  length (peerAddressSets np') ≤ length asKeys ∧
  deleted np' = true.
Proof.
  intros asKeys. unfold cleanupNetworkPolicy.
  set (w0 := emit (EvPolicyLock (getKey np) true) w).
  destruct (shutdownHandlers_run (setDeleted true np) w0) as (Hnp1 & _ & _ & _ & Hrel1).
  destruct (shutdownHandlers (setDeleted true np) w0) as [np1 w1]. simpl in Hnp1, Hrel1.
  subst np1. cbn [peerAddressSets clearHandlers setDeleted]. fold asKeys.
  destruct (releaseAddressSets_run (getKeyWithKind (clearHandlers (setDeleted true np)))
              (releaseFails f) 0 asKeys w1) as (Hr & _ & _ & _ & Hrel2).
  assert (∀ w2, released w1 w2 (releasesUpTo (firstFailure (releaseFails f) 0 (length asKeys))
                                   0 asKeys) →
                released w w2 (releasesUpTo (firstFailure (releaseFails f) 0 (length asKeys))
                                   0 asKeys)) as Hstart.
  { intros w2 Hrel. apply (released_after_lock (EvPolicyLock (getKey np) true)); [done|].
    fold w0. change (releasesUpTo _ 0 asKeys) with ([] ++ releasesUpTo
      (firstFailure (releaseFails f) 0 (length asKeys)) 0 asKeys).
    by eapply released_trans. }
  destruct (releaseAddressSets _ _ _ _ _) as [failure w2]. simpl in Hr, Hrel2.
  rewrite <-Hr in *. clear Hr.
  destruct failure as [i|].
  - (* the release at index i fails *)
    pose proof (cleanupReturn_released
                  "failed to delete network policy from peer address set"
                  (setPeerAddressSets (drop i asKeys) (clearHandlers (setDeleted true np)))
                  w w2 _ (Hstart w2 Hrel2)) as Hrel.
    apply released_eventsOf in Hrel. unfold cleanupReturn in *. cbn [fst snd] in *.
    unfold releasesUpTo in Hrel. rewrite Nat.sub_0_r in Hrel.
    split; [split; [by eexists|split; [done|exact Hrel]]|].
    split; [|done]. cbn [peerAddressSets setPeerAddressSets]. rewrite length_drop. lia.
  - (* every key is released *)
    assert (∀ err np' w3,
      peerAddressSets np' = [] → deleted np' = true → released w2 w3 [] →
      (peerAddressSets np' = [] ∧
       releases (eventsOf w (cleanupReturn err np' w3).2) = (λ k, (k, true)) <$> asKeys) ∧
      length (peerAddressSets np') ≤ length asKeys ∧ deleted np' = true) as Hexit.
    { intros err np' w3 Hp Hd Hrel3. rewrite Hp. simpl.
      split; [split; [done|]|split; [lia|done]].
      apply released_eventsOf. apply (cleanupReturn_released err np' w w3).
      rewrite <-(app_nil_r (_ <$> asKeys)).
      eapply released_trans; [exact (Hstart w2 Hrel2)|exact Hrel3]. }
    unfold buildOps. destruct (deletePGOpsFail f).
    { match goal with |- context [cleanupReturn ?e ?n ?w3] =>
        exact (Hexit e n w3 eq_refl eq_refl (released_refl w2 w2 eq_refl)) end. }
    set (np2 := setPeerAddressSets [] (clearHandlers (setDeleted true np))).
    set (ops := _ ++ AddConfigDurationRecord _ _ _ _).
    pose proof (denyPGDeletePorts_released np2 ∅ true ops (cleanupDenyFaults f) w2) as Hrel3.
    destruct (denyPGDeletePorts np2 ∅ true ops (cleanupDenyFaults f) w2) as [[e|] w3].
    { match goal with |- context [cleanupReturn ?e ?n ?w3] =>
        exact (Hexit e n w3 eq_refl eq_refl Hrel3) end. }
    simpl in Hrel3.
    pose proof (delPolicyFromDefaultPortGroups_released (setLocalPods (λ _, ∅) np2)
                  (leaveFaults f) w3) as Hrel4.
    destruct (delPolicyFromDefaultPortGroups _ (leaveFaults f) w3) as [[e|] w4].
    { assert (released w2 w4 []) as Hrel5.
      { change (@nil (string * bool)) with ([] ++ @nil (string * bool)).
        by eapply released_trans. }
      match goal with |- context [cleanupReturn ?e ?n ?w3] =>
        exact (Hexit e n w3 eq_refl eq_refl Hrel5) end. }
    simpl in Hrel4. simpl.
    split; [split; [done|]|split; [lia|done]].
    apply released_eventsOf.
    eapply released_step; [|rewrite trace_emit; reflexivity|reflexivity].
    rewrite <-(app_nil_r (_ <$> asKeys)).
    eapply released_trans; [exact (Hstart w2 Hrel2)|].
    change (@nil (string * bool)) with ([] ++ @nil (string * bool)).
    by eapply released_trans.
Qed.

(** ** Sync at start *)

Section sync.
Context `{Externals}.
Implicit Types (objs : list SyncObject) (m : gmap string (gmap string bool))
  (acls : list ACL) (stale : gset string) (ns n pg : string).

Lemma isExpected_true m ns n :
  isExpected m ns n = true ↔ ∃ nsMap, m !! ns = Some nsMap ∧ nsMap !! n = Some true.
Proof.
  unfold isExpected. destruct (m !! ns) as [nsMap|]; simpl.
  - split.
    + intros E. exists nsMap. split; [done|]. destruct (nsMap !! n) as [[]|]; done.
    + intros (? & [= <-] & ->). done.
  - split; [done|]. by intros (? & [=] & _).
Qed.

(** The map built by the first loop holds exactly the policies of the list. *)
Lemma buildExpectedPolicies_spec objs :
  SyncOther ∉ objs →
  ∃ m, buildExpectedPolicies objs = Some m ∧
       (∀ ns n, isExpected m ns n = true ↔ SyncPolicy ns n ∈ objs) ∧
       (∀ ns, m !! ns = None ↔ ∀ n, SyncPolicy ns n ∉ objs).
Proof.
  unfold buildExpectedPolicies.
  induction objs as [|obj objs IH] using rev_ind; intros Hno.
  { exists ∅. split; [done|]. split.
    - intros ns n. rewrite isExpected_true. split; [|by intros ?%elem_of_nil].
      intros (? & E & _). by rewrite lookup_empty in E.
    - intros ns. split; [intros _ n; apply not_elem_of_nil|by rewrite lookup_empty]. }
  rewrite not_elem_of_app in Hno. destruct Hno as [Hno Hobj].
  destruct (IH Hno) as (m & Hm & Hexp & Hnone). rewrite foldl_app, Hm. simpl.
  destruct obj as [ns0 n0|]; [|by destruct Hobj; left].
  set (m' := match m !! ns0 with
             | Some nsMap => <[ns0 := <[n0 := true]> nsMap]> m
             | None => <[ns0 := {[n0 := true]}]> m
             end).
  exists m'. split; [by destruct (m !! ns0)|].
  assert (∀ ns, m' !! ns =
            if decide (ns = ns0) then Some (<[n0 := true]> (default ∅ (m !! ns0)))
            else m !! ns) as Hlook.
  { intros ns. subst m'. destruct (decide (ns = ns0)) as [->|].
    - destruct (m !! ns0); by rewrite lookup_insert_eq.
    - destruct (m !! ns0); by rewrite lookup_insert_ne. }
  split.
  - intros ns n. rewrite isExpected_true, Hlook, elem_of_app, list_elem_of_singleton, <-Hexp,
      isExpected_true.
    destruct (decide (ns = ns0)) as [->|Hne].
    + split.
      * intros (nsMap & [= <-] & Hn). destruct (decide (n = n0)) as [->|Hn0]; [by right|].
        left. rewrite lookup_insert_ne in Hn by done.
        destruct (m !! ns0) as [nsMap|]; simpl in Hn; [by exists nsMap|].
        by rewrite lookup_empty in Hn.
      * intros [(nsMap & E & Hn)|[= ->]].
        -- eexists. split; [done|]. rewrite E. simpl.
           destruct (decide (n = n0)) as [->|]; [by rewrite lookup_insert_eq|].
           by rewrite lookup_insert_ne.
        -- eexists. split; [done|]. by rewrite lookup_insert_eq.
    + split; [by left|]. intros [?|[= ? ?]]; [done|by subst].
  - intros ns. rewrite Hlook. destruct (decide (ns = ns0)) as [->|Hne].
    + split; [done|]. intros Hall. destruct (Hall n0). apply elem_of_app. right. by left.
    + rewrite Hnone. split.
      * intros Hall n. rewrite not_elem_of_app. split; [apply Hall|].
        intros [= ? ?]%list_elem_of_singleton. by subst.
      * intros Hall n. specialize (Hall n). rewrite not_elem_of_app in Hall. tauto.
Qed.

(** The loop over the policy-owned ACLs fails exactly when a key of one of
    them does not parse. *)
Lemma stalePolicyPGs_None m acls stale :
  stalePolicyPGs m acls stale = None ↔
  Exists (λ acl, parseACLPolicyKey (aclObjectName acl) = None) acls.
Proof.
  revert stale. induction acls as [|acl acls IH]; intros stale; simpl.
  { split; [done|]. by intros ?%Exists_nil. }
  rewrite Exists_cons.
  destruct (parseACLPolicyKey (aclObjectName acl)) as [[ns n]|]; [|by split; [left|]].
  destruct (isExpected m ns n); rewrite IH; split; try tauto; by intros [?|?].
Qed.

Lemma stalePolicyPGs_Some m acls stale stale' :
  stalePolicyPGs m acls stale = Some stale' →
  ∀ pg, pg ∈ stale' ↔
    pg ∈ stale ∨
    ∃ acl ns n, acl ∈ acls ∧ parseACLPolicyKey (aclObjectName acl) = Some (ns, n) ∧
                isExpected m ns n = false ∧ pg = (getNetworkPolicyPGName ns n).1.
Proof.
  revert stale. induction acls as [|acl acls IH]; intros stale; simpl.
  { intros [= <-] pg. split; [by left|]. intros [?|(? & ? & ? & ?%elem_of_nil & _)]; done. }
  destruct (parseACLPolicyKey (aclObjectName acl)) as [[ns n]|] eqn:Ep; [|done].
  destruct (isExpected m ns n) eqn:Ee; intros Hs pg; rewrite (IH _ Hs pg).
  - split.
    + intros [?|(a & ns' & n' & Ha & ?)]; [by left|]. right. exists a, ns', n'.
      split; [by right|done].
    + intros [?|(a & ns' & n' & Ha & Hp & He & Hpg)]; [by left|].
      apply elem_of_cons in Ha as [->|Ha].
      * rewrite Ep in Hp. injection Hp as <- <-. by rewrite Ee in He.
      * right. by exists a, ns', n'.
  - rewrite elem_of_union, elem_of_singleton. split.
    + intros [[->|?]|(a & ns' & n' & Ha & ?)].
      * right. exists acl, ns, n. split; [by left|done].
      * by left.
      * right. exists a, ns', n'. split; [by right|done].
    + intros [?|(a & ns' & n' & Ha & Hp & He & Hpg)]; [by left; right|].
      apply elem_of_cons in Ha as [->|Ha].
      * rewrite Ep in Hp. injection Hp as <- <-. by left; left.
      * right. by exists a, ns', n'.
Qed.

Lemma staleDefaultDenyPGs_spec m acls stale pg :
  pg ∈ staleDefaultDenyPGs m acls stale ↔
    pg ∈ stale ∨
    ∃ acl, acl ∈ acls ∧ m !! aclObjectName acl = None ∧
           (pg = defaultDenyPortGroupName (aclObjectName acl) ingressDefaultDenySuffix ∨
            pg = defaultDenyPortGroupName (aclObjectName acl) egressDefaultDenySuffix).
Proof.
  unfold staleDefaultDenyPGs. revert stale.
  induction acls as [|acl acls IH]; intros stale; simpl.
  { split; [by left|]. intros [?|(? & ?%elem_of_nil & _)]; done. }
  rewrite IH. destruct (m !! aclObjectName acl) eqn:Em.
  - split.
    + intros [?|(a & Ha & ?)]; [by left|]. right. exists a. split; [by right|done].
    + intros [?|(a & Ha & Hn & Hpg)]; [by left|].
      apply elem_of_cons in Ha as [->|Ha]; [by rewrite Em in Hn|].
      right. by exists a.
  - rewrite !elem_of_union, !elem_of_singleton. split.
    + intros [[->|[->|?]]|(a & Ha & ?)].
      * right. exists acl. split; [by left|]. split; [done|by right].
      * right. exists acl. split; [by left|]. split; [done|by left].
      * by left.
      * right. exists a. split; [by right|done].
    + intros [?|(a & Ha & Hn & Hpg)]; [by left; right; right|].
      apply elem_of_cons in Ha as [->|Ha]; [left; tauto|].
      right. by exists a.
Qed.

(** The owner name read by the code is the owner name of the ACL. *)
Lemma aclObjectName_ownerName (acl : ACL) : aclObjectName acl = ownerName acl.
Proof.
  unfold aclObjectName, ownerName. induction (objectIDs (aclIDs acl)) as [|[k v] ids IH];
    [done|].
  cbn [getExternalID list_find]. cbn [fst].
  destruct (decide (k = ObjectNameKey)) as [->|Hk]; [done|].
  rewrite IH. by destruct (list_find _ ids) as [[i [k' v']]|].
Qed.

Lemma ownedACLs_taggedAs (t : ObjectIDsType) (nb : NBDB) (acl : ACL) :
  acl ∈ ownedACLs t nb ↔ taggedAs t nb acl.
Proof. unfold ownedACLs, taggedAs. rewrite list_elem_of_filter. tauto. Qed.

Lemma append_assoc (a b c : string) : (a +:+ b) +:+ c = a +:+ (b +:+ c).
Proof.
  induction a as [|x a IH]; [done|].
  change (String x ((a +:+ b) +:+ c) = String x (a +:+ (b +:+ c))). by rewrite IH.
Qed.

Lemma hairpinMatch_hairpinSourceMatch : hairpinMatch = hairpinSourceMatch.
Proof.
  unfold hairpinMatch, hairpinSourceMatch. destruct IPv4Mode, IPv6Mode; simpl; [|done..].
  by rewrite !append_assoc.
Qed.

Lemma hairpinACLs_hairpinAllowACLs : [hairpinIngressACL; hairpinEgressACL] = hairpinAllowACLs.
Proof.
  unfold hairpinAllowACLs, hairpinIngressACL, hairpinEgressACL, hairpinAllowACL.
  by rewrite hairpinMatch_hairpinSourceMatch.
Qed.

(** What [addHairpinAllowACL] does: it fails in an operation builder and does
    nothing, or it submits the two operations in one transaction. *)
Lemma addHairpinAllowACL_run f w :
  let r := addHairpinAllowACL f w in
  if opsFail f 0 || opsFail f 1
  then is_Some r.1 ∧ r.2 = w
  else r = TransactAndCheck (transactFails f)
             [OpCreateOrUpdateACLs hairpinAllowACLs;
              OpAddACLsToPortGroup ClusterPortGroupName hairpinAllowACLs] w.
Proof.
  unfold addHairpinAllowACL, buildOps. rewrite <-hairpinACLs_hairpinAllowACLs. simpl.
  destruct (opsFail f 0); simpl; [by split; [eexists|]|].
  destruct (opsFail f 1); simpl; [by split; [eexists|]|]. done.
Qed.

(** The last step of sync, with the error as sync returns it. *)
Lemma hairpin_step f w err w' :
  (match addHairpinAllowACL f w with
   | (Some e, w2) => (Some (wrapErr "failed to create allow hairping acl" e), w2)
   | (None, w2) => (None, w2)
   end) = (err, w') → hairpinInstalled f w err w'.
Proof.
  intros E. pose proof (addHairpinAllowACL_run f w) as Hrun.
  unfold hairpinInstalled. simpl in Hrun.
  destruct (opsFail f 0 || opsFail f 1).
  - destruct Hrun as [[e He] Hw].
    destruct (addHairpinAllowACL f w) as [[e'|] w2]; simpl in *;
      simplify_eq. by split; [eexists|].
  - rewrite Hrun in E. unfold TransactAndCheck in *.
    destruct (transactFails f); simplify_eq; by split.
Qed.

(** Rows of the ACL table under create-or-update. *)
Lemma upsertACL_elem (acl : ACL) (rows : list ACL) : acl ∈ upsertACL acl rows.
Proof.
  induction rows as [|row rows IH]; simpl; [left|].
  destruct (decide _); [left|by right].
Qed.

Lemma upsertACL_other (acl row : ACL) (rows : list ACL) :
  row ∈ rows → aclIDs row ≠ aclIDs acl → row ∈ upsertACL acl rows.
Proof.
  intros Hin Hne. induction rows as [|r rows IH]; [by apply elem_of_nil in Hin|].
  simpl. apply elem_of_cons in Hin as [->|Hin].
  - rewrite decide_False by done. left.
  - destruct (decide _); right; [done|by apply IH].
Qed.

Lemma upsertACL_from (acl row : ACL) (rows : list ACL) :
  row ∈ upsertACL acl rows → row = acl ∨ row ∈ rows.
Proof.
  induction rows as [|r rows IH]; simpl.
  - intros ->%list_elem_of_singleton. by left.
  - destruct (decide _).
    + intros [->|?]%elem_of_cons; [by left|right; by right].
    + intros [->|Hin]%elem_of_cons; [right; left|].
      destruct (IH Hin) as [?|?]; [by left|right; by right].
Qed.

Lemma upsertACL_NoDup (acl : ACL) (rows : list ACL) :
  NoDup (aclIDs <$> rows) → NoDup (aclIDs <$> upsertACL acl rows).
Proof.
  induction rows as [|r rows IH]; simpl.
  - intros _. apply NoDup_singleton.
  - rewrite NoDup_cons. intros [Hr Hnd]. destruct (decide (aclIDs r = aclIDs acl)) as [E|Hne].
    + rewrite fmap_cons, <-E. by apply NoDup_cons.
    + rewrite fmap_cons. apply NoDup_cons. split; [|by apply IH].
      rewrite list_elem_of_fmap. intros (x & Ex & [->|Hx]%upsertACL_from); [done|].
      apply Hr. rewrite list_elem_of_fmap. by exists x.
Qed.

(** The port groups after a deletion. *)
Lemma foldl_delete_lookup (names : list string) (t : gmap string PortGroup) pg :
  foldl (λ t n, delete n t) t names !! pg =
    if decide (pg ∈ names) then None else t !! pg.
Proof.
  revert t. induction names as [|n names IH]; intros t.
  - simpl. destruct (decide (pg ∈ [])) as [Hin|]; [by apply elem_of_nil in Hin|done].
  - cbn [foldl]. rewrite IH. destruct (decide (pg ∈ n :: names)) as [Hin|Hnot].
    + destruct (decide (pg ∈ names)); [done|].
      apply elem_of_cons in Hin as [->|?]; [by rewrite lookup_delete_eq|done].
    + rewrite not_elem_of_cons in Hnot. destruct Hnot as [Hne Hnot].
      destruct (decide (pg ∈ names)); [done|]. by rewrite lookup_delete_ne.
Qed.

(** The ACLs bound to a port group stay bound when ACLs are added to one. *)
Lemma aclBound_alter (pgs : gmap string PortGroup) (name : string) (acls : list ACL)
    (ids : DbObjectIDs) :
  aclBound pgs ids → aclBound (alter (setACLs (λ l, l ++ acls)) name pgs) ids.
Proof.
  unfold aclBound. rewrite !map_Exists_lookup. intros (i & g & Hg & Hin).
  destruct (decide (i = name)) as [->|Hne].
  - exists name, (setACLs (λ l, l ++ acls) g). split; [by rewrite lookup_alter_eq, Hg|].
    simpl. rewrite fmap_app, elem_of_app. by left.
  - exists i, g. split; [by rewrite lookup_alter_ne|done].
Qed.

(** The database after the last step of a successful sync, from the database
    [nb1] that the deletion of the stale port groups left of [nb]. *)
Lemma hairpinInstalled_synced f w1 err w' (stalePGs : gset string) (nb : NBDB) :
  hairpinInstalled f w1 err w' → err = None →
  (∀ pg, nbPortGroups (nbClient w1) !! pg =
         if decide (pg ∈ stalePGs) then None else nbPortGroups nb !! pg) →
  (∀ acl, acl ∈ nbACLs (nbClient w1) →
          acl ∈ nbACLs nb ∧
          (aclBound (nbPortGroups nb) (aclIDs acl) →
           aclBound (nbPortGroups (nbClient w1)) (aclIDs acl))) →
  (NoDup (aclIDs <$> nbACLs nb) → NoDup (aclIDs <$> nbACLs (nbClient w1))) →
  synced stalePGs nb (nbClient w').
Proof.
  unfold hairpinInstalled. intros Hh -> Hpgs Hrows Hnd.
  destruct (opsFail f 0 || opsFail f 1); [by destruct Hh as [[? [=]] _]|].
  destruct Hh as [-> Hok]. rewrite (proj1 Hok eq_refl).
  unfold TransactAndCheck, synced. cbn [snd foldl applyOp nbClient setNB emit nbPortGroups
    nbACLs hairpinAllowACLs].
  set (ing := hairpinAllowACL "Ingress" lportIngress).
  set (eg := hairpinAllowACL "Egress" lportEgressAfterLB).
  assert (aclIDs ing ≠ aclIDs eg) as Hdir by (intros [=]).
  split; [|split; [|split; [|split; [|split]]]].
  - intros pg Hpg. destruct (decide (pg = ClusterPortGroupName)) as [->|Hne].
    + by rewrite lookup_alter_eq, Hpgs, decide_True.
    + by rewrite lookup_alter_ne, Hpgs, decide_True.
  - intros pg Hpg Hne. by rewrite lookup_alter_ne, Hpgs, decide_False.
  - intros Hc. by rewrite lookup_alter_eq, Hpgs, decide_False.
  - intros acl [->|[->|[]%elem_of_nil]%elem_of_cons]%elem_of_cons.
    + apply upsertACL_other; [apply upsertACL_elem|done].
    + apply upsertACL_elem.
  - intros acl Hin Hnot.
    apply upsertACL_from in Hin as [->|Hin]; [destruct Hnot; right; left|].
    apply upsertACL_from in Hin as [->|Hin]; [destruct Hnot; left|].
    destruct (Hrows acl Hin) as [Hold Hbound]. split; [done|].
    intros Hb. by apply aclBound_alter, Hbound.
  - intros Hn. by apply upsertACL_NoDup, upsertACL_NoDup, Hnd.
Qed.

(** The rows that the deletion of port groups leaves. *)
Lemma collectACLs_spec (pgs pgs' : gmap string PortGroup) (rows : list ACL) :
  (∀ acl, acl ∈ collectACLs pgs pgs' rows →
          acl ∈ rows ∧ (aclBound pgs (aclIDs acl) → aclBound pgs' (aclIDs acl))) ∧
  (NoDup (aclIDs <$> rows) → NoDup (aclIDs <$> collectACLs pgs pgs' rows)).
Proof.
  unfold collectACLs. split.
  - intros acl [? ?]%list_elem_of_filter. by split.
  - intros Hnd. eapply sublist_NoDup; [exact Hnd|].
    apply fmap_sublist, sublist_filter.
Qed.
End sync.

(** C6. The list given to [syncNetworkPolicies] holds the live policies,
    and both searches of the database succeed.  If the owner name of an ACL
    row tagged as policy-owned does not decode to a namespace and a name,
    sync returns an error right after the first search: nothing is deleted.
    Otherwise the stale port groups are exactly the port groups
    [hash(namespace_name)] of the policies that a policy-owned ACL names and
    that are not in the list, and both default-deny port groups of every
    namespace that a default-deny ACL names and that has no policy in the
    list.  When there is none, no deletion is called; else all of them are
    deleted in one call of [DeletePortGroups], and sync returns an error when
    that call fails.  After that the hairpin-allow ACL is installed: its two
    ACLs (action [allow-related], matching the reserved hairpin source
    addresses) are written and bound to the cluster port group in one
    transaction, and sync returns [nil] when it succeeds.  The database is
    then as [synced] says: the stale port groups are gone, with the ACLs that
    only they contained, the other port groups are untouched, and each
    hairpin-allow ACL is a row of the ACL table. *)
Theorem syncNetworkPolicies_spec `{Externals}
    (networkPolicies : list SyncObject) (f : SyncFaults) (w : World) :
  SyncOther ∉ networkPolicies →
  findPolicyACLsFails f = false →
  findDefaultDenyACLsFails f = false →
  let found1 := emit (EvFindACLs ACLNetworkPolicy true) w in
  let found := emit (EvFindACLs ACLNetpolNamespace true) found1 in
  let undecodable := ∃ acl, taggedAs ACLNetworkPolicy (nbClient w) acl ∧
                            parseACLPolicyKey (ownerName acl) = None in
  let '(err, w') := syncNetworkPolicies networkPolicies f w in
  (undecodable → is_Some err ∧ w' = found1) ∧
  (¬ undecodable →
    ∃ stalePGs : gset string,
      (∀ pg, pg ∈ stalePGs ↔ stalePortGroup networkPolicies (nbClient w) pg) ∧
      (if decide (stalePGs = ∅)
       then hairpinInstalled (hairpinFaults f) found err w'
       else if deletePortGroupsFails f
       then is_Some err ∧ w' = emit (EvDeletePortGroups (elements stalePGs) false) found
       else hairpinInstalled (hairpinFaults f)
              (emit (EvDeletePortGroups (elements stalePGs) true)
                 (setNB (applyOp (nbClient w) (OpDeletePortGroups (elements stalePGs))) found))
              err w') ∧
      (err = None → synced stalePGs (nbClient w) (nbClient w'))).
Proof.
  intros Hlive F1 F2 found1 found undecodable.
  destruct (buildExpectedPolicies_spec networkPolicies Hlive) as (m & Hm & Hexp & Hnone).
  assert (∀ ns n, isExpected m ns n = false ↔ SyncPolicy ns n ∉ networkPolicies) as Hexp'.
  { intros ns n. rewrite <-Hexp. by destruct (isExpected m ns n). }
  assert (undecodable ↔
          stalePolicyPGs m (ownedACLs ACLNetworkPolicy (nbClient w)) ∅ = None) as Hund.
  { rewrite (stalePolicyPGs_None m _ ∅), Exists_exists. unfold undecodable.
    split; intros (acl & Ha & Hp); exists acl.
    - by rewrite ownedACLs_taggedAs, aclObjectName_ownerName.
    - by rewrite <-ownedACLs_taggedAs, <-aclObjectName_ownerName. }
  unfold syncNetworkPolicies, FindACLsWithPredicate. rewrite Hm, F1, F2.
  fold found1. change (nbClient found1) with (nbClient w).
  destruct (stalePolicyPGs m (ownedACLs ACLNetworkPolicy (nbClient w)) ∅) as [stale1|] eqn:E1.
  2: { split; [intros _; by split; [eexists|]|]. intros Hno. destruct Hno. by apply Hund. }
  assert (¬ undecodable) as Hdec by (by intros [=]%Hund).
  fold found.
  set (stalePGs := staleDefaultDenyPGs m (ownedACLs ACLNetpolNamespace (nbClient w)) stale1).
  assert (∀ pg, pg ∈ stalePGs ↔ stalePortGroup networkPolicies (nbClient w) pg) as Hstale.
  { intros pg. unfold stalePGs, stalePortGroup.
    rewrite staleDefaultDenyPGs_spec, (stalePolicyPGs_Some m _ ∅ stale1 E1 pg). split.
    - intros [[?%not_elem_of_empty|(acl & ns & n & Ha & Hp & He & ->)]
             |(acl & Ha & Hn & Hpg)]; [done| |].
      + left. exists acl, ns, n. rewrite <-ownedACLs_taggedAs, <-aclObjectName_ownerName.
        by rewrite <-Hexp'.
      + right. exists acl. rewrite <-ownedACLs_taggedAs, <-aclObjectName_ownerName.
        by rewrite <-Hnone.
    - intros [(acl & ns & n & Ha & Hp & He & ->)|(acl & Ha & Hn & Hpg)].
      + left. right. exists acl, ns, n.
        rewrite <-ownedACLs_taggedAs, <-aclObjectName_ownerName in *. by rewrite Hexp'.
      + right. exists acl.
        rewrite <-ownedACLs_taggedAs, <-aclObjectName_ownerName in *. by rewrite Hnone. }
  destruct (decide (stalePGs = ∅)) as [Hempty|Hne].
  - rewrite (decide_False (P := 0 < size stalePGs)) by (rewrite Hempty, size_empty; lia).
    destruct (addHairpinAllowACL (hairpinFaults f) found) as [e w2] eqn:Eh.
    assert (hairpinInstalled (hairpinFaults f) found
              (match e with
               | Some e' => Some (wrapErr "failed to create allow hairping acl" e')
               | None => None
               end) w2) as Hh
      by (apply hairpin_step; rewrite Eh; by destruct e).
    assert (e = None → synced stalePGs (nbClient w) (nbClient w2)) as Hsy.
    { intros He. eapply (hairpinInstalled_synced _ found); [exact Hh|by rewrite He|..].
      - intros pg. rewrite Hempty. by rewrite decide_False by apply not_elem_of_empty.
      - intros acl Hin. by split.
      - done. }
    destruct e; (split; [done|]; intros _; exists stalePGs; split; [exact Hstale|];
                 rewrite decide_True by done; split; [done|]).
    + by intros [=].
    + intros _. by apply Hsy.
  - rewrite (decide_True (P := 0 < size stalePGs)).
    2: { destruct (decide (size stalePGs = 0)) as [Hz|]; [|lia].
         by apply size_0_empty in Hz. }
    unfold DeletePortGroups. destruct (deletePortGroupsFails f) eqn:Ed.
    + split; [done|]. intros _. exists stalePGs. split; [exact Hstale|].
      rewrite decide_False by done. split; [by split; [eexists|]|]. by intros [=].
    + change (nbClient found) with (nbClient w).
      match goal with |- context [addHairpinAllowACL ?hf ?wd] =>
        set (w1 := wd);
        destruct (addHairpinAllowACL hf w1) as [e w2] eqn:Eh;
        assert (hairpinInstalled hf w1
                  (match e with
                   | Some e' => Some (wrapErr "failed to create allow hairping acl" e')
                   | None => None
                   end) w2) as Hh
          by (apply hairpin_step; rewrite Eh; by destruct e)
      end.
      assert (e = None → synced stalePGs (nbClient w) (nbClient w2)) as Hsy.
      { intros He. eapply (hairpinInstalled_synced _ w1); [exact Hh|by rewrite He|..].
        - intros pg. subst w1. cbn [nbClient setNB emit applyOp nbPortGroups].
          rewrite foldl_delete_lookup.
          destruct (decide (pg ∈ elements stalePGs)) as [Hin|Hnot].
          + by rewrite decide_True by (by apply elem_of_elements).
          + rewrite decide_False; [done|]. by rewrite <-elem_of_elements.
        - intros acl. subst w1. cbn [nbClient setNB emit applyOp nbPortGroups nbACLs].
          apply collectACLs_spec.
        - subst w1. cbn [nbClient setNB emit applyOp nbPortGroups nbACLs].
          apply collectACLs_spec. }
      destruct e; (split; [done|]; intros _; exists stalePGs; split; [exact Hstale|];
                   rewrite decide_False by done; split; [done|]).
      * by intros [=].
      * intros _. by apply Hsy.
Qed.

(** * Further properties *)

(** ** Reference counting in the shared record *)

Section reference_counting.
Implicit Types (np : networkPolicy) (ports : gmap string string)
  (s : defaultDenyPortGroups) (m : gmap string (gset string)).

Lemma filter_none {A} (P : A → Prop) `{!∀ x, Decision (P x)} (xs : list A) :
  (∀ x, x ∈ xs → ¬ P x) → filter P xs = [].
Proof.
  induction xs as [|a xs IH]; intros Hno; [done|].
  rewrite filter_cons, decide_False by (apply Hno; by left).
  apply IH. intros x Hx. apply Hno. by right.
Qed.

(** One direction of [addPortsForPolicyIn], for a range of the map. *)
Lemma addPorts_range key ports l m :
  l ≡ₚ map_to_list ports →
  (∀ p, refs (addPorts key l m).1 p =
        if decide (p ∈ dom ports) then {[key]} ∪ refs m p else refs m p) ∧
  (addPorts key l m).2 ≡ₚ (filter (λ pu, refs m pu.1 = ∅) (map_to_list ports)).*2.
Proof.
  intros Hl. split.
  - intros p. rewrite refs_addPorts.
    pose proof (range_elem_of ports l p Hl) as Hr.
    destruct (decide (p ∈ l.*1)), (decide (p ∈ dom ports)); tauto.
  - rewrite addPorts_emitted by eauto using range_NoDup.
    apply fmap_Permutation. by rewrite Hl.
Qed.

Lemma deletePorts_range key ports l m :
  l ≡ₚ map_to_list ports →
  (∀ p, refs (deletePorts key l m).1 p =
        if decide (p ∈ dom ports) then refs m p ∖ {[key]} else refs m p) ∧
  (deletePorts key l m).2 ≡ₚ
    (filter (λ pu, refs m pu.1 ∖ {[key]} = ∅) (map_to_list ports)).*2.
Proof.
  intros Hl. split.
  - intros p. rewrite refs_deletePorts.
    pose proof (range_elem_of ports l p Hl) as Hr.
    destruct (decide (p ∈ l.*1)), (decide (p ∈ dom ports)); tauto.
  - rewrite deletePorts_emitted by eauto using range_NoDup.
    apply fmap_Permutation. by rewrite Hl.
Qed.

(** The maps after the two loops depend on the range only through the ports
    it enumerates. *)
Lemma addPorts_order key ports l l' m :
  l ≡ₚ map_to_list ports → l' ≡ₚ map_to_list ports →
  (addPorts key l m).1 = (addPorts key l' m).1.
Proof.
  intros Hl Hl'. apply map_eq. intros p. rewrite !addPorts_lookup.
  pose proof (range_elem_of ports l p Hl). pose proof (range_elem_of ports l' p Hl').
  destruct (decide (p ∈ l.*1)), (decide (p ∈ l'.*1)); tauto.
Qed.

Lemma deletePorts_order key ports l l' m :
  l ≡ₚ map_to_list ports → l' ≡ₚ map_to_list ports →
  (deletePorts key l m).1 = (deletePorts key l' m).1.
Proof.
  intros Hl Hl'. apply map_eq. intros p. rewrite !deletePorts_lookup.
  pose proof (range_elem_of ports l p Hl). pose proof (range_elem_of ports l' p Hl').
  destruct (decide (p ∈ l.*1)), (decide (p ∈ l'.*1)); tauto.
Qed.

(** Adding a key that every port of the range holds changes nothing. *)
Lemma addPorts_held key ports l m :
  l ≡ₚ map_to_list ports →
  (∀ p, p ∈ dom ports → key ∈ refs m p) →
  addPorts key l m = (m, []).
Proof.
  intros Hl Hheld.
  rewrite (surjective_pairing (addPorts key l m)). f_equal.
  - apply map_eq. intros p. rewrite addPorts_lookup.
    pose proof (range_elem_of ports l p Hl) as Hr.
    destruct (decide (p ∈ l.*1)) as [Hin|]; [|done].
    specialize (Hheld p (proj1 Hr Hin)). unfold refs in *.
    destruct (m !! p) as [x|]; simpl in *; [|set_solver].
    f_equal. set_solver.
  - rewrite addPorts_emitted by eauto using range_NoDup.
    rewrite filter_none; [done|]. intros [p u] Hin. simpl. intros E.
    assert (p ∈ dom ports) as Hp.
    { apply (range_elem_of ports l p Hl), list_elem_of_fmap. by exists (p, u). }
    specialize (Hheld p Hp). rewrite E in Hheld. set_solver.
Qed.

(** Deleting a key that no port of the range holds leaves a map without
    empty sets as it is. *)
Lemma deletePorts_fresh key ports l m :
  l ≡ₚ map_to_list ports →
  noEmptyRefs m →
  (∀ p, p ∈ dom ports → key ∉ refs m p) →
  (deletePorts key l m).1 = m.
Proof.
  intros Hl Hwf Hfresh. apply map_eq. intros p. rewrite deletePorts_lookup.
  pose proof (range_elem_of ports l p Hl) as Hr.
  destruct (decide (p ∈ l.*1)) as [Hin|]; [|done].
  specialize (Hfresh p (proj1 Hr Hin)).
  replace (refs m p ∖ {[key]}) with (refs m p) by set_solver.
  destruct (decide (refs m p = ∅)) as [E|E].
  - symmetry. by apply refs_noEmpty.
  - unfold refs in *. destruct (m !! p); [done|]. by destruct E.
Qed.
End reference_counting.

(** X1. [addPortsForPolicy] for a policy with key [k], whatever the orders in
    which its two loops enumerate the port map: in each direction that the
    policy has, every port of the map gets [k] added to its reference set and
    the other ports keep theirs; a direction that the policy does not have is
    left alone, and so is [policies].  The UUIDs returned for a direction are
    those of the ports of the map that had no reference in that direction
    before the call, each once. *)
Theorem addPortsForPolicy_counts_references
    (np : networkPolicy) (portNamesToUUIDs : gmap string string)
    (sharedPGs : defaultDenyPortGroups) (ingressRange egressRange : list (string * string)) :
  ingressRange ≡ₚ map_to_list portNamesToUUIDs →
  egressRange ≡ₚ map_to_list portNamesToUUIDs →
  let '(sharedPGs', ingressDenyPorts, egressDenyPorts) :=
    addPortsForPolicyIn np ingressRange egressRange sharedPGs in
  (∀ portName,
     refs (ingressPortToPolicies sharedPGs') portName =
       if decide (isIngress np = true ∧ portName ∈ dom portNamesToUUIDs)
       then {[getKey np]} ∪ refs (ingressPortToPolicies sharedPGs) portName
       else refs (ingressPortToPolicies sharedPGs) portName) ∧
  (∀ portName,
     refs (egressPortToPolicies sharedPGs') portName =
       if decide (isEgress np = true ∧ portName ∈ dom portNamesToUUIDs)
       then {[getKey np]} ∪ refs (egressPortToPolicies sharedPGs) portName
       else refs (egressPortToPolicies sharedPGs) portName) ∧
  policies sharedPGs' = policies sharedPGs ∧
  ingressDenyPorts ≡ₚ
    (if isIngress np
     then (filter (λ pu, refs (ingressPortToPolicies sharedPGs) pu.1 = ∅)
             (map_to_list portNamesToUUIDs)).*2
     else []) ∧
  egressDenyPorts ≡ₚ
    (if isEgress np
     then (filter (λ pu, refs (egressPortToPolicies sharedPGs) pu.1 = ∅)
             (map_to_list portNamesToUUIDs)).*2
     else []).
Proof.
  intros Hi He. unfold addPortsForPolicyIn.
  destruct (addPorts_range (getKey np) portNamesToUUIDs ingressRange
              (ingressPortToPolicies sharedPGs) Hi) as [Hri Hpi].
  destruct (addPorts_range (getKey np) portNamesToUUIDs egressRange
              (egressPortToPolicies sharedPGs) He) as [Hre Hpe].
  destruct (addPorts (getKey np) ingressRange _) as [ing newI].
  destruct (addPorts (getKey np) egressRange _) as [eg newE].
  simpl in *.
  destruct (isIngress np), (isEgress np); simpl;
    (split; [intros p; rewrite ?Hri; repeat case_decide;
             first [done | exfalso; intuition congruence]|]);
    (split; [intros p; rewrite ?Hre; repeat case_decide;
             first [done | exfalso; intuition congruence]|]);
    done.
Qed.

(** X2. [deletePortsForPolicy] for a policy with key [k], whatever the orders
    of its two loops: in each direction that the policy has, every port of
    the map loses [k] from its reference set, and the UUIDs returned are
    those of the ports of the map whose set is empty afterwards, which
    includes a port that had no reference at all; other ports, a direction
    that the policy does not have, and [policies] are left alone. *)
Theorem deletePortsForPolicy_counts_references
    (np : networkPolicy) (portNamesToUUIDs : gmap string string)
    (sharedPGs : defaultDenyPortGroups) (ingressRange egressRange : list (string * string)) :
  ingressRange ≡ₚ map_to_list portNamesToUUIDs →
  egressRange ≡ₚ map_to_list portNamesToUUIDs →
  let '(sharedPGs', ingressDenyPorts, egressDenyPorts) :=
    deletePortsForPolicyIn np ingressRange egressRange sharedPGs in
  (∀ portName,
     refs (ingressPortToPolicies sharedPGs') portName =
       if decide (isIngress np = true ∧ portName ∈ dom portNamesToUUIDs)
       then refs (ingressPortToPolicies sharedPGs) portName ∖ {[getKey np]}
       else refs (ingressPortToPolicies sharedPGs) portName) ∧
  (∀ portName,
     refs (egressPortToPolicies sharedPGs') portName =
       if decide (isEgress np = true ∧ portName ∈ dom portNamesToUUIDs)
       then refs (egressPortToPolicies sharedPGs) portName ∖ {[getKey np]}
       else refs (egressPortToPolicies sharedPGs) portName) ∧
  policies sharedPGs' = policies sharedPGs ∧
  ingressDenyPorts ≡ₚ
    (if isIngress np
     then (filter (λ pu, refs (ingressPortToPolicies sharedPGs) pu.1 ∖ {[getKey np]} = ∅)
             (map_to_list portNamesToUUIDs)).*2
     else []) ∧
  egressDenyPorts ≡ₚ
    (if isEgress np
     then (filter (λ pu, refs (egressPortToPolicies sharedPGs) pu.1 ∖ {[getKey np]} = ∅)
             (map_to_list portNamesToUUIDs)).*2
     else []).
Proof.
  intros Hi He. unfold deletePortsForPolicyIn.
  destruct (deletePorts_range (getKey np) portNamesToUUIDs ingressRange
              (ingressPortToPolicies sharedPGs) Hi) as [Hri Hpi].
  destruct (deletePorts_range (getKey np) portNamesToUUIDs egressRange
              (egressPortToPolicies sharedPGs) He) as [Hre Hpe].
  destruct (deletePorts (getKey np) ingressRange _) as [ing freedI].
  destruct (deletePorts (getKey np) egressRange _) as [eg freedE].
  simpl in *.
  destruct (isIngress np), (isEgress np); simpl;
    (split; [intros p; rewrite ?Hri; repeat case_decide;
             first [done | exfalso; intuition congruence]|]);
    (split; [intros p; rewrite ?Hre; repeat case_decide;
             first [done | exfalso; intuition congruence]|]);
    done.
Qed.

(** X3. The result of [addPortsForPolicy] and of [deletePortsForPolicy] does
    not depend on the order in which Go enumerates the port map: for any two
    choices of the orders of the two loops the records are equal and the
    returned lists hold the same UUIDs. *)
Theorem portsForPolicy_range_order
    (np : networkPolicy) (portNamesToUUIDs : gmap string string)
    (sharedPGs : defaultDenyPortGroups)
    (ingressRange egressRange ingressRange' egressRange' : list (string * string)) :
  ingressRange ≡ₚ map_to_list portNamesToUUIDs →
  egressRange ≡ₚ map_to_list portNamesToUUIDs →
  ingressRange' ≡ₚ map_to_list portNamesToUUIDs →
  egressRange' ≡ₚ map_to_list portNamesToUUIDs →
  let a := addPortsForPolicyIn np ingressRange egressRange sharedPGs in
  let a' := addPortsForPolicyIn np ingressRange' egressRange' sharedPGs in
  let d := deletePortsForPolicyIn np ingressRange egressRange sharedPGs in
  let d' := deletePortsForPolicyIn np ingressRange' egressRange' sharedPGs in
  (a.1.1 = a'.1.1 ∧ a.1.2 ≡ₚ a'.1.2 ∧ a.2 ≡ₚ a'.2) ∧
  (d.1.1 = d'.1.1 ∧ d.1.2 ≡ₚ d'.1.2 ∧ d.2 ≡ₚ d'.2).
Proof.
  intros Hi He Hi' He'. simpl. unfold addPortsForPolicyIn, deletePortsForPolicyIn.
  pose proof (addPorts_order (getKey np) portNamesToUUIDs _ _
                (ingressPortToPolicies sharedPGs) Hi Hi') as Ai.
  pose proof (addPorts_order (getKey np) portNamesToUUIDs _ _
                (egressPortToPolicies sharedPGs) He He') as Ae.
  pose proof (deletePorts_order (getKey np) portNamesToUUIDs _ _
                (ingressPortToPolicies sharedPGs) Hi Hi') as Di.
  pose proof (deletePorts_order (getKey np) portNamesToUUIDs _ _
                (egressPortToPolicies sharedPGs) He He') as De.
  pose proof (proj2 (addPorts_range (getKey np) portNamesToUUIDs _
                (ingressPortToPolicies sharedPGs) Hi)) as Pi.
  pose proof (proj2 (addPorts_range (getKey np) portNamesToUUIDs _
                (ingressPortToPolicies sharedPGs) Hi')) as Pi'.
  pose proof (proj2 (addPorts_range (getKey np) portNamesToUUIDs _
                (egressPortToPolicies sharedPGs) He)) as Pe.
  pose proof (proj2 (addPorts_range (getKey np) portNamesToUUIDs _
                (egressPortToPolicies sharedPGs) He')) as Pe'.
  pose proof (proj2 (deletePorts_range (getKey np) portNamesToUUIDs _
                (ingressPortToPolicies sharedPGs) Hi)) as Qi.
  pose proof (proj2 (deletePorts_range (getKey np) portNamesToUUIDs _
                (ingressPortToPolicies sharedPGs) Hi')) as Qi'.
  pose proof (proj2 (deletePorts_range (getKey np) portNamesToUUIDs _
                (egressPortToPolicies sharedPGs) He)) as Qe.
  pose proof (proj2 (deletePorts_range (getKey np) portNamesToUUIDs _
                (egressPortToPolicies sharedPGs) He')) as Qe'.
  destruct (addPorts (getKey np) ingressRange _), (addPorts (getKey np) ingressRange' _),
    (addPorts (getKey np) egressRange _), (addPorts (getKey np) egressRange' _),
    (deletePorts (getKey np) ingressRange _), (deletePorts (getKey np) ingressRange' _),
    (deletePorts (getKey np) egressRange _), (deletePorts (getKey np) egressRange' _).
  simpl in *. subst.
  destruct (isIngress np), (isEgress np); simpl; repeat split;
    rewrite ?Pi, ?Pe, ?Qi, ?Qe, ?Pi', ?Pe', ?Qi', ?Qe'; done.
Qed.

(** X4. Both operations can be repeated.  When every port of the map holds
    the key of the policy already, in the directions of the policy,
    [addPortsForPolicy] returns the record as it is and no port to add.  When
    no port of the map holds it, [deletePortsForPolicy] returns the record as
    it is (a record without empty reference sets). *)
Theorem portsForPolicy_repeat
    (np : networkPolicy) (heldPorts freshPorts : gmap string string)
    (sharedPGs : defaultDenyPortGroups) :
  heldBy np heldPorts sharedPGs →
  freshFor np freshPorts sharedPGs →
  wfDefaultDeny sharedPGs →
  addPortsForPolicy np heldPorts sharedPGs = (sharedPGs, [], []) ∧
  (deletePortsForPolicy np freshPorts sharedPGs).1.1 = sharedPGs.
Proof.
  intros Hheld Hfresh [Hwi Hwe]. destruct sharedPGs as [ing eg pol]. simpl in *. split.
  - unfold addPortsForPolicy, addPortsForPolicyIn. simpl.
    assert (isIngress np = true →
      addPorts (getKey np) (map_to_list heldPorts) ing = (ing, [])) as Ei.
    { intros E. apply (addPorts_held _ heldPorts); [done|]. intros p Hp. by apply Hheld. }
    assert (isEgress np = true →
      addPorts (getKey np) (map_to_list heldPorts) eg = (eg, [])) as Ee.
    { intros E. apply (addPorts_held _ heldPorts); [done|]. intros p Hp. by apply Hheld. }
    destruct (isIngress np), (isEgress np); rewrite ?Ei, ?Ee by done; done.
  - unfold deletePortsForPolicy, deletePortsForPolicyIn. simpl.
    assert (isIngress np = true →
      (deletePorts (getKey np) (map_to_list freshPorts) ing).1 = ing) as Ei.
    { intros E. apply (deletePorts_fresh _ freshPorts); [done|done|].
      intros p Hp. by apply Hfresh. }
    assert (isEgress np = true →
      (deletePorts (getKey np) (map_to_list freshPorts) eg).1 = eg) as Ee.
    { intros E. apply (deletePorts_fresh _ freshPorts); [done|done|].
      intros p Hp. by apply Hfresh. }
    destruct (isIngress np), (isEgress np);
      repeat match goal with
      | |- context [deletePorts ?k ?l ?m] =>
          let E := fresh in destruct (deletePorts k l m) eqn:E; simpl in *
      end; rewrite <-?Ei, <-?Ee by done; simpl; try done.
Qed.

(** ** The events of a run *)

Lemma trace_setNetworkPolicies g w : trace (setNetworkPolicies g w) = trace w.
Proof. done. Qed.

Lemma trace_RLock np w : trace (RLock np w) = trace w ++ [EvPolicyLock (getKey np) false].
Proof. done. Qed.

Lemma trace_RUnlock np w : trace (RUnlock np w) = trace w ++ [EvPolicyUnlock (getKey np) false].
Proof. done. Qed.

Ltac trace_norm :=
  cbn [fst snd];
  repeat first [ rewrite trace_emit | rewrite trace_LockKey | rewrite trace_UnlockKey
               | rewrite trace_RLock | rewrite trace_RUnlock
               | rewrite trace_writeCounters | rewrite trace_setNB | rewrite trace_setShared
               | rewrite trace_setNetworkPolicies ];
  rewrite <-?(assoc_L (++)).

Ltac trace_eq := trace_norm; cbn [app]; rewrite ?app_nil_r; reflexivity.

Ltac trace_ex := eexists; split; [trace_norm; reflexivity|done].

Section run_events.
Context `{Externals}.
Implicit Types (np : networkPolicy) (ports : gmap string string)
  (ops : list Operation) (f : Faults) (w : World).

(** The events of a run of [denyPGAddPorts], in order. *)
Lemma denyPGAddPorts_events np ports ops f w :
  let ns := namespace np in
  let rollback := if transactFails f then [EvCounters ns true] else [] in
  trace (denyPGAddPorts np ports ops f w).2 = trace w ++
    match sharedNetpolPortGroups w !! ns with
    | None => [EvLockKey ns; EvUnlockKey ns]
    | Some s =>
        let r := addPortsForPolicy np ports s in
        if bool_decide (length r.1.2 ≠ 0 ∨ length r.2 ≠ 0)
        then [EvLockKey ns; EvCounters ns false] ++
             (if opsFail f 0 || opsFail f 1 then [EvCounters ns true]
              else EvTransact (ops ++ denyPortsOps true ns r.1.2 r.2) (negb (transactFails f))
                   :: rollback) ++ [EvUnlockKey ns]
        else [EvLockKey ns; EvCounters ns false; EvUnlockKey ns;
              EvTransact ops (negb (transactFails f))] ++ rollback
    end.
Proof.
  unfold denyPGAddPorts. simpl.
  destruct (sharedNetpolPortGroups w !! namespace np) as [s|]; [|trace_eq].
  destruct (addPortsForPolicy np ports s) as [[s' newI] newE]. simpl.
  unfold denyPGAddPorts_deferred, buildOps, TransactAndCheck, denyPortsOps, portsOp.
  destruct (bool_decide (length newI ≠ 0 ∨ length newE ≠ 0));
    destruct (opsFail f 0), (opsFail f 1), (transactFails f); trace_eq.
Qed.

(** The events of a run of [denyPGDeletePorts], in order. *)
Lemma denyPGDeletePorts_events np (ports0 : gmap string string) (useLocalPods : bool)
    ops f w :
  let ports := if useLocalPods then localPods np else ports0 in
  let ns := namespace np in
  let rollback := if transactFails f then [EvCounters ns true] else [] in
  trace (denyPGDeletePorts np ports0 useLocalPods ops f w).2 = trace w ++
    if decide (size ports ≠ 0)
    then
      match sharedNetpolPortGroups w !! ns with
      | None => [EvLockKey ns; EvTransact ops (negb (transactFails f)); EvUnlockKey ns]
      | Some s =>
          let r := deletePortsForPolicy np ports s in
          if bool_decide (length r.1.2 ≠ 0 ∨ length r.2 ≠ 0)
          then [EvLockKey ns; EvCounters ns false] ++
               (if opsFail f 0 || opsFail f 1 then [EvCounters ns true]
                else EvTransact (ops ++ denyPortsOps false ns r.1.2 r.2)
                       (negb (transactFails f)) :: rollback) ++ [EvUnlockKey ns]
          else [EvLockKey ns; EvCounters ns false; EvUnlockKey ns;
                EvTransact ops (negb (transactFails f))] ++ rollback
      end
    else [EvTransact ops (negb (transactFails f))].
Proof.
  unfold denyPGDeletePorts.
  set (ports := if useLocalPods then localPods np else ports0). simpl.
  unfold TransactAndCheck.
  destruct (decide (size ports ≠ 0)); [|destruct (transactFails f); trace_eq].
  simpl. destruct (sharedNetpolPortGroups w !! namespace np) as [s|];
    [|destruct (transactFails f); trace_eq].
  destruct (deletePortsForPolicy np ports s) as [[s' freedI] freedE]. simpl.
  unfold denyPGDeletePorts_deferred, buildOps, TransactAndCheck, denyPortsOps, portsOp.
  destruct (bool_decide (length freedI ≠ 0 ∨ length freedE ≠ 0));
    destruct (opsFail f 0), (opsFail f 1), (transactFails f); trace_eq.
Qed.

(** The operations of the transaction by which join creates the two port
    groups and the four ACLs of a namespace. *)
Lemma createDefaultDenyPGAndACLs_events namespace policy aclLogging f w :
  ∃ ops,
    trace (createDefaultDenyPGAndACLs namespace policy aclLogging f w).2 = trace w ++
      (if opsFail f 0 || opsFail f 1 then []
       else [EvTransact ops (negb (transactFails f))]).
Proof.
  unfold createDefaultDenyPGAndACLs, buildDenyACLs, buildOps, TransactAndCheck. simpl.
  eexists.
  destruct (opsFail f 0); [trace_eq|]. destruct (opsFail f 1); [trace_eq|].
  destruct (transactFails f); trace_eq.
Qed.

(** The events of a join. *)
Lemma addPolicyToDefaultPortGroups_events np aclLogging f w :
  let ns := namespace np in
  ∃ ops,
    trace (addPolicyToDefaultPortGroups np aclLogging f w).2 = trace w ++
      [EvLockKey ns] ++
      (if bool_decide (is_Some (sharedNetpolPortGroups w !! ns)) then []
       else if opsFail f 0 || opsFail f 1 then []
       else [EvTransact ops (negb (transactFails f))]) ++
      [EvUnlockKey ns].
Proof.
  unfold addPolicyToDefaultPortGroups. simpl.
  destruct (bool_decide (is_Some (sharedNetpolPortGroups w !! namespace np))).
  { exists []. trace_eq. }
  set (w1 := setShared _ (LockKey _ w)).
  destruct (createDefaultDenyPGAndACLs_events (namespace np) (name np) aclLogging f w1)
    as [ops Hops].
  exists ops.
  destruct (createDefaultDenyPGAndACLs _ _ _ _ w1) as [[err|] w2]; simpl in Hops;
    trace_norm; rewrite Hops; subst w1; trace_norm; done.
Qed.

(** The events of a leave. *)
Lemma delPolicyFromDefaultPortGroups_events np f w :
  let ns := namespace np in
  trace (delPolicyFromDefaultPortGroups np f w).2 = trace w ++
    [EvLockKey ns] ++
    match sharedNetpolPortGroups w !! ns with
    | None => []
    | Some s =>
        if decide (size (delete (getKey np) (policies s)) = 0)
        then if opsFail f 0 then []
             else [EvTransact
                     [OpDeletePortGroups
                        [defaultDenyPortGroupName ns ingressDefaultDenySuffix;
                         defaultDenyPortGroupName ns egressDefaultDenySuffix]]
                     (negb (transactFails f))]
        else []
    end ++ [EvUnlockKey ns].
Proof.
  unfold delPolicyFromDefaultPortGroups. simpl.
  destruct (sharedNetpolPortGroups w !! namespace np) as [s|]; [|trace_eq].
  simpl. destruct (decide (size _ = 0)); [|trace_eq].
  unfold deleteDefaultDenyPGAndACLs, buildOps, TransactAndCheck.
  destruct (opsFail f 0), (transactFails f); trace_eq.
Qed.
End run_events.

Ltac events_norm :=
  cbn [fst snd]; unfold eventsOf; trace_norm; rewrite drop_app_length.

(** X5. The key lock of the shared store, in every run of [denyPGAddPorts],
    [denyPGDeletePorts], join and leave, whichever calls to the database
    fail: the key of the namespace of the policy is taken once and released
    once, in this order, and no other key is touched; [denyPGDeletePorts]
    without ports takes no key.  In particular the deferred release is
    skipped when the key was released early. *)
Theorem shared_key_taken_and_released_once `{Externals}
    (np : networkPolicy) (addedPorts deletedPorts : gmap string string)
    (useLocalPods : bool) (ops : list Operation) (fAdd fDel : Faults)
    (c : MembershipCall) (w : World) :
  let once (ns : string) := [(ns, true); (ns, false)] in
  let member := match c with Join np _ _ => np | Leave np _ => np end in
  keyLocks (eventsOf w (denyPGAddPorts np addedPorts ops fAdd w).2) = once (namespace np) ∧
  keyLocks (eventsOf w (denyPGDeletePorts np deletedPorts useLocalPods ops fDel w).2) =
    (if decide (size (if useLocalPods then localPods np else deletedPorts) ≠ 0)
     then once (namespace np) else []) ∧
  keyLocks (eventsOf w (runMembership c w).2) = once (namespace member).
Proof.
  simpl. split; [|split].
  - unfold eventsOf. rewrite denyPGAddPorts_events, drop_app_length.
    destruct (sharedNetpolPortGroups w !! namespace np) as [s|]; [|done]. simpl.
    destruct (bool_decide _), (opsFail fAdd 0), (opsFail fAdd 1), (transactFails fAdd); done.
  - unfold eventsOf. rewrite denyPGDeletePorts_events, drop_app_length.
    destruct (decide (size _ ≠ 0)); [|done].
    destruct (sharedNetpolPortGroups w !! namespace np) as [s|]; [|done]. simpl.
    destruct (bool_decide _), (opsFail fDel 0), (opsFail fDel 1), (transactFails fDel); done.
  - destruct c as [np' aclLogging f|np' f]; simpl; unfold eventsOf.
    + destruct (addPolicyToDefaultPortGroups_events np' aclLogging f w) as [ops' ->].
      rewrite drop_app_length.
      destruct (bool_decide _), (opsFail f 0), (opsFail f 1); done.
    + rewrite delPolicyFromDefaultPortGroups_events, drop_app_length.
      destruct (sharedNetpolPortGroups w !! namespace np') as [s|]; [|done].
      destruct (decide (size _ = 0)), (opsFail f 0); done.
Qed.

Section atomic_commit.
Context `{Externals}.
Implicit Types (np : networkPolicy) (ports : gmap string string)
  (ops : list Operation) (f : Faults) (w : World).

Ltac commit_cases :=
  unfold committedOnce; simpl;
  (split; [intros [=] || intros _|intros [? [=]] || intros _]);
  rewrite <-?(assoc_L (++)), ?app_nil_r; simpl;
  split; first [done | events_norm; simpl; auto].

Lemma denyPGAddPorts_committedOnce np ports ops f w :
  ∃ denyOps,
    (denyOps = [] ∨ ∃ ingressDenyPorts egressDenyPorts,
       denyOps = denyPortsOps true (namespace np) ingressDenyPorts egressDenyPorts) ∧
    committedOnce ops denyOps w (denyPGAddPorts np ports ops f w).
Proof.
  unfold denyPGAddPorts. simpl.
  destruct (sharedNetpolPortGroups w !! namespace np) as [s|].
  2: { exists []. split; [by left|]. commit_cases. }
  destruct (addPortsForPolicy np ports s) as [[s' newI] newE].
  unfold denyPGAddPorts_deferred, buildOps, TransactAndCheck.
  destruct (bool_decide (length newI ≠ 0 ∨ length newE ≠ 0)).
  - exists (denyPortsOps true (namespace np) newI newE). split; [right; eauto|].
    unfold denyPortsOps, portsOp.
    destruct (opsFail f 0), (opsFail f 1), (transactFails f); commit_cases.
  - exists []. split; [by left|].
    destruct (transactFails f); commit_cases.
Qed.

Lemma denyPGDeletePorts_committedOnce np (ports0 : gmap string string)
    (useLocalPods : bool) ops f w :
  ∃ denyOps,
    (denyOps = [] ∨ ∃ ingressDenyPorts egressDenyPorts,
       denyOps = denyPortsOps false (namespace np) ingressDenyPorts egressDenyPorts) ∧
    committedOnce ops denyOps w (denyPGDeletePorts np ports0 useLocalPods ops f w).
Proof.
  unfold denyPGDeletePorts.
  set (ports := if useLocalPods then localPods np else ports0).
  unfold TransactAndCheck.
  destruct (decide (size ports ≠ 0)).
  2: { exists []. split; [by left|]. destruct (transactFails f); commit_cases. }
  simpl. destruct (sharedNetpolPortGroups w !! namespace np) as [s|].
  2: { exists []. split; [by left|]. destruct (transactFails f); commit_cases. }
  destruct (deletePortsForPolicy np ports s) as [[s' freedI] freedE].
  unfold denyPGDeletePorts_deferred, buildOps, TransactAndCheck.
  destruct (bool_decide (length freedI ≠ 0 ∨ length freedE ≠ 0)).
  - exists (denyPortsOps false (namespace np) freedI freedE). split; [right; eauto|].
    unfold denyPortsOps, portsOp.
    destruct (opsFail f 0), (opsFail f 1), (transactFails f); commit_cases.
  - exists []. split; [by left|].
    destruct (transactFails f); commit_cases.
Qed.
End atomic_commit.

(** X6. [denyPGAddPorts] and [denyPGDeletePorts] submit at most one
    transaction per run, and it begins with the pending operations that the
    caller handed over, followed by nothing or by the two operations that
    move ports in the default-deny port groups of the namespace.  The
    function returns [nil] exactly when that transaction was committed, and
    then the database is the old one with these operations applied; when it
    returns an error the database is as it was.  So the port group of the
    policy and the default-deny port groups change together or not at all. *)
Theorem denyPG_commits_with_caller_operations `{Externals}
    (np : networkPolicy) (addedPorts deletedPorts : gmap string string)
    (useLocalPods : bool) (ops : list Operation) (fAdd fDel : Faults) (w : World) :
  (∃ denyOps,
     (denyOps = [] ∨ ∃ ingressDenyPorts egressDenyPorts,
        denyOps = denyPortsOps true (namespace np) ingressDenyPorts egressDenyPorts) ∧
     committedOnce ops denyOps w (denyPGAddPorts np addedPorts ops fAdd w)) ∧
  (∃ denyOps,
     (denyOps = [] ∨ ∃ ingressDenyPorts egressDenyPorts,
        denyOps = denyPortsOps false (namespace np) ingressDenyPorts egressDenyPorts) ∧
     committedOnce ops denyOps w
       (denyPGDeletePorts np deletedPorts useLocalPods ops fDel w)).
Proof.
  split; [apply denyPGAddPorts_committedOnce | apply denyPGDeletePorts_committedOnce].
Qed.

(** ** The shape of the store is an invariant *)

Section store_shape.
Context `{Externals}.
Implicit Types (np : networkPolicy) (ports : gmap string string)
  (ops : list Operation) (f : Faults) (w : World).

Lemma storeWf_insert w w' ns s :
  storeWf w → wfDefaultDeny s →
  sharedNetpolPortGroups w' = <[ns := s]> (sharedNetpolPortGroups w) → storeWf w'.
Proof.
  intros Hwf Hs E ns' s'. rewrite E. destruct (decide (ns' = ns)) as [->|].
  - rewrite lookup_insert_eq. by intros [= <-].
  - rewrite lookup_insert_ne by done. apply Hwf.
Qed.

Lemma storeWf_delete w w' ns :
  storeWf w →
  sharedNetpolPortGroups w' = delete ns (sharedNetpolPortGroups w) → storeWf w'.
Proof.
  intros Hwf E ns' s'. rewrite E. intros Hl. apply lookup_delete_Some in Hl as [_ Hl].
  by apply (Hwf ns').
Qed.

Lemma storeWf_same w w' :
  storeWf w → sharedNetpolPortGroups w' = sharedNetpolPortGroups w → storeWf w'.
Proof. intros Hwf E ns s. rewrite E. apply Hwf. Qed.

Lemma wfDefaultDeny_setPolicies g s : wfDefaultDeny s → wfDefaultDeny (setPolicies g s).
Proof. by intros [? ?]. Qed.

Lemma denyPGAddPorts_absent np ports ops f w :
  sharedNetpolPortGroups w !! namespace np = None →
  sharedNetpolPortGroups (denyPGAddPorts np ports ops f w).2 = sharedNetpolPortGroups w.
Proof. intros Hs. unfold denyPGAddPorts. simpl. by rewrite Hs. Qed.

Lemma denyPGDeletePorts_absent np (ports0 : gmap string string) (useLocalPods : bool)
    ops f w :
  sharedNetpolPortGroups w !! namespace np = None →
  sharedNetpolPortGroups (denyPGDeletePorts np ports0 useLocalPods ops f w).2 =
    sharedNetpolPortGroups w.
Proof.
  intros Hs. unfold denyPGDeletePorts, TransactAndCheck.
  destruct (decide (size _ ≠ 0)); simpl; rewrite ?Hs; by destruct (transactFails f).
Qed.

Lemma storeWf_denyPGAddPorts np ports ops f w :
  storeWf w → storeWf (denyPGAddPorts np ports ops f w).2.
Proof.
  intros Hwf. destruct (sharedNetpolPortGroups w !! namespace np) as [s|] eqn:Hs.
  - destruct (addPortsForPolicy np ports s) as [[s' newI] newE] eqn:Eadd.
    destruct (denyPGAddPorts_run np ports ops f w s s' newI newE Hs Eadd) as (_ & Hst & _).
    eapply storeWf_insert; [exact Hwf| |exact Hst].
    assert (wfDefaultDeny s') as Hs'.
    { pose proof (addPortsForPolicy_wf np ports s (Hwf _ _ Hs)) as Hw.
      by rewrite Eadd in Hw. }
    destruct (runFails _ f); [by apply deletePortsForPolicy_wf|done].
  - eapply storeWf_same; [exact Hwf|]. by apply denyPGAddPorts_absent.
Qed.

Lemma storeWf_denyPGDeletePorts np (ports0 : gmap string string) (useLocalPods : bool)
    ops f w :
  storeWf w → storeWf (denyPGDeletePorts np ports0 useLocalPods ops f w).2.
Proof.
  intros Hwf. set (ports := if useLocalPods then localPods np else ports0).
  destruct (decide (size ports = 0)) as [Hz|Hnz].
  { eapply storeWf_same; [exact Hwf|].
    rewrite (denyPGDeletePorts_no_ports np ports0 useLocalPods ops f w Hz).
    unfold TransactAndCheck. by destruct (transactFails f). }
  destruct (sharedNetpolPortGroups w !! namespace np) as [s|] eqn:Hs.
  - destruct (deletePortsForPolicy np ports s) as [[s' freedI] freedE] eqn:Edel.
    destruct (denyPGDeletePorts_run np ports0 useLocalPods ops f w s s' freedI freedE
                Hnz Hs Edel) as (_ & Hst & _).
    eapply storeWf_insert; [exact Hwf| |exact Hst].
    assert (wfDefaultDeny s') as Hs'.
    { pose proof (deletePortsForPolicy_wf np ports s (Hwf _ _ Hs)) as Hw.
      by rewrite Edel in Hw. }
    destruct (runFails _ f); [by apply addPortsForPolicy_wf|done].
  - eapply storeWf_same; [exact Hwf|]. by apply denyPGDeletePorts_absent.
Qed.

Lemma storeWf_join np aclLogging f w :
  storeWf w → storeWf (addPolicyToDefaultPortGroups np aclLogging f w).2.
Proof.
  intros Hwf. destruct (sharedNetpolPortGroups w !! namespace np) as [s|] eqn:Hs.
  - destruct (addPolicyToDefaultPortGroups_loaded np aclLogging f w s Hs) as (_ & Hst & _).
    eapply storeWf_insert; [exact Hwf| |exact Hst].
    apply wfDefaultDeny_setPolicies. by apply (Hwf _ _ Hs).
  - destruct (decide (opsFail f 0 = false ∧ opsFail f 1 = false ∧ transactFails f = false))
      as [(F0 & F1 & Ft)|Hfail].
    + destruct (addPolicyToDefaultPortGroups_fresh np aclLogging f w Hs F0 F1 Ft)
        as (_ & Hst & _).
      eapply storeWf_insert; [exact Hwf| |exact Hst].
      apply wfDefaultDeny_setPolicies, newDefaultDenyPortGroups_wf.
    + assert (opsFail f 0 = true ∨ opsFail f 1 = true ∨ transactFails f = true) as Hf.
      { destruct (opsFail f 0), (opsFail f 1), (transactFails f); auto.
        destruct Hfail; auto. }
      destruct (addPolicyToDefaultPortGroups_fresh_fails np aclLogging f w Hs Hf)
        as (_ & Hst & _).
      by eapply storeWf_same.
Qed.

Lemma storeWf_leave np f w :
  storeWf w → storeWf (delPolicyFromDefaultPortGroups np f w).2.
Proof.
  intros Hwf. destruct (sharedNetpolPortGroups w !! namespace np) as [s|] eqn:Hs.
  - pose proof (delPolicyFromDefaultPortGroups_run np f w s Hs) as Hrun. simpl in Hrun.
    pose proof (wfDefaultDeny_setPolicies (delete (getKey np)) s (Hwf _ _ Hs)) as Hs'.
    destruct (decide (size _ = 0)); [destruct (opsFail f 0 || transactFails f)|];
      destruct Hrun as (_ & Hst & _).
    + exact (storeWf_insert w _ _ _ Hwf Hs' Hst).
    + exact (storeWf_delete w _ _ Hwf Hst).
    + exact (storeWf_insert w _ _ _ Hwf Hs' Hst).
  - destruct (delPolicyFromDefaultPortGroups_absent np f w Hs) as (_ & Hst & _).
    by eapply storeWf_same.
Qed.
End store_shape.

(** X7. The shape of the shared store is an invariant of the four functions
    that write it.  If no record of the store maps a port name to an empty
    set of policies, the same holds after a run of [denyPGAddPorts], of
    [denyPGDeletePorts], of join and of leave, whichever calls to the
    database fail, the deferred inverse calls included.  So a port name is a
    key of a reference map exactly when some policy refers to the port. *)
Theorem shared_store_keeps_its_shape `{Externals}
    (np : networkPolicy) (addedPorts deletedPorts : gmap string string)
    (useLocalPods : bool) (ops : list Operation) (fAdd fDel : Faults)
    (c : MembershipCall) (w : World) :
  storeWf w →
  storeWf (denyPGAddPorts np addedPorts ops fAdd w).2 ∧
  storeWf (denyPGDeletePorts np deletedPorts useLocalPods ops fDel w).2 ∧
  storeWf (runMembership c w).2 ∧
  ∀ ns sharedPGs portName,
    sharedNetpolPortGroups w !! ns = Some sharedPGs →
    (is_Some (ingressPortToPolicies sharedPGs !! portName) ↔
       refs (ingressPortToPolicies sharedPGs) portName ≠ ∅) ∧
    (is_Some (egressPortToPolicies sharedPGs !! portName) ↔
       refs (egressPortToPolicies sharedPGs) portName ≠ ∅).
Proof.
  intros Hwf. split; [by apply storeWf_denyPGAddPorts|].
  split; [by apply storeWf_denyPGDeletePorts|].
  split; [destruct c; simpl; [by apply storeWf_join|by apply storeWf_leave]|].
  intros ns s p Hs. destruct (Hwf ns s Hs) as [Hi He].
  split; unfold refs.
  - destruct (ingressPortToPolicies s !! p) as [x|] eqn:E; simpl.
    + split; [intros _; by apply (Hi p)|by eexists].
    + split; [by intros [? ?]|done].
  - destruct (egressPortToPolicies s !! p) as [x|] eqn:E; simpl.
    + split; [intros _; by apply (He p)|by eexists].
    + split; [by intros [? ?]|done].
Qed.

(** ** The local ports that a policy has *)

Section existing_local_ports.
Context `{Externals} (np : networkPolicy).

Lemma getExistingLocalPolicyPorts_loop (objs : list Pod) (m : gmap string string)
    (uuids : list string) (errs : list Pod) :
  let found := omap (λ pod, (λ u, (podPort pod, u)) <$> localPods np !! podPort pod) objs in
  foldl (λ acc pod,
    let '(policyPortsToUUIDs, policyPortUUIDs, errObjs) := acc in
    let logicalPortName := GetLogicalPortName (podNamespace pod) (podName pod) in
    match localPods np !! logicalPortName with
    | None => acc
    | Some portUUID =>
        (<[logicalPortName := portUUID]> policyPortsToUUIDs,
         policyPortUUIDs ++ [portUUID], errObjs)
    end) (m, uuids, errs) objs =
  (foldl (λ (m : gmap string string) p, <[p.1 := p.2]> m) m found, uuids ++ found.*2, errs).
Proof.
  revert m uuids. induction objs as [|pod objs IH]; intros m uuids.
  { simpl. by rewrite app_nil_r. }
  cbn [foldl omap list_omap].
  change (GetLogicalPortName (podNamespace pod) (podName pod)) with (podPort pod).
  destruct (localPods np !! podPort pod) as [u|] eqn:E.
  - rewrite IH. cbn [fmap option_fmap option_map foldl list_fmap fst snd].
    by rewrite <-(assoc_L (++)).
  - by rewrite IH.
Qed.

Lemma foldl_insert_lookup (found : list (string * string)) (m : gmap string string)
    (g : string → option string) n :
  (∀ p, p ∈ found → g p.1 = Some p.2) →
  foldl (λ (m : gmap string string) p, <[p.1 := p.2]> m) m found !! n =
    if decide (n ∈ found.*1) then g n else m !! n.
Proof.
  revert m. induction found as [|[q u] found IH]; intros m Hg; [done|].
  cbn [foldl fst snd]. rewrite IH by (intros p Hp; apply Hg; by right).
  rewrite fmap_cons. cbn [fst].
  destruct (decide (n ∈ found.*1)) as [Hin|Hin].
  - by rewrite decide_True by (by right).
  - destruct (decide (n = q)) as [->|Hne].
    + rewrite decide_True by (by left). rewrite lookup_insert_eq.
      symmetry. apply (Hg (q, u)). by left.
    + rewrite decide_False by (intros [?|?]%elem_of_cons; done).
      by rewrite lookup_insert_ne.
Qed.
End existing_local_ports.

Section existing_local_ports_found.
Context `{Externals} (np : networkPolicy).

Lemma getExistingLocalPolicyPorts_found (objs : list Pod) :
  let r := getExistingLocalPolicyPorts np objs in
  (∀ portName,
     r.1.1 !! portName =
       if decide (portName ∈ podPort <$> objs) then localPods np !! portName else None) ∧
  r.1.2 = omap (λ pod, localPods np !! podPort pod) objs ∧
  r.2 = [].
Proof.
  unfold getExistingLocalPolicyPorts. rewrite getExistingLocalPolicyPorts_loop.
  set (found := omap _ objs). simpl. split; [|split; [|done]].
  - intros n.
    rewrite (foldl_insert_lookup found ∅ (λ n, localPods np !! n)).
    2: { intros [q u] Hin. apply list_elem_of_omap in Hin as (pod & _ & Hpod).
         destruct (localPods np !! podPort pod) as [u'|] eqn:E; simplify_eq/=. done. }
    rewrite lookup_empty.
    destruct (decide (n ∈ found.*1)) as [Hin|Hin].
    + rewrite decide_True; [done|].
      apply list_elem_of_fmap in Hin as ([q u] & -> & Hin).
      apply list_elem_of_omap in Hin as (pod & Hpod & Hq).
      destruct (localPods np !! podPort pod) as [u'|] eqn:E; simplify_eq/=.
      apply list_elem_of_fmap. by exists pod.
    + destruct (decide (n ∈ podPort <$> objs)) as [Hn|]; [|done].
      apply list_elem_of_fmap in Hn as (pod & -> & Hpod).
      destruct (localPods np !! podPort pod) as [u|] eqn:E; [|done].
      destruct Hin. apply list_elem_of_fmap. exists (podPort pod, u). split; [done|].
      apply list_elem_of_omap. exists pod. split; [done|]. by rewrite E.
  - subst found. clear. induction objs as [|pod objs IH]; [done|].
    cbn [omap list_omap]. destruct (localPods np !! podPort pod);
      cbn [fmap option_fmap option_map list_fmap snd]; by rewrite <-IH.
Qed.
End existing_local_ports_found.

(** X8. [getExistingLocalPolicyPorts] returns the part of [np.localPods]
    that the given pods name: the port map holds exactly the entries of
    [localPods] whose port is the logical port of one of the pods, the UUID
    list holds one UUID for each given pod that has an entry, in the order of
    the pods and with repetitions, and the list of error objects is always
    empty.  A pod without an entry is passed over. *)
Theorem getExistingLocalPolicyPorts_spec `{Externals}
    (np : networkPolicy) (objs : list Pod) :
  let '(policyPortsToUUIDs, policyPortUUIDs, errObjs) :=
    getExistingLocalPolicyPorts np objs in
  (∀ portName,
     policyPortsToUUIDs !! portName =
       if decide (portName ∈ podPort <$> objs) then localPods np !! portName else None) ∧
  policyPortUUIDs = omap (λ pod, localPods np !! podPort pod) objs ∧
  errObjs = [].
Proof.
  pose proof (getExistingLocalPolicyPorts_found np objs) as Hfound.
  by destruct (getExistingLocalPolicyPorts np objs) as [[m uuids] errs].
Qed.

(** ** Local-pod handlers of a live policy *)

Section local_pod_handlers.
Context `{Externals}.
Implicit Types (np : networkPolicy) (ports : gmap string string)
  (ops : list Operation) (f : Faults) (w : World).

Lemma eventsOf_trans w w1 w2 (e1 e2 : list Event) :
  trace w1 = trace w ++ e1 → trace w2 = trace w1 ++ e2 →
  eventsOf w w2 = e1 ++ eventsOf w1 w2.
Proof.
  intros E1 E2. unfold eventsOf. rewrite E2, drop_app_length, E1.
  by rewrite <-(assoc_L (++)), drop_app_length.
Qed.

Lemma denyPGAddPorts_extends np ports ops f w :
  ∃ events, trace (denyPGAddPorts np ports ops f w).2 = trace w ++ events.
Proof. eexists. apply denyPGAddPorts_events. Qed.

Lemma denyPGDeletePorts_extends np (ports0 : gmap string string) (useLocalPods : bool)
    ops f w :
  ∃ events, trace (denyPGDeletePorts np ports0 useLocalPods ops f w).2 = trace w ++ events.
Proof. eexists. apply denyPGDeletePorts_events. Qed.

Lemma transactions_app (t1 t2 : list Event) :
  transactions (t1 ++ t2) = transactions t1 ++ transactions t2.
Proof. apply omap_app. Qed.

(** The transactions of a handler run: those of its call [w1 ~> w2], when
    the events before the call hold none and the read lock is released
    after it. *)
Lemma transactions_of_handler w w1 w2 np (pre ev : list Event) :
  trace w1 = trace w ++ pre → trace w2 = trace w1 ++ ev → transactions pre = [] →
  transactions (eventsOf w (RUnlock np w2)) = transactions ev.
Proof.
  intros E1 E2 Hpre.
  rewrite (eventsOf_app w (RUnlock np w2) (pre ++ ev ++ [EvPolicyUnlock (getKey np) false])).
  - rewrite !transactions_app, Hpre. simpl. by rewrite app_nil_r.
  - rewrite trace_RUnlock, E2, E1. by rewrite <-!(assoc_L (++)).
Qed.

(** The call [w1 ~> r.2] by which a handler submits its operations, seen
    from the start [w] of the handler. *)
Lemma handler_call_transactions w w1 np (pre : list Event) ops0 denyOps
    (r : error * World) (ev : list Event) :
  trace w1 = trace w ++ pre → transactions pre = [] → nbClient w1 = nbClient w →
  trace r.2 = trace w1 ++ ev → committedOnce ops0 denyOps w1 r →
  match r with
  | (Some err, w2) =>
      ((transactions (eventsOf w (RUnlock np w2)) = [] ∨
        ∃ ops, transactions (eventsOf w (RUnlock np w2)) = [(ops, false)]) ∧
       nbClient (RUnlock np w2) = nbClient w)
  | (None, w2) => ∃ ops, transactions (eventsOf w (RUnlock np w2)) = [(ops, true)]
  end.
Proof.
  intros Hw1 Hpre Hnb1 Hev [Hnil Herr]. destruct r as [[err|] w2]; cbn [fst snd] in *.
  - destruct Herr as [Hnb Htx]; [by eexists|].
    rewrite (transactions_of_handler w w1 w2 np _ ev Hw1 Hev Hpre).
    rewrite (eventsOf_app w1 w2 ev Hev) in Htx.
    split; [|by rewrite <-Hnb1, <-Hnb].
    destruct Htx as [->| ->]; [by left|right; by eexists].
  - destruct (Hnil eq_refl) as [Htx _].
    rewrite (transactions_of_handler w w1 w2 np _ ev Hw1 Hev Hpre).
    rewrite (eventsOf_app w1 w2 ev Hev) in Htx. rewrite Htx. by eexists.
Qed.

Lemma NewAggregate_None (errs : list string) : NewAggregate errs = None ↔ errs = [].
Proof. by destruct errs. Qed.

Lemma getNewLocalPolicyPorts_passedOver (logicalPortCache : Pod → option lpInfo) np
    (objs : list Pod) :
  (∀ pod, pod ∈ objs → passedOver np pod = true) →
  getNewLocalPolicyPorts logicalPortCache np objs = (∅, [], []).
Proof.
  intros Hover. unfold getNewLocalPolicyPorts. rewrite getNewLocalPolicyPorts_loop.
  assert (omap (λ pod, if passedOver np pod then None
                       else freshPort logicalPortCache pod) objs = []) as ->.
  { induction objs as [|pod objs IH]; [done|]. cbn [omap list_omap].
    rewrite (Hover pod) by (by left). apply IH. intros p Hp. apply Hover. by right. }
  rewrite filter_none; [done|]. intros pod Hpod [E _]. by rewrite Hover in E.
Qed.

Lemma getExistingLocalPolicyPorts_none np (objs : list Pod) :
  (∀ pod, pod ∈ objs → localPods np !! podPort pod = None) →
  getExistingLocalPolicyPorts np objs = (∅, [], []).
Proof.
  intros Hnone. unfold getExistingLocalPolicyPorts.
  rewrite getExistingLocalPolicyPorts_loop.
  assert (omap (λ pod, (λ u, (podPort pod, u)) <$> localPods np !! podPort pod) objs = [])
    as ->; [|done].
  induction objs as [|pod objs IH]; [done|]. cbn [omap list_omap].
  rewrite (Hnone pod) by (by left). apply IH. intros p Hp. apply Hnone. by right.
Qed.

Lemma handleLocalPodSelectorAddFunc_follows (logicalPortCache : Pod → option lpInfo) np
    (objs : list Pod) (fh : HandlerFaults) w :
  deleted np = false →
  let found := getNewLocalPolicyPorts logicalPortCache np objs in
  followsTheDatabase np found.1.1 found.2 (λ pods, found.1.1 ∪ pods) w
    (handleLocalPodSelectorAddFunc logicalPortCache np objs fh w).
Proof.
  intros Hlive. unfold handleLocalPodSelectorAddFunc. rewrite Hlive.
  destruct (getNewLocalPolicyPorts logicalPortCache np objs) as [[ports uuids] errPods].
  cbn [fst snd]. unfold followsTheDatabase.
  destruct (decide (0 < size ports)) as [Hpos|Hzero].
  2: { left. split; [left; by events_norm|]. split; [done|]. split; [done|].
       intros E%NewAggregate_None. split; [lia|]. by destruct errPods. }
  unfold PortGroupHasPorts. set (w1 := emit (EvGetPortGroup _) (RLock np w)).
  assert (trace w1 = trace w ++ [EvPolicyLock (getKey np) false;
                                 EvGetPortGroup (portGroupName np)]) as Hw1.
  { subst w1. by trace_norm. }
  assert (∀ ops0,
    match denyPGAddPorts np ports ops0 (denyFaults fh) w1 with
    | (Some err, w2) =>
        ((transactions (eventsOf w (RUnlock np w2)) = [] ∨
          ∃ ops, transactions (eventsOf w (RUnlock np w2)) = [(ops, false)]) ∧
         nbClient (RUnlock np w2) = nbClient w)
    | (None, w2) => ∃ ops, transactions (eventsOf w (RUnlock np w2)) = [(ops, true)]
    end) as Hdeny.
  { intros ops0.
    destruct (denyPGAddPorts_committedOnce np ports ops0 (denyFaults fh) w1)
      as (denyOps & _ & Hcommit).
    destruct (denyPGAddPorts_extends np ports ops0 (denyFaults fh) w1) as [ev Hev].
    by apply (handler_call_transactions w w1 np _ ops0 denyOps _ ev Hw1). }
  destruct (match nbPortGroups (nbClient (RLock np w)) !! portGroupName np with
            | Some pg => bool_decide (list_to_set uuids ⊆ pgPorts pg)
            | None => false
            end).
  - specialize (Hdeny []).
    destruct (denyPGAddPorts np ports [] (denyFaults fh) w1) as [[err|] w2].
    + left. destruct Hdeny as [Htx Hnb]. split; [done|]. split; [done|]. split; [done|].
      intros [=].
    + right. split; [done|]. split; [done|]. split; [lia|]. by destruct errPods.
  - unfold buildOps. destruct (policyOpsFail fh).
    + left. split; [left; subst w1; by events_norm|]. split; [done|]. split; [done|].
      intros [=].
    + specialize (Hdeny ([] ++ [OpAddPortsToPortGroup (portGroupName np) uuids])).
      destruct (denyPGAddPorts np ports _ (denyFaults fh) w1) as [[err|] w2].
      * left. destruct Hdeny as [Htx Hnb]. split; [done|]. split; [done|]. split; [done|].
        intros [=].
      * right. split; [done|]. split; [done|]. split; [lia|]. by destruct errPods.
Qed.

Lemma handleLocalPodSelectorDelFunc_follows np (objs : list Pod) (fh : HandlerFaults) w :
  deleted np = false →
  let found := getExistingLocalPolicyPorts np objs in
  followsTheDatabase np found.1.1 found.2 (λ pods, pods ∖ found.1.1) w
    (handleLocalPodSelectorDelFunc np objs fh w).
Proof.
  intros Hlive. unfold handleLocalPodSelectorDelFunc. rewrite Hlive.
  unfold getExistingLocalPolicyPorts. rewrite getExistingLocalPolicyPorts_loop.
  set (ports := foldl _ ∅ _). set (uuids := [] ++ _).
  cbn [fst snd]. unfold followsTheDatabase.
  destruct (decide (0 < size ports)) as [Hpos|Hzero].
  2: { left. split; [left; by events_norm|]. split; [done|]. split; [done|].
       intros _. split; [lia|done]. }
  set (w1 := RLock np w).
  assert (trace w1 = trace w ++ [EvPolicyLock (getKey np) false]) as Hw1 by done.
  unfold buildOps. destruct (policyOpsFail fh).
  { left. split; [left; subst w1; by events_norm|]. split; [done|]. split; [done|].
    intros [=]. }
  set (ops0 := [] ++ [OpDeletePortsFromPortGroup (portGroupName np) uuids]).
  destruct (denyPGDeletePorts_committedOnce np ports false ops0 (denyFaults fh) w1)
    as (denyOps & _ & Hcommit).
  destruct (denyPGDeletePorts_extends np ports false ops0 (denyFaults fh) w1) as [ev Hev].
  pose proof (handler_call_transactions w w1 np _ ops0 denyOps _ ev Hw1 eq_refl eq_refl
                Hev Hcommit) as Hdeny.
  destruct (denyPGDeletePorts np ports false ops0 (denyFaults fh) w1) as [[err|] w2].
  - left. destruct Hdeny as [Htx Hnb]. split; [done|]. split; [done|]. split; [done|].
    intros [=].
  - right. split; [done|]. split; [done|]. split; [lia|]. done.
Qed.
End local_pod_handlers.

(** X9. A pod event that brings nothing new is a no-op.  When every given
    pod is passed over by [getNewLocalPolicyPorts] (its port is in
    [localPods] already, it is unscheduled, or it is never expected in the
    cache), [handleLocalPodSelectorAddFunc] returns [nil]; when no given pod
    has its port in [localPods], [handleLocalPodSelectorDelFunc] returns
    [nil].  In both cases the policy object is returned as it was and the
    run only takes and releases the read lock: no call to the database and no
    key of the shared store is touched.  This covers the empty list of pods. *)
Theorem local_pod_handlers_without_work `{Externals}
    (logicalPortCache : Pod → option lpInfo) (np : networkPolicy)
    (added removed : list Pod) (fh : HandlerFaults) (w : World) :
  (∀ pod, pod ∈ added → passedOver np pod = true) →
  (∀ pod, pod ∈ removed → localPods np !! podPort pod = None) →
  handleLocalPodSelectorAddFunc logicalPortCache np added fh w =
    (None, np, RUnlock np (RLock np w)) ∧
  handleLocalPodSelectorDelFunc np removed fh w = (None, np, RUnlock np (RLock np w)) ∧
  eventsOf w (RUnlock np (RLock np w)) =
    [EvPolicyLock (getKey np) false; EvPolicyUnlock (getKey np) false].
Proof.
  intros Hover Hnone. split; [|split].
  - unfold handleLocalPodSelectorAddFunc.
    rewrite (getNewLocalPolicyPorts_passedOver logicalPortCache np added Hover).
    by destruct (deleted np).
  - unfold handleLocalPodSelectorDelFunc.
    rewrite (getExistingLocalPolicyPorts_none np removed Hnone).
    by destruct (deleted np).
  - by events_norm.
Qed.

(** X10. [localPods] follows the database.  A run of a local-pod handler on
    a policy that is not deleted submits at most one transaction.  If none
    was committed, the policy object and the database are as before, and the
    handler has returned an error unless it found no port to move and no pod
    that it could not resolve.  If one was committed, [localPods] has gained
    the new ports (add) or lost the ports of the given pods (delete), and the
    handler returns an error exactly when a pod could not be resolved.  So a
    port is in [localPods] only after it was added to the port groups in the
    database, and leaves it only after it was removed there. *)
Theorem local_pods_follow_the_database `{Externals}
    (logicalPortCache : Pod → option lpInfo) (np : networkPolicy)
    (objs : list Pod) (fh : HandlerFaults) (w : World) :
  deleted np = false →
  let new := getNewLocalPolicyPorts logicalPortCache np objs in
  let existing := getExistingLocalPolicyPorts np objs in
  followsTheDatabase np new.1.1 new.2 (λ pods, new.1.1 ∪ pods) w
    (handleLocalPodSelectorAddFunc logicalPortCache np objs fh w) ∧
  followsTheDatabase np existing.1.1 existing.2 (λ pods, pods ∖ existing.1.1) w
    (handleLocalPodSelectorDelFunc np objs fh w).
Proof.
  intros Hlive. split.
  - by apply handleLocalPodSelectorAddFunc_follows.
  - by apply handleLocalPodSelectorDelFunc_follows.
Qed.

(** ** Adding pods to a policy and deleting them again *)

Section add_then_delete_pods.
Context `{Externals}.
Implicit Types (np : networkPolicy) (ports : gmap string string)
  (ops : list Operation) (w : World) (s : defaultDenyPortGroups).

Lemma foldl_insert_Some (found : list (string * string)) (m : gmap string string) n u :
  foldl (λ (m : gmap string string) p, <[p.1 := p.2]> m) m found !! n = Some u →
  m !! n = Some u ∨ (n, u) ∈ found.
Proof.
  revert m. induction found as [|[q v] found IH]; intros m; [by left|].
  cbn [foldl fst snd]. intros [Hm|Hin]%IH.
  - apply lookup_insert_Some in Hm as [[<- <-]|[_ Hm]]; [right; by left|by left].
  - right. by right.
Qed.

(** Every new port comes from the cache entry of one of the pods. *)
Lemma getNewLocalPolicyPorts_origin (logicalPortCache : Pod → option lpInfo) np
    (objs : list Pod) n u :
  (getNewLocalPolicyPorts logicalPortCache np objs).1.1 !! n = Some u →
  ∃ pod portInfo, pod ∈ objs ∧ logicalPortCache pod = Some portInfo ∧
                  lpName portInfo = n ∧ lpUUID portInfo = u.
Proof.
  unfold getNewLocalPolicyPorts. rewrite getNewLocalPolicyPorts_loop. cbn [fst].
  intros [Hm|Hin]%foldl_insert_Some; [by rewrite lookup_empty in Hm|].
  apply list_elem_of_omap in Hin as (pod & Hpod & Hp).
  destruct (passedOver np pod); [done|]. unfold freshPort in Hp.
  destruct (logicalPortCache pod) as [info|] eqn:E; [|done].
  destruct (lpExpires info); [done|]. injection Hp as <- <-. by exists pod, info.
Qed.

(** The operations on the reference maps read the key and the directions of
    the policy only. *)
Lemma addPortsForPolicy_setLocalPods g np ports s :
  addPortsForPolicy (setLocalPods g np) ports s = addPortsForPolicy np ports s.
Proof. done. Qed.

Lemma deletePortsForPolicy_setLocalPods g np ports s :
  deletePortsForPolicy (setLocalPods g np) ports s = deletePortsForPolicy np ports s.
Proof. done. Qed.

(** A run of the add handler in which no call to the database fails. *)
Lemma handleLocalPodSelectorAddFunc_ok (logicalPortCache : Pod → option lpInfo) np
    (objs : list Pod) w s :
  deleted np = false →
  sharedNetpolPortGroups w !! namespace np = Some s →
  let found := getNewLocalPolicyPorts logicalPortCache np objs in
  let r := handleLocalPodSelectorAddFunc logicalPortCache np objs noHandlerFaults w in
  r.1.1 = NewAggregate (podError <$> found.2) ∧
  r.1.2 = (if decide (0 < size found.1.1)
           then setLocalPods (λ pods, found.1.1 ∪ pods) np else np) ∧
  sharedNetpolPortGroups r.2 =
    (if decide (0 < size found.1.1)
     then <[namespace np := (addPortsForPolicy np found.1.1 s).1.1]>
            (sharedNetpolPortGroups w)
     else sharedNetpolPortGroups w).
Proof.
  intros Hlive Hs. unfold handleLocalPodSelectorAddFunc. rewrite Hlive.
  destruct (getNewLocalPolicyPorts logicalPortCache np objs) as [[ports uuids] errPods].
  cbn [fst snd]. destruct (decide (0 < size ports)) as [Hpos|Hzero]; [|done].
  unfold PortGroupHasPorts. set (w1 := emit (EvGetPortGroup _) (RLock np w)).
  assert (∀ ops0,
    (denyPGAddPorts np ports ops0 (denyFaults noHandlerFaults) w1).1 = None ∧
    sharedNetpolPortGroups (denyPGAddPorts np ports ops0 (denyFaults noHandlerFaults) w1).2 =
      <[namespace np := (addPortsForPolicy np ports s).1.1]> (sharedNetpolPortGroups w))
    as Hdeny.
  { intros ops0.
    destruct (addPortsForPolicy np ports s) as [[s' newI] newE] eqn:Eadd.
    destruct (denyPGAddPorts_run np ports ops0 noFaults w1 s s' newI newE Hs Eadd)
      as (Herr & Hst & _).
    rewrite (faultFree_runFails _ noFaults) in Herr, Hst by (by repeat split).
    split; [|exact Hst].
    destruct (denyPGAddPorts np ports ops0 noFaults w1).1 as [e|] eqn:E; [|done].
    exfalso. assert (false = true) as Hc by (apply Herr; by eexists). discriminate. }
  destruct (match nbPortGroups (nbClient (RLock np w)) !! portGroupName np with
            | Some pg => bool_decide (list_to_set uuids ⊆ pgPorts pg)
            | None => false
            end); cbn [policyOpsFail noHandlerFaults buildOps].
  - destruct (Hdeny []) as [He Hst].
    destruct (denyPGAddPorts np ports [] _ w1) as [err w2]. simpl in *. by subst err.
  - destruct (Hdeny ([] ++ [OpAddPortsToPortGroup (portGroupName np) uuids])) as [He Hst].
    destruct (denyPGAddPorts np ports _ _ w1) as [err w2]. simpl in *. by subst err.
Qed.

(** A run of the delete handler in which no call to the database fails. *)
Lemma handleLocalPodSelectorDelFunc_ok np (objs : list Pod) w s :
  deleted np = false →
  sharedNetpolPortGroups w !! namespace np = Some s →
  let found := getExistingLocalPolicyPorts np objs in
  let r := handleLocalPodSelectorDelFunc np objs noHandlerFaults w in
  r.1.1 = None ∧
  r.1.2 = (if decide (0 < size found.1.1)
           then setLocalPods (λ pods, pods ∖ found.1.1) np else np) ∧
  sharedNetpolPortGroups r.2 =
    (if decide (0 < size found.1.1)
     then <[namespace np := (deletePortsForPolicy np found.1.1 s).1.1]>
            (sharedNetpolPortGroups w)
     else sharedNetpolPortGroups w).
Proof.
  intros Hlive Hs. unfold handleLocalPodSelectorDelFunc. rewrite Hlive.
  pose proof (getExistingLocalPolicyPorts_found np objs) as (_ & _ & Herrs).
  destruct (getExistingLocalPolicyPorts np objs) as [[ports uuids] errPods].
  cbn [fst snd] in *. subst errPods.
  destruct (decide (0 < size ports)) as [Hpos|Hzero]; [|done].
  cbn [policyOpsFail noHandlerFaults buildOps].
  set (ops0 := [] ++ [OpDeletePortsFromPortGroup (portGroupName np) uuids]).
  set (w1 := RLock np w).
  destruct (deletePortsForPolicy np ports s) as [[s' freedI] freedE] eqn:Edel.
  assert (size ports ≠ 0) as Hnz by lia.
  destruct (denyPGDeletePorts_run np ports false ops0 noFaults w1 s s' freedI freedE
              Hnz Hs Edel) as (Herr & Hst & _).
  rewrite (faultFree_runFails _ noFaults) in Herr, Hst by (by repeat split).
  change (denyFaults noHandlerFaults) with noFaults.
  destruct (denyPGDeletePorts np ports false ops0 noFaults w1) as [[e|] w2]; simpl in *.
  - exfalso. assert (false = true) as Hc by (apply Herr; by eexists). discriminate.
  - split; [done|]. split; [done|]. exact Hst.
Qed.
End add_then_delete_pods.

(** X11. Adding pods to a policy and deleting them again.  The policy is not
    deleted and has joined its namespace (the record exists, without empty
    reference sets), it holds references only for ports of its [localPods],
    none of the given pods has its port in [localPods], and the cache names
    the port of a pod by the logical port name of the pod.  Then, when no
    call to the database fails, [handleLocalPodSelectorAddFunc] records the
    new ports in [localPods], and [handleLocalPodSelectorDelFunc] for the
    same pods on the result returns [nil] and gives back the policy object
    and the shared store as they were before the add. *)
Theorem local_pods_add_then_delete `{Externals}
    (logicalPortCache : Pod → option lpInfo) (np : networkPolicy) (objs : list Pod)
    (w : World) (sharedPGs : defaultDenyPortGroups) :
  deleted np = false →
  sharedNetpolPortGroups w !! namespace np = Some sharedPGs →
  wfDefaultDeny sharedPGs →
  refsWithinLocalPods np sharedPGs →
  (∀ pod, pod ∈ objs → localPods np !! podPort pod = None) →
  (∀ pod portInfo, pod ∈ objs → logicalPortCache pod = Some portInfo →
                   lpName portInfo = podPort pod) →
  let '(errAdd, npAdd, wAdd) :=
    handleLocalPodSelectorAddFunc logicalPortCache np objs noHandlerFaults w in
  let '(errDel, npDel, wDel) :=
    handleLocalPodSelectorDelFunc npAdd objs noHandlerFaults wAdd in
  localPods npAdd = (getNewLocalPolicyPorts logicalPortCache np objs).1.1 ∪ localPods np ∧
  errDel = None ∧
  npDel = np ∧
  sharedNetpolPortGroups wDel = sharedNetpolPortGroups w.
Proof.
  intros Hlive Hs Hwf Hwithin Habsent Hnames.
  pose proof (handleLocalPodSelectorAddFunc_ok logicalPortCache np objs w sharedPGs Hlive Hs)
    as HA.
  set (M := (getNewLocalPolicyPorts logicalPortCache np objs).1.1) in *.
  destruct (handleLocalPodSelectorAddFunc logicalPortCache np objs noHandlerFaults w)
    as [[errAdd npAdd] wAdd].
  cbn [fst snd] in HA. destruct HA as (_ & HnpA & HstA). fold M in HnpA, HstA.
  (* the ports of [M] are ports of the given pods, and not in [localPods] *)
  assert (∀ n, is_Some (M !! n) → n ∈ podPort <$> objs) as HM.
  { intros n [u Hu]. apply getNewLocalPolicyPorts_origin in Hu
      as (pod & info & Hpod & Hinfo & <- & _).
    rewrite (Hnames pod info Hpod Hinfo). apply list_elem_of_fmap. by exists pod. }
  assert (∀ n, n ∈ podPort <$> objs → localPods np !! n = None) as HL.
  { intros n (pod & -> & Hpod)%list_elem_of_fmap. by apply Habsent. }
  assert (localPods npAdd = M ∪ localPods np) as HlpA.
  { rewrite HnpA. destruct (decide (0 < size M)) as [|Hz]; [reflexivity|].
    assert (M = ∅) as -> by (apply map_size_empty_inv; lia).
    by rewrite (left_id_L ∅ (∪)). }
  assert (deleted npAdd = false ∧ namespace npAdd = namespace np) as [HliveA HnsA].
  { rewrite HnpA. by destruct (decide (0 < size M)). }
  (* the delete handler finds exactly [M] *)
  pose proof (getExistingLocalPolicyPorts_found npAdd objs) as (Hfound & _ & _).
  assert ((getExistingLocalPolicyPorts npAdd objs).1.1 = M) as HfoundM.
  { apply map_eq. intros n. rewrite Hfound, HlpA.
    destruct (decide (n ∈ podPort <$> objs)) as [Hn|Hn].
    - by rewrite lookup_union_l by (by apply HL).
    - destruct (M !! n) eqn:E; [|done]. destruct Hn. apply HM. by eexists. }
  destruct (decide (0 < size M)) as [Hpos|Hzero].
  - assert (sharedNetpolPortGroups wAdd !! namespace npAdd =
            Some (addPortsForPolicy np M sharedPGs).1.1) as HsA.
    { by rewrite HstA, HnsA, lookup_insert_eq. }
    pose proof (handleLocalPodSelectorDelFunc_ok npAdd objs wAdd _ HliveA HsA) as HD.
    destruct (handleLocalPodSelectorDelFunc npAdd objs noHandlerFaults wAdd)
      as [[errDel npDel] wDel].
    cbn [fst snd] in HD. rewrite !HfoundM in HD.
    destruct (decide (0 < size M)) as [_|?]; [|lia].
    destruct HD as (HeD & HnpD & HstD).
    split; [done|]. split; [done|]. split.
    + rewrite HnpD, HnpA. destruct np as [nm ns ii ie pas lp pgn lph nsh del].
      unfold setLocalPods. simpl. f_equal. apply map_eq. intros n.
      rewrite lookup_difference. destruct (M !! n) eqn:E.
      * symmetry. apply HL, HM. by eexists.
      * by rewrite lookup_union_r.
    + rewrite HstD, HnsA, HstA, insert_insert_eq.
      rewrite HnpA, deletePortsForPolicy_setLocalPods.
      rewrite deletePortsForPolicy_undoes_add; [by apply insert_id|done|].
      intros n Hn. apply elem_of_dom in Hn. specialize (HL n (HM n Hn)).
      destruct (Hwithin n) as [Hi He].
      split; intros Hd Hin; [apply Hi in Hin|apply He in Hin]; try done;
        apply elem_of_dom in Hin as [? Hin]; by rewrite HL in Hin.
  - assert (sharedNetpolPortGroups wAdd !! namespace npAdd = Some sharedPGs) as HsA.
    { by rewrite HstA, HnsA. }
    pose proof (handleLocalPodSelectorDelFunc_ok npAdd objs wAdd _ HliveA HsA) as HD.
    destruct (handleLocalPodSelectorDelFunc npAdd objs noHandlerFaults wAdd)
      as [[errDel npDel] wDel].
    cbn [fst snd] in HD. rewrite !HfoundM in HD.
    destruct (decide (0 < size M)) as [?|_]; [lia|].
    destruct HD as (HeD & HnpD & HstD).
    split; [done|]. split; [done|]. split; [by rewrite HnpD, HnpA|by rewrite HstD].
Qed.

(** ** Kinds of events in a run *)

Section event_kinds.
Context `{Externals}.
Implicit Types (np : networkPolicy) (ports : gmap string string)
  (ops : list Operation) (f : Faults) (w : World) (P Q : Event → bool).

Lemma extendsBy_refl P w : extendsBy P w w.
Proof. exists []. by rewrite app_nil_r. Qed.

Lemma extendsBy_trans P w w' w'' :
  extendsBy P w w' → extendsBy P w' w'' → extendsBy P w w''.
Proof.
  intros (e1 & E1 & F1) (e2 & E2 & F2). exists (e1 ++ e2).
  rewrite E2, E1, (assoc_L (++)). split; [done|].
  by rewrite forallb_app, F1, F2.
Qed.

Lemma extendsBy_emit P e w : P e = true → extendsBy P w (emit e w).
Proof. intros He. exists [e]. split; [done|]. simpl. by rewrite He. Qed.

Lemma extendsBy_weaken P Q w w' :
  (∀ e, P e = true → Q e = true) → extendsBy P w w' → extendsBy Q w w'.
Proof.
  intros HPQ (ev & E & F). exists ev. split; [done|].
  apply forallb_forall. intros e He. apply HPQ.
  by apply (proj1 (forallb_forall P ev) F).
Qed.

Lemma extendsBy_same P w w' : trace w' = trace w → extendsBy P w w'.
Proof. intros E. exists []. by rewrite app_nil_r. Qed.

(** A projection that drops the events of kind [P] sees nothing of a run
    with events of that kind only. *)
Lemma extendsBy_omap {A} P (proj : Event → option A) w w' :
  (∀ e, P e = true → proj e = None) → extendsBy P w w' →
  omap proj (eventsOf w w') = [].
Proof.
  intros Hproj (ev & E & F). rewrite (eventsOf_app w w' ev E).
  induction ev as [|e ev IH] in F |- *; [done|]. simpl in F.
  apply andb_true_iff in F as [Fe F]. cbn [omap list_omap].
  by rewrite (Hproj e Fe), IH.
Qed.

Lemma eventsOf_extendsBy P Q w w1 w2 :
  extendsBy P w w1 → extendsBy Q w1 w2 →
  eventsOf w w2 = eventsOf w w1 ++ eventsOf w1 w2.
Proof.
  intros (e1 & E1 & _) (e2 & E2 & _).
  rewrite (eventsOf_trans w w1 w2 e1 e2 E1 E2).
  by rewrite (eventsOf_app w w1 e1 E1).
Qed.

Lemma denyPGAddPorts_storeEvents np ports ops f w :
  extendsBy isStoreEvent w (denyPGAddPorts np ports ops f w).2.
Proof.
  eexists. split; [apply denyPGAddPorts_events|]. simpl.
  destruct (sharedNetpolPortGroups w !! namespace np) as [s|]; [|done]. simpl.
  destruct (bool_decide _), (opsFail f 0), (opsFail f 1), (transactFails f); done.
Qed.

Lemma denyPGDeletePorts_storeEvents np (ports0 : gmap string string) (useLocalPods : bool)
    ops f w :
  extendsBy isStoreEvent w (denyPGDeletePorts np ports0 useLocalPods ops f w).2.
Proof.
  eexists. split; [apply denyPGDeletePorts_events|]. simpl.
  destruct (decide (size _ ≠ 0)); [|done].
  destruct (sharedNetpolPortGroups w !! namespace np) as [s|]; [|done]. simpl.
  destruct (bool_decide _), (opsFail f 0), (opsFail f 1), (transactFails f); done.
Qed.

Lemma addPolicyToDefaultPortGroups_storeEvents np aclLogging f w :
  extendsBy isStoreEvent w (addPolicyToDefaultPortGroups np aclLogging f w).2.
Proof.
  destruct (addPolicyToDefaultPortGroups_events np aclLogging f w) as [ops Hops].
  eexists. split; [exact Hops|]. simpl.
  destruct (bool_decide _), (opsFail f 0), (opsFail f 1); done.
Qed.

Lemma delPolicyFromDefaultPortGroups_storeEvents np f w :
  extendsBy isStoreEvent w (delPolicyFromDefaultPortGroups np f w).2.
Proof.
  eexists. split; [apply delPolicyFromDefaultPortGroups_events|]. simpl.
  destruct (sharedNetpolPortGroups w !! namespace np) as [s|]; [|done].
  destruct (decide (size _ = 0)), (opsFail f 0); done.
Qed.

(** [shutdownHandlers] removes the local-pod handler, then the namespace
    handlers in order, and does nothing else. *)
Lemma shutdownHandlers_events np w :
  trace (shutdownHandlers np w).2 = trace w ++
    (EvRemoveHandler <$> (option_list (localPodHandler np) ++ nsHandlerList np)).
Proof.
  unfold shutdownHandlers. cbn [snd].
  set (w1 := match localPodHandler np with Some h => _ | None => w end).
  assert (trace w1 = trace w ++ (EvRemoveHandler <$> option_list (localPodHandler np)))
    as Hw1.
  { subst w1. destruct (localPodHandler np); simpl; [done|by rewrite app_nil_r]. }
  rewrite fmap_app, (assoc_L (++)), <-Hw1. clearbody w1. clear Hw1.
  revert w1. induction (nsHandlerList np) as [|h hs IH]; intros w1; simpl.
  - by rewrite app_nil_r.
  - rewrite IH, trace_emit. by rewrite <-(assoc_L (++)).
Qed.

(** The loop of [cleanupNetworkPolicy] over the address sets emits the
    releases of [releasesUpTo] and nothing else. *)
Lemma releaseAddressSets_events owner (fails : nat → bool) i (asKeys : list string) w :
  let r := releaseAddressSets owner fails i asKeys w in
  trace r.2 = trace w ++
    ((λ kr : string * bool, EvDeleteAddressSet kr.1 owner kr.2) <$>
       releasesUpTo r.1 i asKeys).
Proof.
  revert i w. induction asKeys as [|k asKeys IH]; intros i w; simpl.
  { by rewrite app_nil_r. }
  destruct (fails i) eqn:Ei; simpl.
  - by rewrite Nat.sub_diag.
  - rewrite IH, trace_emit, <-(assoc_L (++)). f_equal.
    destruct (releaseAddressSets_run owner fails (S i) asKeys
                (emit (EvDeleteAddressSet k owner true) w)) as (Hr & _).
    unfold releasesUpTo.
    destruct (releaseAddressSets owner fails (S i) asKeys _).1 as [j|] eqn:Ej; [|done].
    simpl in Hr. symmetry in Hr. apply firstFailure_ge in Hr.
    replace (j - i) with (S (j - S i)) by lia. done.
Qed.
End event_kinds.

(** ** The events of a cleanup *)

Section cleanup_events.
Context `{Externals}.
Implicit Types (np : networkPolicy) (f : CleanupFaults) (w : World).

(** The events of [cleanupNetworkPolicy], in order: the write lock of the
    policy, the removal of the handlers, the releases of the address sets,
    then events of the shared store and its transactions ([rest]; none when a
    release failed), and the release of the write lock. *)
Lemma cleanupNetworkPolicy_events np f w :
  let k := getKey np in
  let failure := firstFailure (releaseFails f) 0 (length (peerAddressSets np)) in
  ∃ rest,
    trace (cleanupNetworkPolicy np f w).2 = trace w ++
      [EvPolicyLock k true] ++
      (EvRemoveHandler <$> (option_list (localPodHandler np) ++ nsHandlerList np)) ++
      ((λ kr : string * bool, EvDeleteAddressSet kr.1 (getKeyWithKind np) kr.2) <$>
         releasesUpTo failure 0 (peerAddressSets np)) ++
      rest ++ [EvPolicyUnlock k true] ∧
    forallb isStoreEvent rest = true ∧
    (is_Some failure → rest = []).
Proof.
  simpl. unfold cleanupNetworkPolicy.
  set (w0 := emit (EvPolicyLock (getKey np) true) w).
  pose proof (shutdownHandlers_run (setDeleted true np) w0) as (Hnp2 & _).
  pose proof (shutdownHandlers_events (setDeleted true np) w0) as Hev1.
  destruct (shutdownHandlers (setDeleted true np) w0) as [np2 w1].
  cbn [fst snd] in Hnp2, Hev1. subst np2.
  cbn [peerAddressSets clearHandlers setDeleted localPodHandler nsHandlerList] in *.
  change (getKeyWithKind (clearHandlers (setDeleted true np))) with (getKeyWithKind np).
  pose proof (releaseAddressSets_run (getKeyWithKind np) (releaseFails f) 0
                (peerAddressSets np) w1) as (Hfail & _).
  pose proof (releaseAddressSets_events (getKeyWithKind np) (releaseFails f) 0
                (peerAddressSets np) w1) as Hev2.
  destruct (releaseAddressSets (getKeyWithKind np) (releaseFails f) 0
              (peerAddressSets np) w1) as [failure w2].
  cbn [fst snd] in Hfail, Hev2. rewrite <-Hfail.
  assert (trace w2 = trace w ++ [EvPolicyLock (getKey np) true] ++
            (EvRemoveHandler <$> (option_list (localPodHandler np) ++ nsHandlerList np)) ++
            ((λ kr : string * bool, EvDeleteAddressSet kr.1 (getKeyWithKind np) kr.2) <$>
               releasesUpTo failure 0 (peerAddressSets np))) as Hw2.
  { rewrite Hev2, Hev1. subst w0. rewrite trace_emit. by rewrite <-!(assoc_L (++)). }
  clear Hev1 Hev2 Hfail.
  assert (∀ err np' w3 rest,
    getKey np' = getKey np → trace w3 = trace w2 ++ rest →
    trace (cleanupReturn err np' w3).2 = trace w ++
      [EvPolicyLock (getKey np) true] ++
      (EvRemoveHandler <$> (option_list (localPodHandler np) ++ nsHandlerList np)) ++
      ((λ kr : string * bool, EvDeleteAddressSet kr.1 (getKeyWithKind np) kr.2) <$>
         releasesUpTo failure 0 (peerAddressSets np)) ++
      rest ++ [EvPolicyUnlock (getKey np) true]) as Hexit.
  { intros err np' w3 rest Hk E3. unfold cleanupReturn. cbn [snd].
    rewrite trace_emit, trace_setNetworkPolicies, Hk, E3, Hw2.
    by rewrite <-!(assoc_L (++)). }
  destruct failure as [i|].
  { exists []. split; [|done]. apply Hexit; [done|by rewrite app_nil_r]. }
  unfold buildOps. destruct (deletePGOpsFail f).
  { exists []. split; [|done]. apply Hexit; [done|by rewrite app_nil_r]. }
  match goal with |- context [denyPGDeletePorts ?np3 ?p ?b ?ops ?cf w2] =>
    destruct (denyPGDeletePorts_storeEvents np3 p b ops cf w2) as (ev3 & Hev3 & Hst3);
    destruct (denyPGDeletePorts np3 p b ops cf w2) as [[e3|] w3]
  end; cbn [fst snd] in Hev3.
  { exists ev3. split; [|split; [done|by intros [? ?]]]. by apply Hexit. }
  match goal with |- context [delPolicyFromDefaultPortGroups ?np4 ?lf w3] =>
    destruct (delPolicyFromDefaultPortGroups_storeEvents np4 lf w3) as (ev4 & Hev4 & Hst4);
    destruct (delPolicyFromDefaultPortGroups np4 lf w3) as [[e4|] w4]
  end; cbn [fst snd] in Hev4.
  { exists (ev3 ++ ev4). split; [|split; [|by intros [? ?]]].
    - apply Hexit; [done|]. rewrite Hev4, Hev3. by rewrite <-(assoc_L (++)).
    - by rewrite forallb_app, Hst3, Hst4. }
  exists (ev3 ++ ev4). split; [|split; [|by intros [? ?]]].
  - cbn [snd]. rewrite trace_emit, trace_setNetworkPolicies, Hev4, Hev3, Hw2.
    by rewrite <-!(assoc_L (++)).
  - by rewrite forallb_app, Hst3, Hst4.
Qed.
End cleanup_events.

(** ** What a cleanup leaves *)

Section cleanup_result.
Context `{Externals}.
Implicit Types (np : networkPolicy) (f : CleanupFaults) (w : World).

Lemma denyPGDeletePorts_networkPolicies np (ports0 : gmap string string)
    (useLocalPods : bool) ops (f : Faults) w :
  networkPolicies (denyPGDeletePorts np ports0 useLocalPods ops f w).2 = networkPolicies w.
Proof.
  unfold denyPGDeletePorts, TransactAndCheck.
  destruct (decide (size _ ≠ 0)); [|by destruct (transactFails f)].
  simpl. destruct (sharedNetpolPortGroups w !! namespace np) as [s|];
    [|by destruct (transactFails f)].
  destruct (deletePortsForPolicy np _ s) as [[s' freedI] freedE].
  unfold denyPGDeletePorts_deferred, buildOps, TransactAndCheck.
  by destruct (bool_decide _), (opsFail f 0), (opsFail f 1), (transactFails f).
Qed.

Lemma delPolicyFromDefaultPortGroups_networkPolicies np (f : Faults) w :
  networkPolicies (delPolicyFromDefaultPortGroups np f w).2 = networkPolicies w.
Proof.
  unfold delPolicyFromDefaultPortGroups. simpl.
  destruct (sharedNetpolPortGroups w !! namespace np) as [s|]; [|done].
  destruct (decide (size _ = 0)); [|done].
  unfold deleteDefaultDenyPGAndACLs, buildOps, TransactAndCheck.
  by destruct (opsFail f 0), (transactFails f).
Qed.

Lemma denyPGDeletePorts_noFaults np (ports0 : gmap string string) (useLocalPods : bool)
    ops w :
  (denyPGDeletePorts np ports0 useLocalPods ops noFaults w).1 = None.
Proof.
  unfold denyPGDeletePorts, TransactAndCheck. simpl.
  destruct (decide (size _ ≠ 0)); [|done].
  simpl. destruct (sharedNetpolPortGroups w !! namespace np) as [s|]; [|done].
  destruct (deletePortsForPolicy np _ s) as [[s' freedI] freedE].
  unfold denyPGDeletePorts_deferred, buildOps, TransactAndCheck. simpl.
  by destruct (bool_decide _).
Qed.

Lemma delPolicyFromDefaultPortGroups_noFaults np w :
  (delPolicyFromDefaultPortGroups np noFaults w).1 = None.
Proof.
  unfold delPolicyFromDefaultPortGroups. simpl.
  destruct (sharedNetpolPortGroups w !! namespace np) as [s|]; [|done].
  by destruct (decide (size _ = 0)).
Qed.

(** The policy object and the registry after a run of cleanup. *)
Ltac result_cases :=
  repeat split; try done; try (by eexists); try (by left); try (by right);
  try (by intros [=]); try (by intros [? [=]]).

Lemma cleanupNetworkPolicy_result np f w :
  let r := cleanupNetworkPolicy np f w in
  let np' := r.1.2 in
  let failure := firstFailure (releaseFails f) 0 (length (peerAddressSets np)) in
  sameIdentity np np' ∧
  deleted np' = true ∧ localPodHandler np' = None ∧ nsHandlerList np' = [] ∧
  peerAddressSets np' =
    match failure with Some i => drop i (peerAddressSets np) | None => [] end ∧
  (is_Some failure → is_Some r.1.1) ∧
  (r.1.1 = None →
     localPods np' = ∅ ∧
     networkPolicies r.2 = delete (getKey np) (networkPolicies w)) ∧
  (is_Some r.1.1 →
     (localPods np' = localPods np ∨ localPods np' = ∅) ∧
     networkPolicies r.2 = alter (λ _, np') (getKey np) (networkPolicies w)).
Proof.
  simpl. unfold cleanupNetworkPolicy.
  set (w0 := emit (EvPolicyLock (getKey np) true) w).
  pose proof (shutdownHandlers_run (setDeleted true np) w0) as (Hnp2 & _ & Hreg1 & _).
  destruct (shutdownHandlers (setDeleted true np) w0) as [np2 w1].
  cbn [fst snd] in Hnp2, Hreg1. subst np2.
  cbn [peerAddressSets clearHandlers setDeleted] in *.
  change (getKeyWithKind (clearHandlers (setDeleted true np))) with (getKeyWithKind np).
  pose proof (releaseAddressSets_run (getKeyWithKind np) (releaseFails f) 0
                (peerAddressSets np) w1) as (Hfail & _ & Hreg2 & _).
  destruct (releaseAddressSets (getKeyWithKind np) (releaseFails f) 0
              (peerAddressSets np) w1) as [failure w2].
  cbn [fst snd] in Hfail, Hreg2. rewrite <-Hfail.
  assert (networkPolicies w2 = networkPolicies w) as Hreg by (by rewrite Hreg2, Hreg1).
  clear Hreg1 Hreg2 Hfail.
  destruct failure as [i|].
  { unfold cleanupReturn, sameIdentity. cbn. rewrite Hreg.
    result_cases. }
  unfold buildOps. destruct (deletePGOpsFail f).
  { unfold cleanupReturn, sameIdentity. cbn. rewrite Hreg.
    result_cases. }
  match goal with |- context [denyPGDeletePorts ?np3 ?p ?b ?ops ?cf w2] =>
    pose proof (denyPGDeletePorts_networkPolicies np3 p b ops cf w2) as Hreg3;
    destruct (denyPGDeletePorts np3 p b ops cf w2) as [[e3|] w3]
  end; cbn [fst snd] in Hreg3.
  { unfold cleanupReturn, sameIdentity. cbn. rewrite Hreg3, Hreg.
    result_cases. }
  match goal with |- context [delPolicyFromDefaultPortGroups ?np4 ?lf w3] =>
    pose proof (delPolicyFromDefaultPortGroups_networkPolicies np4 lf w3) as Hreg4;
    destruct (delPolicyFromDefaultPortGroups np4 lf w3) as [[e4|] w4]
  end; cbn [fst snd] in Hreg4.
  { unfold cleanupReturn, sameIdentity. cbn. rewrite Hreg4, Hreg3, Hreg.
    result_cases. }
  unfold sameIdentity. cbn. rewrite Hreg4, Hreg3, Hreg.
  result_cases.
Qed.

(** Without failing calls cleanup returns [nil], from any state. *)
Lemma cleanupNetworkPolicy_noFaults np w :
  (cleanupNetworkPolicy np noCleanupFaults w).1.1 = None.
Proof.
  unfold cleanupNetworkPolicy.
  destruct (shutdownHandlers (setDeleted true np) _) as [np2 w1].
  match goal with |- context [releaseAddressSets ?o ?fl ?i ?ks w1] =>
    pose proof (releaseAddressSets_run o fl i ks w1) as (Hfail & _);
    destruct (releaseAddressSets o fl i ks w1) as [failure w2]
  end.
  cbn [fst snd] in Hfail.
  assert (failure = None) as ->.
  { rewrite Hfail. by apply firstFailure_None. }
  cbn [buildOps deletePGOpsFail noCleanupFaults cleanupDenyFaults leaveFaults].
  match goal with |- context [denyPGDeletePorts ?np3 ?p ?b ?ops noFaults w2] =>
    pose proof (denyPGDeletePorts_noFaults np3 p b ops w2) as He3;
    destruct (denyPGDeletePorts np3 p b ops noFaults w2) as [e3 w3]
  end; cbn [fst] in He3. subst e3.
  match goal with |- context [delPolicyFromDefaultPortGroups ?np4 noFaults w3] =>
    pose proof (delPolicyFromDefaultPortGroups_noFaults np4 w3) as He4;
    destruct (delPolicyFromDefaultPortGroups np4 noFaults w3) as [e4 w4]
  end; cbn [fst] in He4. by subst e4.
Qed.
End cleanup_result.

Section projections.
Implicit Types (t : list Event).

Lemma omap_kind {A} (P : Event → bool) (proj : Event → option A) t :
  (∀ e, P e = true → proj e = None) → forallb P t = true → omap proj t = [].
Proof.
  intros Hproj. induction t as [|e t IH]; [done|]. cbn [forallb].
  intros [Fe F]%andb_true_iff. cbn [omap list_omap]. rewrite (Hproj e Fe). by apply IH.
Qed.

Lemma omap_fmap_None {A B} (g : B → Event) (proj : Event → option A) (l : list B) :
  (∀ b, proj (g b) = None) → omap proj (g <$> l) = [].
Proof.
  intros Hg. induction l as [|b l IH]; [done|].
  cbn [fmap list_fmap omap list_omap]. by rewrite Hg, IH.
Qed.

Lemma omap_fmap_Some {A B} (g : B → Event) (proj : Event → option A) (h : B → A)
    (l : list B) :
  (∀ b, proj (g b) = Some (h b)) → omap proj (g <$> l) = h <$> l.
Proof.
  intros Hg. induction l as [|b l IH]; [done|].
  cbn [fmap list_fmap omap list_omap]. by rewrite Hg, IH.
Qed.

Lemma releases_store t : forallb isStoreEvent t = true → releases t = [].
Proof. apply omap_kind. by intros []. Qed.

Lemma removedHandlers_store t : forallb isStoreEvent t = true → removedHandlers t = [].
Proof. apply omap_kind. by intros []. Qed.

Lemma policyLocks_store t : forallb isStoreEvent t = true → policyLocks t = [].
Proof. apply omap_kind. by intros []. Qed.
End projections.

Section cleanup_projections.
Context `{Externals}.
Implicit Types (np : networkPolicy) (f : CleanupFaults) (w : World).

(** The handlers removed, the releases and the locks of a cleanup. *)
Lemma cleanupNetworkPolicy_projections np f w :
  let w' := (cleanupNetworkPolicy np f w).2 in
  let failure := firstFailure (releaseFails f) 0 (length (peerAddressSets np)) in
  removedHandlers (eventsOf w w') = option_list (localPodHandler np) ++ nsHandlerList np ∧
  releases (eventsOf w w') = releasesUpTo failure 0 (peerAddressSets np) ∧
  policyLocks (eventsOf w w') = [(getKey np, true, true); (getKey np, true, false)].
Proof.
  simpl. destruct (cleanupNetworkPolicy_events np f w) as (rest & Hev & Hst & _).
  rewrite (eventsOf_app _ _ _ Hev).
  unfold removedHandlers, releases, policyLocks. rewrite !omap_app.
  fold (removedHandlers rest) (releases rest) (policyLocks rest).
  rewrite (removedHandlers_store rest Hst), (releases_store rest Hst),
    (policyLocks_store rest Hst).
  rewrite (omap_fmap_Some EvRemoveHandler _ id) by done.
  rewrite !(omap_fmap_None EvRemoveHandler) by done.
  rewrite (omap_fmap_Some (λ kr : string * bool, EvDeleteAddressSet kr.1 _ kr.2) _ id)
    by (by intros [? ?]).
  rewrite !(omap_fmap_None (λ kr : string * bool, EvDeleteAddressSet kr.1 _ kr.2)) by done.
  simpl. by rewrite !list_fmap_id, !app_nil_r.
Qed.

Lemma sameIdentity_getKey np np' :
  sameIdentity np np' → getKey np' = getKey np ∧ getKeyWithKind np' = getKeyWithKind np.
Proof. intros (Hn & Hns & _). unfold getKey, getKeyWithKind. by rewrite Hn, Hns. Qed.

Lemma releasesUpTo_successes (failure : option nat) (asKeys : list string) :
  filter (λ kr : string * bool, kr.2 = true) (releasesUpTo failure 0 asKeys) ++
    ((λ k, (k, true)) <$> match failure with Some i => drop i asKeys | None => [] end) =
  (λ k, (k, true)) <$> asKeys.
Proof.
  assert (∀ l : list string,
    filter (λ kr : string * bool, kr.2 = true) ((λ k, (k, true)) <$> l) =
      (λ k, (k, true)) <$> l) as Hall.
  { induction l as [|k l IH]; [done|]. rewrite fmap_cons, filter_cons_True by done.
    by rewrite IH. }
  unfold releasesUpTo. destruct failure as [i|].
  - rewrite Nat.sub_0_r, filter_app, Hall.
    assert (filter (λ kr : string * bool, kr.2 = true)
              (from_option (λ k, [(k, false)]) [] (asKeys !! i)) = []) as ->
      by (by destruct (asKeys !! i)).
    by rewrite app_nil_r, <-fmap_app, take_drop.
  - by rewrite Hall, app_nil_r.
Qed.
End cleanup_projections.

(** X12. The order of a cleanup.  [cleanupNetworkPolicy] takes the write
    lock of the policy first and releases it last, on every path.  In
    between it removes the local-pod handler and then the namespace handlers
    in the order of [nsHandlerList], then releases the address sets from
    index 0 up to the first failing release, and only then touches the shared
    store and the database; when a release fails, it touches neither. *)
Theorem cleanupNetworkPolicy_order `{Externals}
    (np : networkPolicy) (f : CleanupFaults) (w : World) :
  let w' := (cleanupNetworkPolicy np f w).2 in
  let failure := firstFailure (releaseFails f) 0 (length (peerAddressSets np)) in
  ∃ rest,
    eventsOf w w' =
      [EvPolicyLock (getKey np) true] ++
      (EvRemoveHandler <$> (option_list (localPodHandler np) ++ nsHandlerList np)) ++
      ((λ kr : string * bool, EvDeleteAddressSet kr.1 (getKeyWithKind np) kr.2) <$>
         releasesUpTo failure 0 (peerAddressSets np)) ++
      rest ++ [EvPolicyUnlock (getKey np) true] ∧
    forallb isStoreEvent rest = true ∧
    (is_Some failure → rest = []).
Proof.
  simpl. destruct (cleanupNetworkPolicy_events np f w) as (rest & Hev & Hst & Hfail).
  exists rest. split; [by apply eventsOf_app|]. by split.
Qed.

(** X13. What a cleanup leaves.  After [cleanupNetworkPolicy], whatever
    fails, the policy object is marked [deleted], has no handler left, and
    keeps its name, namespace, directions and port-group name.  The key of
    the policy is deleted from the registry exactly when cleanup returns
    [nil], and then the object has no local pods and no address-set keys
    left; when cleanup returns an error the registry is as before, except
    that an object stored under the key is the object as cleanup left it.
    An error is returned whenever the release of an address set fails. *)
Theorem cleanupNetworkPolicy_outcome `{Externals}
    (np : networkPolicy) (f : CleanupFaults) (w : World) :
  let '(err, np', w') := cleanupNetworkPolicy np f w in
  let failure := firstFailure (releaseFails f) 0 (length (peerAddressSets np)) in
  sameIdentity np np' ∧
  deleted np' = true ∧ localPodHandler np' = None ∧ nsHandlerList np' = [] ∧
  (is_Some failure → is_Some err) ∧
  (err = None →
     localPods np' = ∅ ∧ peerAddressSets np' = [] ∧
     networkPolicies w' = delete (getKey np) (networkPolicies w)) ∧
  (is_Some err →
     (localPods np' = localPods np ∨ localPods np' = ∅) ∧
     networkPolicies w' = alter (λ _, np') (getKey np) (networkPolicies w)).
Proof.
  pose proof (cleanupNetworkPolicy_result np f w) as Hres.
  destruct (cleanupNetworkPolicy np f w) as [[err np'] w']. cbn [fst snd] in Hres.
  destruct Hres as (Hid & Hdel & Hlp & Hns & Hpas & Hfail & Hnil & Herr).
  split; [done|]. split; [done|]. split; [done|]. split; [done|]. split; [done|].
  split; [|done]. intros ->. destruct (Hnil eq_refl) as [Hl Hreg].
  split; [done|]. split; [|done]. rewrite Hpas.
  destruct (firstFailure _ _ _) as [i|]; [|done].
  destruct Hfail as [? [=]]. by eexists.
Qed.

(** X14. Cleanup can be retried.  Take any run of [cleanupNetworkPolicy],
    with any failures, and run cleanup again on the object that it left, now
    without failing calls.  The second run returns [nil] and leaves no entry
    for the key in the registry.  It removes no handler: the handlers were
    removed in the first run, each once.  And over the two runs every
    address-set key of the policy is released successfully exactly once, in
    the order of [peerAddressSets]: the second run releases what the first
    did not. *)
Theorem cleanupNetworkPolicy_retry `{Externals}
    (np : networkPolicy) (f : CleanupFaults) (w : World) :
  let '(err1, np1, w1) := cleanupNetworkPolicy np f w in
  let '(err2, np2, w2) := cleanupNetworkPolicy np1 noCleanupFaults w1 in
  err2 = None ∧
  networkPolicies w2 !! getKey np = None ∧
  removedHandlers (eventsOf w w1) = option_list (localPodHandler np) ++ nsHandlerList np ∧
  removedHandlers (eventsOf w1 w2) = [] ∧
  filter (λ kr : string * bool, kr.2 = true) (releases (eventsOf w w1)) ++
    releases (eventsOf w1 w2) = (λ k, (k, true)) <$> peerAddressSets np.
Proof.
  pose proof (cleanupNetworkPolicy_result np f w) as Hres1.
  pose proof (cleanupNetworkPolicy_projections np f w) as Hproj1.
  destruct (cleanupNetworkPolicy np f w) as [[err1 np1] w1]. cbn [fst snd] in *.
  destruct Hres1 as (Hid & _ & Hlp & Hns & Hpas & _).
  destruct Hproj1 as (Hrm1 & Hrel1 & _).
  pose proof (cleanupNetworkPolicy_result np1 noCleanupFaults w1) as Hres2.
  pose proof (cleanupNetworkPolicy_projections np1 noCleanupFaults w1) as Hproj2.
  pose proof (cleanupNetworkPolicy_noFaults np1 w1) as Herr2.
  destruct (cleanupNetworkPolicy np1 noCleanupFaults w1) as [[err2 np2] w2].
  cbn [fst snd] in *. subst err2.
  destruct Hres2 as (_ & _ & _ & _ & _ & _ & Hnil & _).
  destruct (Hnil eq_refl) as [_ Hreg2].
  destruct Hproj2 as (Hrm2 & Hrel2 & _).
  destruct (sameIdentity_getKey np np1 Hid) as [Hk _].
  split; [done|]. split; [by rewrite Hreg2, Hk, lookup_delete_eq|].
  split; [done|]. split; [by rewrite Hrm2, Hlp, Hns|].
  rewrite Hrel1, Hrel2.
  assert (firstFailure (releaseFails noCleanupFaults) 0 (length (peerAddressSets np1)) = None)
    as -> by (by apply firstFailure_None).
  unfold releasesUpTo at 2. rewrite Hpas. apply releasesUpTo_successes.
Qed.

(** ** The read lock of a policy in its handlers *)

Section read_lock.
Context `{Externals}.
Implicit Types (np : networkPolicy) (f : Faults) (w : World).

Lemma policyLocks_app (t1 t2 : list Event) :
  policyLocks (t1 ++ t2) = policyLocks t1 ++ policyLocks t2.
Proof. apply omap_app. Qed.

(** A handler that takes the read lock, makes a call with events of the
    shared store only, and releases the lock. *)
Lemma policyLocks_of_handler w w1 w2 (k : string) (pre : list Event) :
  trace w1 = trace w ++ pre → extendsBy isStoreEvent w1 w2 →
  policyLocks (eventsOf w (emit (EvPolicyUnlock k false) w2)) =
    policyLocks pre ++ [(k, false, false)].
Proof.
  intros E1 (ev & E2 & Hst).
  rewrite (eventsOf_app w _ (pre ++ ev ++ [EvPolicyUnlock k false])).
  - rewrite !policyLocks_app, (policyLocks_store ev Hst). done.
  - rewrite trace_emit, E2, E1. by rewrite <-!(assoc_L (++)).
Qed.

Lemma handleLocalPodSelectorAddFunc_policyLocks (logicalPortCache : Pod → option lpInfo)
    np (objs : list Pod) (fh : HandlerFaults) w :
  policyLocks (eventsOf w (handleLocalPodSelectorAddFunc logicalPortCache np objs fh w).2) =
    [(getKey np, false, true); (getKey np, false, false)].
Proof.
  unfold handleLocalPodSelectorAddFunc.
  destruct (deleted np); [by events_norm|].
  destruct (getNewLocalPolicyPorts logicalPortCache np objs) as [[ports uuids] errPods].
  destruct (decide (0 < size ports)); [|by events_norm].
  unfold PortGroupHasPorts. set (w1 := emit (EvGetPortGroup _) (RLock np w)).
  assert (trace w1 = trace w ++ [EvPolicyLock (getKey np) false;
                                 EvGetPortGroup (portGroupName np)]) as Hw1.
  { subst w1. by trace_norm. }
  assert (∀ ops0,
    policyLocks (eventsOf w
      (let '(err, np', w2) :=
         match denyPGAddPorts np ports ops0 (denyFaults fh) w1 with
         | (Some err, w2) =>
             (Some (wrapErr "unable to add new pod to default deny port group" err), np, w2)
         | (None, w2) => (None, setLocalPods (λ pods, ports ∪ pods) np, w2)
         end in
       match err with
       | Some err => (Some err, np', RUnlock np' w2)
       | None => (NewAggregate (podError <$> errPods), np', RUnlock np' w2)
       end).2) = [(getKey np, false, true); (getKey np, false, false)]) as Hdeny.
  { intros ops0.
    pose proof (denyPGAddPorts_storeEvents np ports ops0 (denyFaults fh) w1) as Hst.
    destruct (denyPGAddPorts np ports ops0 (denyFaults fh) w1) as [[err|] w2];
      cbn [fst snd] in *;
      exact (policyLocks_of_handler w w1 w2 (getKey np) _ Hw1 Hst). }
  destruct (match nbPortGroups (nbClient (RLock np w)) !! portGroupName np with
            | Some pg => bool_decide (list_to_set uuids ⊆ pgPorts pg)
            | None => false
            end); [apply Hdeny|].
  unfold buildOps. destruct (policyOpsFail fh); [subst w1; by events_norm|apply Hdeny].
Qed.

Lemma handleLocalPodSelectorDelFunc_policyLocks np (objs : list Pod)
    (fh : HandlerFaults) w :
  policyLocks (eventsOf w (handleLocalPodSelectorDelFunc np objs fh w).2) =
    [(getKey np, false, true); (getKey np, false, false)].
Proof.
  unfold handleLocalPodSelectorDelFunc.
  destruct (deleted np); [by events_norm|].
  unfold getExistingLocalPolicyPorts. rewrite getExistingLocalPolicyPorts_loop.
  set (ports := foldl _ ∅ _). set (uuids := [] ++ _).
  destruct (decide (0 < size ports)); [|by events_norm].
  unfold buildOps. destruct (policyOpsFail fh); [by events_norm|].
  set (ops0 := [] ++ _). set (w1 := RLock np w).
  pose proof (denyPGDeletePorts_storeEvents np ports false ops0 (denyFaults fh) w1) as Hst.
  destruct (denyPGDeletePorts np ports false ops0 (denyFaults fh) w1) as [[err|] w2];
    cbn [fst snd] in *;
    exact (policyLocks_of_handler w w1 w2 (getKey np) [EvPolicyLock (getKey np) false]
             eq_refl Hst).
Qed.

Lemma updateACLLoggingForPolicy_policyLocks
    (updateLogging : DbObjectIDs → ACLLoggingLevels → NBDB → NBDB)
    np (aclLogging : ACLLoggingLevels) (fails : bool) w :
  policyLocks (eventsOf w (updateACLLoggingForPolicy updateLogging np aclLogging fails w).2) =
    [(getKey np, false, true); (getKey np, false, false)].
Proof.
  unfold updateACLLoggingForPolicy. destruct (deleted np), fails; by events_norm.
Qed.

Lemma peerNamespaceUpdate_events
    (buildLocalPodACLs : gressPolicy → string → ACLLoggingLevels → list ACL * list ACL)
    np (gp : gressPolicy) (nsInfo : option ACLLoggingLevels) f w :
  ∃ events,
    trace (peerNamespaceUpdate buildLocalPodACLs np gp nsInfo f w).2 = trace w ++ events ∧
    policyLocks events = [(getKey np, false, true); (getKey np, false, false)].
Proof.
  unfold peerNamespaceUpdate.
  destruct (deleted np); [trace_ex|].
  destruct (buildLocalPodACLs gp (portGroupName np) _) as [acls deletedACLs].
  unfold buildOps, TransactAndCheck.
  destruct (opsFail f 0); [trace_ex|].
  destruct (opsFail f 1); [trace_ex|].
  destruct (decide (0 < length deletedACLs)).
  - destruct (opsFail f 2); [trace_ex|].
    destruct (opsFail f 3); [trace_ex|].
    destruct (transactFails f); trace_ex.
  - destruct (transactFails f); trace_ex.
Qed.

Lemma peerNamespaceUpdate_policyLocks
    (buildLocalPodACLs : gressPolicy → string → ACLLoggingLevels → list ACL * list ACL)
    np (gp : gressPolicy) (nsInfo : option ACLLoggingLevels) f w :
  policyLocks (eventsOf w (peerNamespaceUpdate buildLocalPodACLs np gp nsInfo f w).2) =
    [(getKey np, false, true); (getKey np, false, false)].
Proof.
  destruct (peerNamespaceUpdate_events buildLocalPodACLs np gp nsInfo f w) as (ev & E & Hl).
  by rewrite (eventsOf_app _ _ _ E).
Qed.

Lemma handlePeerNamespaceSelectorAdd_policyLocks
    (buildLocalPodACLs : gressPolicy → string → ACLLoggingLevels → list ACL * list ACL)
    np (gp : gressPolicy) (objs : list string) (nsInfo : option ACLLoggingLevels) f w :
  let once := [(getKey np, false, true); (getKey np, false, false)] in
  let t := policyLocks (eventsOf w
             (handlePeerNamespaceSelectorAdd buildLocalPodACLs np gp objs nsInfo f w).2) in
  t = once ∨ t = once ++ once.
Proof.
  simpl. unfold handlePeerNamespaceSelectorAdd.
  destruct (deleted np); [left; by events_norm|].
  destruct (foldl _ (gp, false, []) objs) as [[gp' updated] errors].
  destruct updated; [|left; by events_norm].
  right. set (w1 := RUnlock np (RLock np w)).
  destruct (peerNamespaceUpdate_events buildLocalPodACLs np gp' nsInfo f w1) as (ev & E & Hl).
  assert (trace w1 = trace w ++ [EvPolicyLock (getKey np) false;
                                 EvPolicyUnlock (getKey np) false]) as Hw1.
  { subst w1. by trace_norm. }
  destruct (peerNamespaceUpdate buildLocalPodACLs np gp' nsInfo f w1) as [[err|] w2];
    cbn [fst snd] in *;
    rewrite (eventsOf_app w w2 (_ ++ ev)) by (rewrite E, Hw1; by rewrite <-(assoc_L (++)));
    by rewrite policyLocks_app, Hl.
Qed.

Lemma handlePeerNamespaceSelectorDel_policyLocks
    (buildLocalPodACLs : gressPolicy → string → ACLLoggingLevels → list ACL * list ACL)
    np (gp : gressPolicy) (objs : list string) (nsInfo : option ACLLoggingLevels) f w :
  let once := [(getKey np, false, true); (getKey np, false, false)] in
  let t := policyLocks (eventsOf w
             (handlePeerNamespaceSelectorDel buildLocalPodACLs np gp objs nsInfo f w).2) in
  t = once ∨ t = once ++ once.
Proof.
  simpl. unfold handlePeerNamespaceSelectorDel.
  destruct (deleted np); [left; by events_norm|].
  destruct (foldl _ (gp, false) objs) as [gp' updated].
  destruct updated; [|left; by events_norm].
  right. set (w1 := RUnlock np (RLock np w)).
  destruct (peerNamespaceUpdate_events buildLocalPodACLs np gp' nsInfo f w1) as (ev & E & Hl).
  assert (trace w1 = trace w ++ [EvPolicyLock (getKey np) false;
                                 EvPolicyUnlock (getKey np) false]) as Hw1.
  { subst w1. by trace_norm. }
  destruct (peerNamespaceUpdate buildLocalPodACLs np gp' nsInfo f w1) as [err w2];
    cbn [fst snd] in *.
  rewrite (eventsOf_app w w2 (_ ++ ev)) by (rewrite E, Hw1; by rewrite <-(assoc_L (++))).
  by rewrite policyLocks_app, Hl.
Qed.
End read_lock.

(** X15. The read lock of a policy in its handlers.  In every run of
    [handleLocalPodSelectorAddFunc], [handleLocalPodSelectorDelFunc],
    [updateACLLoggingForPolicy] and [peerNamespaceUpdate], whatever fails,
    the read lock of the policy is taken once and released once, and no other
    policy lock is touched.  [handlePeerNamespaceSelectorAdd] and
    [handlePeerNamespaceSelectorDel] do the same, once or twice in a row:
    they release the lock before [peerNamespaceUpdate] takes it again.  So
    no handler returns with the lock held, and none takes the read lock while
    it holds it. *)
Theorem policy_read_lock_taken_in_turn `{Externals}
    (logicalPortCache : Pod → option lpInfo)
    (updateLogging : DbObjectIDs → ACLLoggingLevels → NBDB → NBDB)
    (buildLocalPodACLs : gressPolicy → string → ACLLoggingLevels → list ACL * list ACL)
    (np : networkPolicy) (gp : gressPolicy) (pods : list Pod) (namespaces : list string)
    (nsInfo : option ACLLoggingLevels) (aclLogging : ACLLoggingLevels)
    (fh : HandlerFaults) (f : Faults) (fails : bool) (w : World) :
  let once := [(getKey np, false, true); (getKey np, false, false)] in
  let locksOf (w' : World) := policyLocks (eventsOf w w') in
  locksOf (handleLocalPodSelectorAddFunc logicalPortCache np pods fh w).2 = once ∧
  locksOf (handleLocalPodSelectorDelFunc np pods fh w).2 = once ∧
  locksOf (updateACLLoggingForPolicy updateLogging np aclLogging fails w).2 = once ∧
  locksOf (peerNamespaceUpdate buildLocalPodACLs np gp nsInfo f w).2 = once ∧
  (locksOf (handlePeerNamespaceSelectorAdd buildLocalPodACLs np gp namespaces nsInfo f w).2
     = once ∨
   locksOf (handlePeerNamespaceSelectorAdd buildLocalPodACLs np gp namespaces nsInfo f w).2
     = once ++ once) ∧
  (locksOf (handlePeerNamespaceSelectorDel buildLocalPodACLs np gp namespaces nsInfo f w).2
     = once ∨
   locksOf (handlePeerNamespaceSelectorDel buildLocalPodACLs np gp namespaces nsInfo f w).2
     = once ++ once).
Proof.
  simpl.
  split; [apply handleLocalPodSelectorAddFunc_policyLocks|].
  split; [apply handleLocalPodSelectorDelFunc_policyLocks|].
  split; [apply updateACLLoggingForPolicy_policyLocks|].
  split; [apply peerNamespaceUpdate_policyLocks|].
  split; [apply handlePeerNamespaceSelectorAdd_policyLocks|].
  apply handlePeerNamespaceSelectorDel_policyLocks.
Qed.

(** ** Sync gives up before it writes *)

Section sync_failures.
Context `{Externals}.

Lemma expectPolicy_None (objs : list SyncObject) : foldl expectPolicy None objs = None.
Proof. induction objs as [|obj objs IH]; [done|]. exact IH. Qed.

Lemma buildExpectedPolicies_spurious (objs : list SyncObject) :
  SyncOther ∈ objs → buildExpectedPolicies objs = None.
Proof.
  unfold buildExpectedPolicies. generalize (Some (∅ : gmap string (gmap string bool))).
  induction objs as [|obj objs IH]; intros acc Hin; [by apply elem_of_nil in Hin|].
  cbn [foldl]. apply elem_of_cons in Hin as [<-|Hin]; [|by apply IH].
  destruct acc; simpl; apply expectPolicy_None.
Qed.
End sync_failures.

(** X16. Sync gives up before it writes.  When the list given to
    [syncNetworkPolicies] holds an object that is not a network policy,
    wherever in the list, sync returns an error without any call to the
    database.  When the search for the policy-owned ACLs or the search for
    the default-deny ACLs fails, sync returns an error, the database is as it
    was, and the calls made are searches only: no port group is deleted and
    the hairpin-allow ACL is not installed. *)
Theorem syncNetworkPolicies_gives_up_before_writing `{Externals}
    (networkPolicies : list SyncObject) (f : SyncFaults) (w : World) :
  SyncOther ∈ networkPolicies ∨
    findPolicyACLsFails f = true ∨ findDefaultDenyACLsFails f = true →
  let '(err, w') := syncNetworkPolicies networkPolicies f w in
  is_Some err ∧
  nbClient w' = nbClient w ∧
  sharedNetpolPortGroups w' = sharedNetpolPortGroups w ∧
  (SyncOther ∈ networkPolicies → w' = w) ∧
  forallb (λ e, match e with EvFindACLs _ _ => true | _ => false end) (eventsOf w w') = true.
Proof.
  intros Hfail. unfold syncNetworkPolicies.
  destruct (decide (SyncOther ∈ networkPolicies)) as [Hin|Hnin].
  { rewrite (buildExpectedPolicies_spurious _ Hin).
    split; [by eexists|]. split; [done|]. split; [done|]. split; [done|].
    unfold eventsOf. by rewrite drop_all. }
  destruct Hfail as [?|Hfail]; [done|].
  destruct (buildExpectedPolicies networkPolicies) as [expected|].
  2: { split; [by eexists|]. split; [done|]. split; [done|]. split; [done|].
       unfold eventsOf. by rewrite drop_all. }
  unfold FindACLsWithPredicate.
  destruct (findPolicyACLsFails f) eqn:F1.
  { split; [by eexists|]. split; [done|]. split; [done|]. split; [done|]. by events_norm. }
  destruct Hfail as [[=]|F2]. rewrite F2.
  destruct (stalePolicyPGs expected _ ∅) as [stale|].
  - split; [by eexists|]. split; [done|]. split; [done|]. split; [done|]. by events_norm.
  - split; [by eexists|]. split; [done|]. split; [done|]. split; [done|]. by events_norm.
Qed.

(** * The theorems at concrete inputs *)

Lemma recordP1_wf : wfDefaultDeny recordP1.
Proof.
  split; intros p s; simpl.
  - intros [_ <-]%lookup_singleton_Some. apply non_empty_singleton_L.
  - by rewrite lookup_empty.
Defined.

Lemma recordP1_refs_ingress p :
  refs (ingressPortToPolicies recordP1) p = if decide (p = "port-A") then {[ "ns1/p1" ]} else ∅.
Proof.
  unfold refs. simpl. destruct (decide (p = "port-A")) as [->|].
  - by rewrite lookup_singleton_eq.
  - by rewrite lookup_singleton_ne.
Defined.

Lemma addPortsForPolicy_deletePortsForPolicy_identity_witness :
  let ports : gmap string string := {[ "port-A" := "uuid-port-A"; "port-B" := "uuid-port-B" ]} in
  wfDefaultDeny recordP1 ∧
  (∀ portName, portName ∈ dom ports →
     (getKey policyP3 ∉ refs (ingressPortToPolicies recordP1) portName) ∧
     (getKey policyP3 ∉ refs (egressPortToPolicies recordP1) portName)) ∧
  let '(added, newIngressPorts, newEgressPorts) :=
    addPortsForPolicyIn policyP3 (map_to_list ports) (reverse (map_to_list ports)) recordP1 in
  let '(removed, freedIngressPorts, freedEgressPorts) :=
    deletePortsForPolicyIn policyP3 (reverse (map_to_list ports)) (map_to_list ports) added in
  removed = recordP1 ∧
  freedIngressPorts ≡ₚ newIngressPorts ∧
  freedEgressPorts ≡ₚ newEgressPorts.
Proof.
  intros ports.
  assert (∀ portName, portName ∈ dom ports →
     (getKey policyP3 ∉ refs (ingressPortToPolicies recordP1) portName) ∧
     (getKey policyP3 ∉ refs (egressPortToPolicies recordP1) portName)) as Hfresh.
  { intros p _. rewrite recordP1_refs_ingress. split.
    - destruct (decide (p = "port-A")); [|apply not_elem_of_empty].
      apply not_elem_of_singleton. by vm_compute.
    - unfold refs. simpl. rewrite lookup_empty. apply not_elem_of_empty. }
  split; [apply recordP1_wf|]. split; [exact Hfresh|].
  apply (addPortsForPolicy_deletePortsForPolicy_identity policyP3 ports recordP1);
    [done | apply reverse_Permutation | apply reverse_Permutation | done
    | apply recordP1_wf | exact Hfresh].
Defined.

Lemma addPolicyToDefaultPortGroups_creation_fails_witness :
  sharedNetpolPortGroups emptyWorld !! namespace policyP1 = None ∧
  (opsFail transactionFails 0 = true ∨ opsFail transactionFails 1 = true ∨
   transactFails transactionFails = true) ∧
  let '(err, w') :=
    addPolicyToDefaultPortGroups (H := exampleExternals) policyP1
      (MkACLLoggingLevels "" "") transactionFails emptyWorld in
  is_Some err ∧
  sharedNetpolPortGroups w' !! namespace policyP1 = None ∧
  sharedNetpolPortGroups w' = sharedNetpolPortGroups emptyWorld ∧
  nbClient w' = nbClient emptyWorld ∧
  networkPolicies w' = networkPolicies emptyWorld.
Proof.
  split; [reflexivity|]. split; [right; right; reflexivity|].
  apply (addPolicyToDefaultPortGroups_creation_fails (H := exampleExternals) policyP1
           (MkACLLoggingLevels "" "") transactionFails emptyWorld);
    [reflexivity | right; right; reflexivity].
Defined.

Lemma denyPGDeletePorts_record_absent_witness :
  sharedNetpolPortGroups emptyWorld !! namespace policyP1 = None ∧
  size portA ≠ 0 ∧
  let '(err, w') :=
    denyPGDeletePorts (H := exampleExternals) policyP1 portA false [] noFaults emptyWorld in
  let '(errAdd, wAdd) :=
    denyPGAddPorts (H := exampleExternals) policyP1 portA [] noFaults emptyWorld in
  (sharedNetpolPortGroups w' = sharedNetpolPortGroups emptyWorld ∧
   trace w' = trace emptyWorld ++ [EvLockKey (namespace policyP1);
                                   EvTransact [] (negb (transactFails noFaults));
                                   EvUnlockKey (namespace policyP1)] ∧
   nbClient w' = (if transactFails noFaults then nbClient emptyWorld
                  else foldl applyOp (nbClient emptyWorld) []) ∧
   (err = None ↔ transactFails noFaults = false)) ∧
  (is_Some errAdd ∧
   sharedNetpolPortGroups wAdd = sharedNetpolPortGroups emptyWorld ∧
   nbClient wAdd = nbClient emptyWorld ∧
   trace wAdd = trace emptyWorld ++ [EvLockKey (namespace policyP1);
                                     EvUnlockKey (namespace policyP1)]).
Proof.
  assert (size portA ≠ 0) as Hsize.
  { unfold portA. rewrite map_size_singleton. discriminate. }
  split; [reflexivity|]. split; [exact Hsize|].
  apply (denyPGDeletePorts_record_absent (H := exampleExternals) policyP1 portA false []
           noFaults emptyWorld); [reflexivity | exact Hsize].
Defined.

Lemma policyP1_freshFor_portB : freshFor policyP1 portB recordP1.
Proof.
  intros p Hp. apply elem_of_dom in Hp as [u Hu]. unfold portB in Hu.
  apply lookup_singleton_Some in Hu as [<- _]. split; [|discriminate].
  intros _. rewrite recordP1_refs_ingress. rewrite decide_False by discriminate.
  apply not_elem_of_empty.
Defined.

Lemma policyP1_heldBy_portA : heldBy policyP1 portA recordP1.
Proof.
  intros p Hp. apply elem_of_dom in Hp as [u Hu]. unfold portA in Hu.
  apply lookup_singleton_Some in Hu as [<- _]. split; [|discriminate].
  intros _. rewrite recordP1_refs_ingress. rewrite decide_True by done.
  by apply elem_of_singleton.
Defined.

Lemma denyPG_failure_restores_counters_witness :
  sharedNetpolPortGroups worldP1 !! namespace policyP1 = Some recordP1 ∧
  wfDefaultDeny recordP1 ∧
  freshFor policyP1 portB recordP1 ∧
  heldBy policyP1 portA recordP1 ∧
  let '(errAdd, wAdd) :=
    denyPGAddPorts (H := exampleExternals) policyP1 portB [] transactionFails worldP1 in
  let '(errDel, wDel) :=
    denyPGDeletePorts (H := exampleExternals) policyP1 portA false [] transactionFails worldP1 in
  ((transactFails transactionFails = true → is_Some errAdd) ∧
   (is_Some errAdd →
      sharedNetpolPortGroups wAdd = sharedNetpolPortGroups worldP1 ∧
      nbClient wAdd = nbClient worldP1) ∧
   (errAdd = None →
      sharedNetpolPortGroups wAdd =
        <[namespace policyP1 := (addPortsForPolicy policyP1 portB recordP1).1.1]>
          (sharedNetpolPortGroups worldP1))) ∧
  ((transactFails transactionFails = true → is_Some errDel) ∧
   (is_Some errDel →
      sharedNetpolPortGroups wDel = sharedNetpolPortGroups worldP1 ∧
      nbClient wDel = nbClient worldP1) ∧
   (errDel = None →
      sharedNetpolPortGroups wDel =
        <[namespace policyP1 := (deletePortsForPolicy policyP1 portA recordP1).1.1]>
          (sharedNetpolPortGroups worldP1))).
Proof.
  assert (sharedNetpolPortGroups worldP1 !! namespace policyP1 = Some recordP1) as Hs
    by apply lookup_singleton_eq.
  split; [exact Hs|]. split; [apply recordP1_wf|].
  split; [apply policyP1_freshFor_portB|]. split; [apply policyP1_heldBy_portA|].
  apply (denyPG_failure_restores_counters (H := exampleExternals) policyP1 portB portA false
           [] transactionFails worldP1 recordP1 Hs recordP1_wf
           policyP1_freshFor_portB policyP1_heldBy_portA).
Defined.

(** C4 as stated fails: [port-A] already holds the key of [ns1/p1]; the
    transaction of [denyPGAddPorts] for that port fails, and the deferred
    [deletePortsForPolicy] drops the reference that was there before the call,
    so the ingress reference map is not the one from before the call. *)
Lemma denyPGAddPorts_rollback_not_restoring :
  let '(err, w') :=
    denyPGAddPorts (H := exampleExternals) policyP1 portA [] transactionFails worldP1 in
  is_Some err ∧
  (ingressPortToPolicies <$> sharedNetpolPortGroups worldP1 !! "ns1")
    = Some {[ "port-A" := {[ "ns1/p1" ]} ]} ∧
  (ingressPortToPolicies <$> sharedNetpolPortGroups w' !! "ns1") = Some ∅ ∧
  sharedNetpolPortGroups w' ≠ sharedNetpolPortGroups worldP1.
Proof.
  assert (sharedNetpolPortGroups worldP1 !! "ns1" = Some recordP1) as Hs
    by apply lookup_singleton_eq.
  assert (addPortsForPolicy policyP1 portA recordP1 = (recordP1, [], [])) as Hadd
    by (vm_compute; reflexivity).
  assert ((deletePortsForPolicy policyP1 portA recordP1).1.1 =
          {| ingressPortToPolicies := ∅; egressPortToPolicies := ∅;
             policies := {[ "ns1/p1" := true ]} |}) as Hdel
    by (vm_compute; reflexivity).
  pose proof (denyPGAddPorts_run (H := exampleExternals) policyP1 portA [] transactionFails
                worldP1 _ _ _ _ Hs Hadd) as Hrun.
  destruct (denyPGAddPorts policyP1 portA [] transactionFails worldP1) as [err w'].
  simpl in Hrun. destruct Hrun as (Herr & Hst & _).
  rewrite Hdel in Hst. change (namespace policyP1) with "ns1" in Hst.
  assert ((ingressPortToPolicies <$> sharedNetpolPortGroups w' !! "ns1") = Some ∅) as Hafter.
  { rewrite Hst. by rewrite lookup_insert_eq. }
  split; [by apply Herr|]. split; [by rewrite Hs|]. split; [exact Hafter|].
  intros Heq. rewrite Heq, Hs in Hafter. simpl in Hafter.
  apply (inj Some) in Hafter.
  apply (f_equal (λ m : gmap string (gset string), m !! "port-A")) in Hafter.
  by rewrite lookup_singleton_eq, lookup_empty in Hafter.
Qed.

Lemma exampleExternals_hash_inj : Inj (=) (=) (@hashedPortGroup exampleExternals).
Proof. intros a b E. simpl in E. by apply String.app_inj in E. Defined.

Lemma emptyWorld_I2 : I2 (H := exampleExternals) ∅ emptyWorld ∅.
Proof.
  intros ns. unfold I2in. simpl. rewrite !lookup_empty.
  split; [|done]. intros n. apply not_elem_of_empty.
Defined.

(** Policy [ns1/p1] joins the empty store, leaves while the deletion of the
    port groups fails, and leaves again; meanwhile policy [ns2/q] joins while
    the creation of the port groups fails. *)
Lemma join_leave_preserve_I2_witness :
  let logging := MkACLLoggingLevels "" "" in
  let policyQ := {| name := "q"; namespace := "ns2"; isIngress := true; isEgress := true;
                    peerAddressSets := []; localPods := ∅; portGroupName := "";
                    localPodHandler := None; nsHandlerList := []; deleted := false |} in
  let cs := [Join policyP1 logging noFaults; Leave policyP1 transactionFails;
             Join policyQ logging transactionFails; Leave policyP1 noFaults] in
  Inj (=) (=) (@hashedPortGroup exampleExternals) ∧
  I2 (H := exampleExternals) ∅ emptyWorld ∅ ∧
  let '(w', joined', pending') := runMemberships (H := exampleExternals) cs emptyWorld ∅ ∅ in
  I2 (H := exampleExternals) pending' w' joined' ∧
  ∀ ns, ns ∉ pending' →
    (is_Some (sharedNetpolPortGroups w' !! ns) ↔ ∃ n, (ns, n) ∈ joined').
Proof.
  intros logging policyQ cs.
  split; [apply exampleExternals_hash_inj|]. split; [apply emptyWorld_I2|].
  pose proof (join_leave_preserve_I2 (H := exampleExternals) cs emptyWorld ∅ ∅
                exampleExternals_hash_inj emptyWorld_I2) as Hthm.
  destruct (runMemberships (H := exampleExternals) cs emptyWorld ∅ ∅) as [[w' joined'] pending'].
  exact Hthm.
Defined.

(** C2 as stated fails: policy [ns1/p1] joins the empty store, then leaves
    while the deletion of the two port groups fails.  The record of [ns1] is
    still there and its [policies] are empty, so I2 in its tight form holds
    for no set of joined policies. *)
Lemma failed_leave_keeps_empty_record :
  let w1 := (runMembership (H := exampleExternals)
               (Join policyP1 (MkACLLoggingLevels "" "") noFaults) emptyWorld).2 in
  let '(err, w2) :=
    runMembership (H := exampleExternals) (Leave policyP1 transactionFails) w1 in
  is_Some err ∧
  (policies <$> sharedNetpolPortGroups w2 !! "ns1") = Some ∅ ∧
  ∀ joined, ¬ I2 (H := exampleExternals) ∅ w2 joined.
Proof.
  intros w1.
  set (r := runMembership (H := exampleExternals) (Leave policyP1 transactionFails) w1).
  assert (is_Some r.1) as Herr by (vm_compute; eexists; reflexivity).
  assert (sharedNetpolPortGroups r.2 !! "ns1" = Some newDefaultDenyPortGroups) as Hst
    by (vm_compute; reflexivity).
  clearbody r. destruct r as [err w2]. simpl in *.
  split; [done|]. split; [by rewrite Hst|].
  intros joined HI. specialize (HI "ns1"). unfold I2in in HI. rewrite Hst in HI.
  destruct HI as (Hk & Ht & _). destruct (Ht eq_refl) as [n Hn].
  assert (policyKey "ns1" n ∈ dom (policies newDefaultDenyPortGroups)) as Hin
    by (apply Hk; by exists n).
  simpl in Hin. by rewrite dom_empty_L in Hin.
Qed.

(** The retry of the failed leave: policy [ns1/p1] joins, leaves while the
    deletion of the port groups fails, and leaves again.  After the failed
    leave the record of [ns1] and both port groups are still there; after the
    retry the record and both port groups are gone. *)
Example failed_leave_retried :
  let logging := MkACLLoggingLevels "" "" in
  let ing := @defaultDenyPortGroupName exampleExternals "ns1" ingressDefaultDenySuffix in
  let eg := @defaultDenyPortGroupName exampleExternals "ns1" egressDefaultDenySuffix in
  let failed := (runMemberships (H := exampleExternals)
                   [Join policyP1 logging noFaults; Leave policyP1 transactionFails]
                   emptyWorld ∅ ∅) in
  let retried := (runMemberships (H := exampleExternals)
                    [Leave policyP1 noFaults] failed.1.1 failed.1.2 failed.2) in
  (is_Some (sharedNetpolPortGroups failed.1.1 !! "ns1") ∧
   is_Some (nbPortGroups (nbClient failed.1.1) !! ing) ∧
   is_Some (nbPortGroups (nbClient failed.1.1) !! eg) ∧
   elements failed.2 = ["ns1"]) ∧
  (sharedNetpolPortGroups retried.1.1 !! "ns1" = None ∧
   nbPortGroups (nbClient retried.1.1) !! ing = None ∧
   nbPortGroups (nbClient retried.1.1) !! eg = None ∧
   elements retried.2 = []).
Proof.
  vm_compute. repeat split; by eexists.
Qed.

(** The UUID of the port of a name, in the examples. *)
Lemma uuid_prefix_inj : Inj (=) (=) (λ p : string, "uuid-" +:+ p).
Proof. intros a b E. by apply String.app_inj in E. Defined.

Lemma portA_carriesUUIDs : carriesUUIDs (λ p, "uuid-" +:+ p) portA.
Proof.
  intros p u Hp. unfold portA in Hp. apply lookup_singleton_Some in Hp as [<- <-].
  reflexivity.
Defined.

Lemma empty_carriesUUIDs : carriesUUIDs (λ p, "uuid-" +:+ p) ∅.
Proof. intros p u Hp. by rewrite lookup_empty in Hp. Defined.

Lemma nil_avoidDenyPGs : avoidDenyPGs (H := exampleExternals) [].
Proof. intros ns. reflexivity. Defined.

Lemma policyP2_freshFor_portA : freshFor policyP2 portA recordP1.
Proof.
  intros p Hp. apply elem_of_dom in Hp as [u Hu]. unfold portA in Hu.
  apply lookup_singleton_Some in Hu as [<- _]. split; [|discriminate].
  intros _. rewrite recordP1_refs_ingress. rewrite decide_True by done.
  apply not_elem_of_singleton. by vm_compute.
Defined.

Lemma worldP1_I1 : I1 (H := exampleExternals) (λ p, "uuid-" +:+ p) worldP1.
Proof.
  intros ns. unfold I1in. destruct (decide (ns = "ns1")) as [->|Hne].
  - change (sharedNetpolPortGroups worldP1 !! "ns1") with
      (({[ "ns1" := recordP1 ]} : gmap string defaultDenyPortGroups) !! "ns1").
    rewrite lookup_singleton_eq.
    assert (portGroupPorts (nbClient worldP1)
              (defaultDenyPortGroupName (H := exampleExternals) "ns1" ingressDefaultDenySuffix)
            = {[ "uuid-port-A" ]}) as -> by (vm_compute; reflexivity).
    assert (portGroupPorts (nbClient worldP1)
              (defaultDenyPortGroupName (H := exampleExternals) "ns1" egressDefaultDenySuffix)
            = ∅) as -> by (vm_compute; reflexivity).
    split; [apply recordP1_wf|].
    split; [vm_compute; eexists; reflexivity|].
    split; [vm_compute; eexists; reflexivity|].
    intros p. split.
    + rewrite recordP1_refs_ingress, elem_of_singleton.
      destruct (decide (p = "port-A")) as [->|Hp].
      * split; [intros _; apply non_empty_singleton_L | reflexivity].
      * split; [|done]. intros E. simpl in E. by injection E.
    + unfold refs. simpl. rewrite lookup_empty. simpl. split; [|done].
      intros Hin. by apply not_elem_of_empty in Hin.
  - change (sharedNetpolPortGroups worldP1 !! ns) with
      (({[ "ns1" := recordP1 ]} : gmap string defaultDenyPortGroups) !! ns).
    rewrite lookup_singleton_ne by done.
    assert (∀ sfx, sfx ∈ [ingressDefaultDenySuffix; egressDefaultDenySuffix] →
      portGroupPorts (nbClient worldP1)
        (defaultDenyPortGroupName (H := exampleExternals) ns sfx) = ∅) as Hnone.
    { intros sfx Hsfx. unfold portGroupPorts.
      change (nbPortGroups (nbClient worldP1)) with
        (<[ defaultDenyPortGroupName (H := exampleExternals) "ns1" ingressDefaultDenySuffix :=
              BuildPortGroup "ans1_ingressDefaultDeny" "ans1_ingressDefaultDeny"
                {[ "uuid-port-A" ]} [] ]>
           ({[ defaultDenyPortGroupName (H := exampleExternals) "ns1" egressDefaultDenySuffix :=
                 BuildPortGroup "ans1_egressDefaultDeny" "ans1_egressDefaultDeny" ∅ [] ]}
              : gmap string PortGroup)).
      rewrite lookup_insert_ne, lookup_singleton_ne; [done|..];
        intros E; apply (defaultDenyPortGroupName_inj (H := exampleExternals)) in E as [? ?];
        try done; try apply exampleExternals_hash_inj; set_solver. }
    intros p. rewrite !Hnone by set_solver. split; apply not_elem_of_empty.
Defined.

Lemma denyPG_keep_I1_witness :
  let uuidOf : string → string := λ p, "uuid-" +:+ p in
  Inj (=) (=) (@hashedPortGroup exampleExternals) ∧
  Inj (=) (=) uuidOf ∧
  carriesUUIDs uuidOf portA ∧
  carriesUUIDs uuidOf ∅ ∧
  avoidDenyPGs (H := exampleExternals) [] ∧
  I1 (H := exampleExternals) uuidOf worldP1 ∧
  (∀ s, sharedNetpolPortGroups worldP1 !! namespace policyP2 = Some s →
        freshFor policyP2 portA s) ∧
  faultFree noFaults ∧
  let wAdd := (denyPGAddPorts (H := exampleExternals) policyP2 portA [] transactionFails
                 worldP1).2 in
  let wDel := (denyPGDeletePorts (H := exampleExternals) policyP2 ∅ false [] noFaults
                 worldP1).2 in
  let wMember := (runMembership (H := exampleExternals) (Leave policyP1 noFaults) worldP1).2 in
  I1 (H := exampleExternals) uuidOf wAdd ∧
  I1 (H := exampleExternals) uuidOf wDel ∧
  underLock (namespace policyP2) (forwardWrites (H := exampleExternals) (namespace policyP2))
    false (eventsOf worldP1 wAdd) = true ∧
  underLock (namespace policyP2) (forwardWrites (H := exampleExternals) (namespace policyP2))
    false (eventsOf worldP1 wDel) = true ∧
  (∀ pg, portGroupPorts (nbClient wMember) pg = portGroupPorts (nbClient worldP1) pg ∨
         portGroupPorts (nbClient wMember) pg = ∅).
Proof.
  intros uuidOf.
  assert (∀ s, sharedNetpolPortGroups worldP1 !! namespace policyP2 = Some s →
               freshFor policyP2 portA s) as Hfresh.
  { intros s Hs.
    change (sharedNetpolPortGroups worldP1 !! namespace policyP2) with
      (({[ "ns1" := recordP1 ]} : gmap string defaultDenyPortGroups) !! "ns1") in Hs.
    rewrite lookup_singleton_eq in Hs. injection Hs as <-. apply policyP2_freshFor_portA. }
  assert (faultFree noFaults) as Hff by (by repeat split).
  split; [apply exampleExternals_hash_inj|]. split; [apply uuid_prefix_inj|].
  split; [apply portA_carriesUUIDs|]. split; [apply empty_carriesUUIDs|].
  split; [apply nil_avoidDenyPGs|]. split; [apply worldP1_I1|].
  split; [exact Hfresh|]. split; [exact Hff|].
  apply (denyPG_keep_I1 (H := exampleExternals) uuidOf policyP2 portA ∅ false []
           transactionFails noFaults (Leave policyP1 noFaults) worldP1
           exampleExternals_hash_inj uuid_prefix_inj portA_carriesUUIDs empty_carriesUUIDs
           nil_avoidDenyPGs worldP1_I1 (or_intror Hfresh)).
  left. exact Hff.
Defined.

(** C1 as stated fails, twice.  (a) Policy [ns1/p2] adds [port-A], which
    [ns1/p1] already references: no port is new, the key is released before
    the transaction, the transaction fails, and the deferred inverse call
    writes the reference maps after the key was released.  (b) Policy
    [ns1/p1] adds [port-A], whose entry already holds its key, and the
    transaction fails: the inverse call empties the entry while the UUID of
    the port stays in the port group, so I1 no longer holds. *)
Lemma denyPGAddPorts_counters_outside_lock :
  let uuidOf : string → string := λ p, "uuid-" +:+ p in
  let wa := (denyPGAddPorts (H := exampleExternals) policyP2 portA [] transactionFails
               worldP1).2 in
  let wb := (denyPGAddPorts (H := exampleExternals) policyP1 portA [] transactionFails
               worldP1).2 in
  I1 (H := exampleExternals) uuidOf worldP1 ∧
  freshFor policyP2 portA recordP1 ∧
  eventsOf worldP1 wa =
    [EvLockKey "ns1"; EvCounters "ns1" false; EvUnlockKey "ns1";
     EvTransact [] false; EvCounters "ns1" true] ∧
  underLock "ns1" (allWrites "ns1") false (eventsOf worldP1 wa) = false ∧
  ¬ I1 (H := exampleExternals) uuidOf wb.
Proof.
  intros uuidOf wa wb.
  assert (eventsOf worldP1 wa =
    [EvLockKey "ns1"; EvCounters "ns1" false; EvUnlockKey "ns1";
     EvTransact [] false; EvCounters "ns1" true]) as Hev by (vm_compute; reflexivity).
  split; [apply worldP1_I1|]. split; [apply policyP2_freshFor_portA|].
  split; [exact Hev|]. split; [rewrite Hev; vm_compute; reflexivity|].
  intros HI. specialize (HI "ns1"). unfold I1in in HI.
  assert (sharedNetpolPortGroups wb !! "ns1" =
          Some {| ingressPortToPolicies := ∅; egressPortToPolicies := ∅;
                  policies := {[ "ns1/p1" := true ]} |}) as Hst by (vm_compute; reflexivity).
  assert (portGroupPorts (nbClient wb)
            (defaultDenyPortGroupName (H := exampleExternals) "ns1" ingressDefaultDenySuffix)
          = {[ "uuid-port-A" ]}) as Hpg by (vm_compute; reflexivity).
  rewrite Hst, Hpg in HI. destruct HI as (_ & _ & _ & Hports).
  destruct (Hports "port-A") as [[Hin _] _]. apply Hin.
  - apply elem_of_singleton. reflexivity.
  - unfold refs. simpl. by rewrite lookup_empty.
Qed.

(** C9 as stated fails: [pod1] is scheduled and expected in the logical-port
    cache, the cache has no entry for it, and it is returned as an error
    object rather than skipped, although no cached port of it is marked
    pending deletion. *)
Lemma getNewLocalPolicyPorts_cache_miss_is_error :
  podNodeName pod1 ≠ "" ∧
  podExpectedInLogicalCache (Externals := exampleExternals) pod1 = true ∧
  emptyCache pod1 = None ∧
  getNewLocalPolicyPorts (H := exampleExternals) emptyCache policyP1 [pod1] = (∅, [], [pod1]).
Proof. split; [done|]. split; [done|]. split; [done|]. vm_compute. reflexivity. Qed.

Lemma handlers_return_when_deleted_witness :
  let np := policyP1Deleted in
  let w' := RUnlock np (RLock np worldP1) in
  let build : list string → string → ACLLoggingLevels → list ACL * list ACL :=
    λ _ _ _, ([], []) in
  deleted np = true ∧
  handleLocalPodSelectorAddFunc (H := exampleExternals) emptyCache np [pod1]
    (MkHandlerFaults false noFaults) worldP1 = (None, np, w') ∧
  handleLocalPodSelectorDelFunc (H := exampleExternals) np [pod1]
    (MkHandlerFaults false noFaults) worldP1 = (None, np, w') ∧
  handlePeerNamespaceSelectorAdd (H := exampleExternals) build np [] ["ns2"] None noFaults
    worldP1 = (None, [], w') ∧
  handlePeerNamespaceSelectorDel (H := exampleExternals) build np [] ["ns2"] None noFaults
    worldP1 = (None, [], w') ∧
  updateACLLoggingForPolicy (H := exampleExternals) (λ _ _ nb, nb) np
    (MkACLLoggingLevels "info" "info") false worldP1 = (None, w') ∧
  peerNamespaceUpdate (H := exampleExternals) build np [] None noFaults worldP1 = (None, w') ∧
  eventsOf worldP1 w' = [EvPolicyLock (getKey np) false; EvPolicyUnlock (getKey np) false] ∧
  sharedNetpolPortGroups w' = sharedNetpolPortGroups worldP1 ∧
  networkPolicies w' = networkPolicies worldP1 ∧
  nbClient w' = nbClient worldP1.
Proof.
  intros np w' build. split; [reflexivity|].
  apply (handlers_return_when_deleted (H := exampleExternals) emptyCache (λ _ _ nb, nb) build
           np [] [pod1] ["ns2"] None (MkACLLoggingLevels "info" "info")
           (MkHandlerFaults false noFaults) noFaults false worldP1).
  reflexivity.
Defined.

Lemma syncNetworkPolicies_spec_witness :
  let networkPolicies := [SyncPolicy "ns1" "p1"] in
  let f := MkSyncFaults false false false noFaults in
  let w := staleWorld in
  let found1 := emit (EvFindACLs ACLNetworkPolicy true) w in
  let found := emit (EvFindACLs ACLNetpolNamespace true) found1 in
  let undecodable :=
    ∃ acl, taggedAs (H := exampleExternals) ACLNetworkPolicy (nbClient w) acl ∧
           parseACLPolicyKey (Externals := exampleExternals) (ownerName acl) = None in
  (SyncOther ∉ networkPolicies) ∧
  findPolicyACLsFails f = false ∧
  findDefaultDenyACLsFails f = false ∧
  let '(err, w') := syncNetworkPolicies (H := exampleExternals) networkPolicies f w in
  (undecodable → is_Some err ∧ w' = found1) ∧
  (¬ undecodable →
    ∃ stalePGs : gset string,
      (∀ pg, pg ∈ stalePGs ↔
             stalePortGroup (H := exampleExternals) networkPolicies (nbClient w) pg) ∧
      (if decide (stalePGs = ∅)
       then hairpinInstalled (H := exampleExternals) (hairpinFaults f) found err w'
       else if deletePortGroupsFails f
       then is_Some err ∧ w' = emit (EvDeletePortGroups (elements stalePGs) false) found
       else hairpinInstalled (H := exampleExternals) (hairpinFaults f)
              (emit (EvDeletePortGroups (elements stalePGs) true)
                 (setNB (applyOp (nbClient w) (OpDeletePortGroups (elements stalePGs))) found))
              err w') ∧
      (err = None → synced (H := exampleExternals) stalePGs (nbClient w) (nbClient w'))).
Proof.
  intros networkPolicies f w found1 found undecodable.
  assert (SyncOther ∉ networkPolicies) as Hlive
    by (unfold networkPolicies; rewrite elem_of_cons, elem_of_nil; intros [?|[]]; discriminate).
  split; [exact Hlive|]. split; [reflexivity|]. split; [reflexivity|].
  exact (syncNetworkPolicies_spec (H := exampleExternals) networkPolicies f w
           Hlive eq_refl eq_refl).
Defined.

(** On that database sync deletes the port group of [ns2/p-gone] and the two
    default-deny port groups of [ns2] in one call, keeps the port group of
    [ns1/p1], writes the two hairpin-allow ACLs and returns [nil].  Of the
    ACLs that were there only the ACL of [ns1/p1] is left: the others went
    with their port groups. *)
Lemma syncNetworkPolicies_deletes_stale :
  let hairpin direction pipeline :=
    BuildACL (NewDbObjectIDs ACLNetpolDefault "default-network-controller"
                [(ObjectNameKey, "allow-hairpinning"); (PolicyDirectionKey, direction)])
      1001 "ip4.src == 169.254.169.5" "allow-related" None pipeline in
  let hairpinACLs := [hairpin "Ingress" "to-lport"; hairpin "Egress" "to-lport-after-lb"] in
  let '(err, w') :=
    syncNetworkPolicies (H := exampleExternals) [SyncPolicy "ns1" "p1"]
      (MkSyncFaults false false false noFaults) staleWorld in
  err = None ∧
  dom (nbPortGroups (nbClient w')) = {[ "ans1_p1" ]} ∧
  nbACLs (nbClient w') = examplePolicyACL "ns1:p1" :: hairpinACLs ∧
  ∃ names,
    names ≡ₚ ["ans2_p-gone"; "ans2_ingressDefaultDeny"; "ans2_egressDefaultDeny"] ∧
    trace w' =
      [EvFindACLs ACLNetworkPolicy true; EvFindACLs ACLNetpolNamespace true;
       EvDeletePortGroups names true;
       EvTransact [OpCreateOrUpdateACLs hairpinACLs;
                   OpAddACLsToPortGroup "clusterPortGroup" hairpinACLs] true].
Proof.
  vm_compute. split; [reflexivity|]. split; [reflexivity|]. split; [reflexivity|].
  eexists. split; [|reflexivity].
  exact (reverse_Permutation
           ["ans2_p-gone"; "ans2_ingressDefaultDeny"; "ans2_egressDefaultDeny"]).
Qed.

(** A policy-owned ACL whose key does not parse: sync returns an error after the
    first search, and the database is as before. *)
Lemma syncNetworkPolicies_undecodable_key :
  let '(err, w') :=
    syncNetworkPolicies (H := exampleExternals) [SyncPolicy "ns1" "p1"]
      (MkSyncFaults false false false noFaults) undecodableWorld in
  is_Some err ∧
  nbClient w' = nbClient undecodableWorld ∧
  trace w' = [EvFindACLs ACLNetworkPolicy true].
Proof. vm_compute. split; [by eexists|]. by split. Qed.

(** * The further properties at concrete inputs *)

Lemma addPortsForPolicy_counts_references_witness :
  let ports : gmap string string := {[ "port-A" := "uuid-port-A"; "port-B" := "uuid-port-B" ]} in
  let np := policyP3 in
  let sharedPGs := recordP1 in
  map_to_list ports ≡ₚ map_to_list ports ∧
  reverse (map_to_list ports) ≡ₚ map_to_list ports ∧
  let '(sharedPGs', ingressDenyPorts, egressDenyPorts) :=
    addPortsForPolicyIn np (map_to_list ports) (reverse (map_to_list ports)) sharedPGs in
  (∀ portName,
     refs (ingressPortToPolicies sharedPGs') portName =
       if decide (isIngress np = true ∧ portName ∈ dom ports)
       then {[getKey np]} ∪ refs (ingressPortToPolicies sharedPGs) portName
       else refs (ingressPortToPolicies sharedPGs) portName) ∧
  (∀ portName,
     refs (egressPortToPolicies sharedPGs') portName =
       if decide (isEgress np = true ∧ portName ∈ dom ports)
       then {[getKey np]} ∪ refs (egressPortToPolicies sharedPGs) portName
       else refs (egressPortToPolicies sharedPGs) portName) ∧
  policies sharedPGs' = policies sharedPGs ∧
  ingressDenyPorts ≡ₚ
    (if isIngress np
     then (filter (λ pu, refs (ingressPortToPolicies sharedPGs) pu.1 = ∅)
             (map_to_list ports)).*2
     else []) ∧
  egressDenyPorts ≡ₚ
    (if isEgress np
     then (filter (λ pu, refs (egressPortToPolicies sharedPGs) pu.1 = ∅)
             (map_to_list ports)).*2
     else []).
Proof.
  intros ports np sharedPGs.
  split; [reflexivity|]. split; [apply reverse_Permutation|].
  pose proof (addPortsForPolicy_counts_references np ports sharedPGs
                (map_to_list ports) (reverse (map_to_list ports))
                (reflexivity _) (reverse_Permutation _)) as Hthm.
  destruct (addPortsForPolicyIn np (map_to_list ports) (reverse (map_to_list ports))
              sharedPGs) as [[sharedPGs' ingressDenyPorts] egressDenyPorts].
  exact Hthm.
Defined.

Lemma deletePortsForPolicy_counts_references_witness :
  let ports : gmap string string := {[ "port-A" := "uuid-port-A"; "port-B" := "uuid-port-B" ]} in
  let np := policyP1 in
  let sharedPGs := recordP1 in
  map_to_list ports ≡ₚ map_to_list ports ∧
  reverse (map_to_list ports) ≡ₚ map_to_list ports ∧
  let '(sharedPGs', ingressDenyPorts, egressDenyPorts) :=
    deletePortsForPolicyIn np (map_to_list ports) (reverse (map_to_list ports)) sharedPGs in
  (∀ portName,
     refs (ingressPortToPolicies sharedPGs') portName =
       if decide (isIngress np = true ∧ portName ∈ dom ports)
       then refs (ingressPortToPolicies sharedPGs) portName ∖ {[getKey np]}
       else refs (ingressPortToPolicies sharedPGs) portName) ∧
  (∀ portName,
     refs (egressPortToPolicies sharedPGs') portName =
       if decide (isEgress np = true ∧ portName ∈ dom ports)
       then refs (egressPortToPolicies sharedPGs) portName ∖ {[getKey np]}
       else refs (egressPortToPolicies sharedPGs) portName) ∧
  policies sharedPGs' = policies sharedPGs ∧
  ingressDenyPorts ≡ₚ
    (if isIngress np
     then (filter (λ pu, refs (ingressPortToPolicies sharedPGs) pu.1 ∖ {[getKey np]} = ∅)
             (map_to_list ports)).*2
     else []) ∧
  egressDenyPorts ≡ₚ
    (if isEgress np
     then (filter (λ pu, refs (egressPortToPolicies sharedPGs) pu.1 ∖ {[getKey np]} = ∅)
             (map_to_list ports)).*2
     else []).
Proof.
  intros ports np sharedPGs.
  split; [reflexivity|]. split; [apply reverse_Permutation|].
  pose proof (deletePortsForPolicy_counts_references np ports sharedPGs
                (map_to_list ports) (reverse (map_to_list ports))
                (reflexivity _) (reverse_Permutation _)) as Hthm.
  destruct (deletePortsForPolicyIn np (map_to_list ports) (reverse (map_to_list ports))
              sharedPGs) as [[sharedPGs' ingressDenyPorts] egressDenyPorts].
  exact Hthm.
Defined.

(** Deleting the ports [port-A] (held by [ns1/p1] only) and [port-B] (held
    by no policy) for [ns1/p1]: both UUIDs are returned. *)
Lemma deletePortsForPolicy_returns_unreferenced_port :
  let ports : gmap string string := {[ "port-A" := "uuid-port-A"; "port-B" := "uuid-port-B" ]} in
  let '(sharedPGs', ingressDenyPorts, egressDenyPorts) :=
    deletePortsForPolicy policyP1 ports recordP1 in
  ingressPortToPolicies sharedPGs' = ∅ ∧
  ingressDenyPorts ≡ₚ ["uuid-port-A"; "uuid-port-B"] ∧
  egressDenyPorts = [].
Proof.
  vm_compute. split; [reflexivity|]. split; [|reflexivity].
  first [reflexivity | apply Permutation_swap].
Qed.

Lemma portsForPolicy_range_order_witness :
  let ports : gmap string string := {[ "port-A" := "uuid-port-A"; "port-B" := "uuid-port-B" ]} in
  let np := policyP3 in
  let fwd := map_to_list ports in
  let bwd := reverse (map_to_list ports) in
  fwd ≡ₚ map_to_list ports ∧ bwd ≡ₚ map_to_list ports ∧
  let a := addPortsForPolicyIn np fwd fwd recordP1 in
  let a' := addPortsForPolicyIn np bwd bwd recordP1 in
  let d := deletePortsForPolicyIn np fwd fwd recordP1 in
  let d' := deletePortsForPolicyIn np bwd bwd recordP1 in
  (a.1.1 = a'.1.1 ∧ a.1.2 ≡ₚ a'.1.2 ∧ a.2 ≡ₚ a'.2) ∧
  (d.1.1 = d'.1.1 ∧ d.1.2 ≡ₚ d'.1.2 ∧ d.2 ≡ₚ d'.2).
Proof.
  intros ports np fwd bwd.
  split; [reflexivity|]. split; [apply reverse_Permutation|].
  exact (portsForPolicy_range_order np ports recordP1 fwd fwd bwd bwd
           (reflexivity _) (reflexivity _)
           (reverse_Permutation _) (reverse_Permutation _)).
Defined.

Lemma portsForPolicy_repeat_witness :
  heldBy policyP1 portA recordP1 ∧
  freshFor policyP1 portB recordP1 ∧
  wfDefaultDeny recordP1 ∧
  addPortsForPolicy policyP1 portA recordP1 = (recordP1, [], []) ∧
  (deletePortsForPolicy policyP1 portB recordP1).1.1 = recordP1.
Proof.
  split; [apply policyP1_heldBy_portA|]. split; [apply policyP1_freshFor_portB|].
  split; [apply recordP1_wf|].
  exact (portsForPolicy_repeat policyP1 portA portB recordP1
           policyP1_heldBy_portA policyP1_freshFor_portB recordP1_wf).
Defined.

Lemma worldP1_storeWf : storeWf worldP1.
Proof.
  intros ns s. unfold worldP1. cbn [sharedNetpolPortGroups].
  intros [_ <-]%lookup_singleton_Some. apply recordP1_wf.
Defined.

Lemma shared_store_keeps_its_shape_witness :
  let np := policyP2 in
  let w := worldP1 in
  storeWf w ∧
  storeWf (denyPGAddPorts (H := exampleExternals) np portA [] transactionFails w).2 ∧
  storeWf (denyPGDeletePorts (H := exampleExternals) np portA false [] transactionFails w).2 ∧
  storeWf (runMembership (H := exampleExternals) (Leave policyP1 noFaults) w).2 ∧
  ∀ ns sharedPGs portName,
    sharedNetpolPortGroups w !! ns = Some sharedPGs →
    (is_Some (ingressPortToPolicies sharedPGs !! portName) ↔
       refs (ingressPortToPolicies sharedPGs) portName ≠ ∅) ∧
    (is_Some (egressPortToPolicies sharedPGs !! portName) ↔
       refs (egressPortToPolicies sharedPGs) portName ≠ ∅).
Proof.
  intros np w. split; [apply worldP1_storeWf|].
  exact (shared_store_keeps_its_shape (H := exampleExternals) np portA portA false []
           transactionFails transactionFails (Leave policyP1 noFaults) w worldP1_storeWf).
Defined.

Lemma local_pod_handlers_without_work_witness :
  let np := policyP1 in
  let w := worldP1 in
  (∀ pod, pod ∈ [podUnscheduled] → passedOver (H := exampleExternals) np pod = true) ∧
  (∀ pod, pod ∈ [pod1] → localPods np !! podPort (H := exampleExternals) pod = None) ∧
  handleLocalPodSelectorAddFunc (H := exampleExternals) exampleCache np [podUnscheduled]
    noHandlerFaults w = (None, np, RUnlock np (RLock np w)) ∧
  handleLocalPodSelectorDelFunc (H := exampleExternals) np [pod1] noHandlerFaults w =
    (None, np, RUnlock np (RLock np w)) ∧
  eventsOf w (RUnlock np (RLock np w)) =
    [EvPolicyLock (getKey np) false; EvPolicyUnlock (getKey np) false].
Proof.
  intros np w.
  assert (∀ pod, pod ∈ [podUnscheduled] → passedOver (H := exampleExternals) np pod = true)
    as Hover.
  { intros pod Hpod. apply list_elem_of_singleton in Hpod as ->. reflexivity. }
  assert (∀ pod, pod ∈ [pod1] → localPods np !! podPort (H := exampleExternals) pod = None)
    as Hnone.
  { intros pod _. apply lookup_empty. }
  split; [exact Hover|]. split; [exact Hnone|].
  exact (local_pod_handlers_without_work (H := exampleExternals) exampleCache np
           [podUnscheduled] [pod1] noHandlerFaults w Hover Hnone).
Defined.

Lemma local_pods_follow_the_database_witness :
  let np := policyP2 in
  let w := worldP1 in
  let new := getNewLocalPolicyPorts (H := exampleExternals) exampleCache np [pod1] in
  let existing := getExistingLocalPolicyPorts (H := exampleExternals) np [pod1] in
  deleted np = false ∧
  followsTheDatabase np new.1.1 new.2 (λ pods, new.1.1 ∪ pods) w
    (handleLocalPodSelectorAddFunc (H := exampleExternals) exampleCache np [pod1]
       noHandlerFaults w) ∧
  followsTheDatabase np existing.1.1 existing.2 (λ pods, pods ∖ existing.1.1) w
    (handleLocalPodSelectorDelFunc (H := exampleExternals) np [pod1] noHandlerFaults w).
Proof.
  intros np w new existing. split; [reflexivity|].
  exact (local_pods_follow_the_database (H := exampleExternals) exampleCache np [pod1]
           noHandlerFaults w eq_refl).
Defined.

Lemma policyP2_refsWithinLocalPods : refsWithinLocalPods policyP2 recordP1.
Proof.
  intros p. split; [|discriminate]. intros _. rewrite recordP1_refs_ingress.
  destruct (decide (p = "port-A")).
  - intros Hin%elem_of_singleton. by vm_compute in Hin.
  - intros Hin. by apply not_elem_of_empty in Hin.
Defined.

Lemma local_pods_add_then_delete_witness :
  let np := policyP2 in
  let w := worldP1 in
  deleted np = false ∧
  sharedNetpolPortGroups w !! namespace np = Some recordP1 ∧
  wfDefaultDeny recordP1 ∧
  refsWithinLocalPods np recordP1 ∧
  (∀ pod, pod ∈ [pod1] → localPods np !! podPort (H := exampleExternals) pod = None) ∧
  (∀ pod portInfo, pod ∈ [pod1] → exampleCache pod = Some portInfo →
                   lpName portInfo = podPort (H := exampleExternals) pod) ∧
  let '(errAdd, npAdd, wAdd) :=
    handleLocalPodSelectorAddFunc (H := exampleExternals) exampleCache np [pod1]
      noHandlerFaults w in
  let '(errDel, npDel, wDel) :=
    handleLocalPodSelectorDelFunc (H := exampleExternals) npAdd [pod1] noHandlerFaults wAdd in
  localPods npAdd =
    (getNewLocalPolicyPorts (H := exampleExternals) exampleCache np [pod1]).1.1 ∪ localPods np ∧
  errDel = None ∧
  npDel = np ∧
  sharedNetpolPortGroups wDel = sharedNetpolPortGroups w.
Proof.
  intros np w.
  assert (sharedNetpolPortGroups w !! namespace np = Some recordP1) as Hs
    by apply lookup_singleton_eq.
  assert (∀ pod, pod ∈ [pod1] → localPods np !! podPort (H := exampleExternals) pod = None)
    as Habsent by (intros pod _; apply lookup_empty).
  assert (∀ pod portInfo, pod ∈ [pod1] → exampleCache pod = Some portInfo →
                          lpName portInfo = podPort (H := exampleExternals) pod) as Hnames.
  { intros pod info _ [= <-]. reflexivity. }
  split; [reflexivity|]. split; [exact Hs|]. split; [apply recordP1_wf|].
  split; [apply policyP2_refsWithinLocalPods|]. split; [exact Habsent|].
  split; [exact Hnames|].
  pose proof (local_pods_add_then_delete (H := exampleExternals) exampleCache np [pod1] w
                recordP1 eq_refl Hs recordP1_wf policyP2_refsWithinLocalPods
                Habsent Hnames) as Hthm.
  destruct (handleLocalPodSelectorAddFunc (H := exampleExternals) exampleCache np [pod1]
              noHandlerFaults w) as [[errAdd npAdd] wAdd].
  destruct (handleLocalPodSelectorDelFunc (H := exampleExternals) npAdd [pod1]
              noHandlerFaults wAdd) as [[errDel npDel] wDel].
  exact Hthm.
Defined.

(** On [worldP1] the add handler of [ns1/p2] for [pod1] puts the port of the
    pod into [localPods] and into the reference map of the namespace, in one
    committed transaction that also adds it to the port group of the
    policy. *)
Lemma handleLocalPodSelectorAddFunc_adds_pod1 :
  let '(err, np', w') :=
    handleLocalPodSelectorAddFunc (H := exampleExternals) exampleCache policyP2 [pod1]
      noHandlerFaults worldP1 in
  err = None ∧
  localPods np' = {[ "ns1_pod1" := "uuid-ns1_pod1" ]} ∧
  (ingressPortToPolicies <$> sharedNetpolPortGroups w' !! "ns1") =
    Some {[ "port-A" := {[ "ns1/p1" ]}; "ns1_pod1" := {[ "ns1/p2" ]} ]} ∧
  transactions (trace w') =
    [([OpAddPortsToPortGroup "ans1_p2" ["uuid-ns1_pod1"];
       OpAddPortsToPortGroup "ans1_ingressDefaultDeny" ["uuid-ns1_pod1"];
       OpAddPortsToPortGroup "ans1_egressDefaultDeny" []], true)].
Proof. vm_compute. repeat split. Qed.

Lemma syncNetworkPolicies_gives_up_before_writing_witness :
  let networkPolicies := [SyncPolicy "ns1" "p1"; SyncOther] in
  let f := MkSyncFaults false false false noFaults in
  let w := staleWorld in
  (SyncOther ∈ networkPolicies ∨
     findPolicyACLsFails f = true ∨ findDefaultDenyACLsFails f = true) ∧
  let '(err, w') := syncNetworkPolicies (H := exampleExternals) networkPolicies f w in
  is_Some err ∧
  nbClient w' = nbClient w ∧
  sharedNetpolPortGroups w' = sharedNetpolPortGroups w ∧
  (SyncOther ∈ networkPolicies → w' = w) ∧
  forallb (λ e, match e with EvFindACLs _ _ => true | _ => false end) (eventsOf w w') = true.
Proof.
  intros networkPolicies f w.
  assert (SyncOther ∈ networkPolicies ∨
            findPolicyACLsFails f = true ∨ findDefaultDenyACLsFails f = true) as Hfail.
  { left. unfold networkPolicies. apply elem_of_cons. right. apply elem_of_cons. by left. }
  split; [exact Hfail|].
  pose proof (syncNetworkPolicies_gives_up_before_writing (H := exampleExternals)
                networkPolicies f w Hfail) as Hthm.
  destruct (syncNetworkPolicies (H := exampleExternals) networkPolicies f w) as [err w'].
  exact Hthm.
Defined.
